(** * Nexus music-library backend: a shallow embedding and its properties

    The development follows the layout of the JavaScript sources:

    - the slice of the JavaScript runtime the code relies on (numbers with
      [NaN], [parseInt], string and array helpers);
    - the documents kept in the JSON files and the world the code runs in
      (the four JSON files, the songs directory, the clock, an I/O trace);
    - [utils/pagination.js], [utils/resolveTrackPath.js];
    - [models/trackStore.js], [models/playlistStore.js],
      [models/userStore.js], [models/tokenBlocklist.js];
    - the [GET /tracks/:id/stream] handler of [routes/tracks.js]. *)

From Stdlib Require Import ZArith Lia Ascii DecimalString.
From stdpp Require Import base option list strings gmap.
From stdpp Require Import sorting.

Local Open Scope string_scope.
Local Open Scope Z_scope.
Local Open Scope list_scope.

(** ** JavaScript numbers

    The handlers only ever build numbers out of [parseInt], file sizes and
    [+]/[-], so a number is either [NaN] or an integer.  Integers are kept
    exact; JavaScript doubles agree with them below [2^53]. *)

Module Js.

Inductive number :=
| NaN
| Num (z : Z).

#[global] Instance number_eq_dec : EqDecision number.
Proof. solve_decision. Defined.

(** [a >= b], [a > b], [a < b]: every comparison with [NaN] is [false]. *)
Definition ge (a b : number) : bool :=
match a, b with
| Num x, Num y => bool_decide (y ≤ x)
| _, _ => false
end.

Definition gt (a b : number) : bool :=
match a, b with
| Num x, Num y => bool_decide (y < x)
| _, _ => false
end.

(** [a + b] and [a - b] propagate [NaN]. *)
Definition add (a b : number) : number :=
match a, b with
| Num x, Num y => Num (x + y)
| _, _ => NaN
end.

Definition sub (a b : number) : number :=
match a, b with
| Num x, Num y => Num (x - y)
| _, _ => NaN
end.

(** [String(n)], as used by template literals and header values. *)
Definition Z_toString (z : Z) : string :=
NilZero.string_of_int (Z.to_int z).

Definition toString (n : number) : string :=
match n with
| NaN => "NaN"
| Num z => Z_toString z
end.

(** [Number.isInteger]. *)
Definition isInteger (n : number) : bool :=
match n with
| NaN => false
| Num _ => true
end.

(** *** Strings

  A string is a sequence of code units; a request header holds code units
  below 256, which is what [ascii] offers. *)

(** White space skipped by [parseInt]: TAB, LF, VT, FF, CR, SP, NBSP. *)
Definition isWhiteSpace (c : ascii) : bool :=
let n := Ascii.nat_of_ascii c in
bool_decide (n = 9 ∨ n = 10 ∨ n = 11 ∨ n = 12 ∨ n = 13 ∨ n = 32 ∨ n = 160)%nat.

Fixpoint trimStart (s : string) : string :=
match s with
| String c r => if isWhiteSpace c then trimStart r else s
| EmptyString => EmptyString
end.

Definition digitValue (c : ascii) : option Z :=
let n := Ascii.nat_of_ascii c in
if bool_decide (48 ≤ n ≤ 57)%nat then Some (Z.of_nat n - 48) else None.

(** The longest prefix of decimal digits, as digit values. *)
Fixpoint leadingDigits (s : string) : list Z :=
match s with
| String c r =>
    match digitValue c with
    | Some d => d :: leadingDigits r
    | None => []
    end
| EmptyString => []
end.

Definition digitsValue (ds : list Z) : Z :=
fold_left (fun acc d => 10 * acc + d) ds 0.

(** [parseInt(s, 10)]: skip white space, read an optional sign, read the
  longest run of decimal digits; [NaN] when that run is empty. *)
Definition parseInt (s : string) : number :=
let t := trimStart s in
let '(sign, body) :=
  match t with
  | String "-" r => (-1, r)
  | String "+" r => (1, r)
  | _ => (1, t)
  end in
match leadingDigits body with
| [] => NaN
| ds => Num (sign * digitsValue ds)
end.

(** [s.replace(/pat/, '')] for a literal pattern: the first occurrence of
  [pat] is removed. *)
Fixpoint removeFirst (pat s : string) : string :=
if String.prefix pat s then
  String.substring (String.length pat) (String.length s - String.length pat) s
else
  match s with
  | String c r => String c (removeFirst pat r)
  | EmptyString => EmptyString
  end.

(** [s.split(sep)] for a one-character separator. *)
Fixpoint split (sep : ascii) (s : string) : list string :=
match s with
| EmptyString => [EmptyString]
| String c r =>
    if bool_decide (c = sep) then EmptyString :: split sep r
    else
      match split sep r with
      | h :: t => String c h :: t
      | [] => [String c EmptyString]
      end
end.

(** [s.includes(sub)]. *)
Fixpoint includes (sub s : string) : bool :=
String.prefix sub s ||
match s with
| String _ r => includes sub r
| EmptyString => false
end.

(** Truthiness of a string: only the empty string is falsy. *)
Definition truthy (s : string) : bool :=
negb (bool_decide (s = "")).

(** *** Arrays *)

(** [arr.find(f) || null]. *)
Fixpoint find {A} (f : A → bool) (l : list A) : option A :=
match l with
| [] => None
| x :: r => if f x then Some x else find f r
end.

(** [arr.findIndex(f)]; [None] stands for [-1]. *)
Fixpoint findIndex {A} (f : A → bool) (l : list A) : option nat :=
match l with
| [] => None
| x :: r => if f x then Some 0%nat else S <$> findIndex f r
end.

(** [arr.includes(x)] on an array of strings. *)
Definition arrayIncludes (x : string) (l : list string) : bool :=
bool_decide (x ∈ l).

(** [arr.slice(start, end)] with JavaScript's treatment of negative and
  out-of-range indices. *)
Definition relativeIndex (len i : Z) : Z :=
if bool_decide (i < 0) then Z.max (len + i) 0 else Z.min i len.

Definition slice {A} (l : list A) (start stop : Z) : list A :=
let len := Z.of_nat (length l) in
let k := relativeIndex len start in
let final := relativeIndex len stop in
take (Z.to_nat (final - k)) (drop (Z.to_nat k) l).

(** [Math.ceil(a / b)] on integers, [b] nonzero.  No route can pass a zero
  limit: [parsePaginationParams] and the playlist route both replace it by
  a default. *)
Definition ceilDiv (a b : Z) : Z := - ((- a) / b).

(** A stable sort by a comparator, as [Array.prototype.sort] is specified;
  a [NaN] comparison counts as [0]. *)
Definition cmpPositive (n : number) : bool :=
match n with
| NaN => false
| Num z => bool_decide (0 < z)
end.

Fixpoint sortInsert {A} (cmp : A → A → number) (x : A) (sorted : list A) : list A :=
match sorted with
| [] => [x]
| y :: r => if cmpPositive (cmp y x) then x :: sorted else y :: sortInsert cmp x r
end.

Definition sort {A} (cmp : A → A → number) (l : list A) : list A :=
fold_left (fun acc x => sortInsert cmp x acc) l [].

End Js.

(** ** Functions of the platform

    Unicode case mapping and normalization, [path.join], the [mime-types]
    table and [Date] parsing belong to Node and its packages, not to this
    repository; the code is verified for any implementation of them. *)

Inductive NormalForm := NFC | NFD.

Class Platform := {
  toLowerCase : string → string;
  normalize : NormalForm → string → string;
  path_join : string → string → string;
  mime_lookup : string → option string;
  Date_getTime : string → Js.number;
}.

(** ** Documents *)

Module Track.
Record t := mk {
  id : string;
  trackName : string;
  artist : string;
  album : option string;
  releaseDate : option string;
  durationMs : option Z;
  sourceUrl : option string;
  filePath : option string;
  createdAt : string;
}.

#[global] Instance track_eq_dec : EqDecision t.
Proof. solve_decision. Defined.
End Track.

Module Playlist.
Record t := mk {
  id : string;
  userId : string;
  name : string;
  trackIds : list string;
  createdAt : string;
  updatedAt : string;
}.

#[global] Instance playlist_eq_dec : EqDecision t.
Proof. solve_decision. Defined.
End Playlist.

Module User.
Record t := mk {
  id : string;
  username : string;
  passwordHash : string;
  createdAt : string;
}.
End User.

Module BlocklistEntry.
Record t := mk {
  tokenId : string;
  expiresAt : Z;
  blockedAt : Z;
}.
End BlocklistEntry.

(** ** The world

    Each JSON file is missing, unreadable (the read fails with an error code
    such as [EACCES]), or present; a present file holds either text that
    [JSON.parse] rejects or a JSON array of documents.  [JSON.stringify]
    followed by [JSON.parse] is the identity on these documents, so a written
    array is kept as the array itself. *)

Inductive FileContent (A : Type) :=
| Garbage (raw : string)
| JsonArray (docs : list A).
Arguments Garbage {A} raw.
Arguments JsonArray {A} docs.

Inductive FileState (A : Type) :=
| Missing
| Unreadable (code : string)
| Present (content : FileContent A).
Arguments Missing {A}.
Arguments Unreadable {A} code.
Arguments Present {A} content.

(** An entry of the songs directory. *)
Inductive FsNode :=
| RegularFile (bytes : list Byte.byte)
| Directory (size : Z).

Inductive DataFile := TRACKS | PLAYLISTS | USERS | BLOCKLIST.

#[global] Instance DataFile_eq_dec : EqDecision DataFile.
Proof. solve_decision. Defined.

(** What the code asks of the file system, in order. *)
Inductive Event :=
| ReadFile (f : DataFile)
| WriteFile (f : DataFile)
| ExistsSync (path : string)
| StatSync (path : string)
| CreateReadStream (path : string).

#[global] Instance Event_eq_dec : EqDecision Event.
Proof. solve_decision. Defined.

Record World := mkWorld {
  tracksJson : FileState Track.t;
  playlistsJson : FileState Playlist.t;
  usersJson : FileState User.t;
  blocklistJson : FileState BlocklistEntry.t;
  disk : gmap string FsNode;
  clock : string;     (* what [new Date().toISOString()] returns *)
  trace : list Event;
}.

Definition record (e : Event) (w : World) : World :=
  mkWorld (tracksJson w) (playlistsJson w) (usersJson w) (blocklistJson w)
          (disk w) (clock w) (trace w ++ [e]).

Definition setTracksJson (s : FileState Track.t) (w : World) : World :=
  mkWorld s (playlistsJson w) (usersJson w) (blocklistJson w)
          (disk w) (clock w) (trace w).

Definition setPlaylistsJson (s : FileState Playlist.t) (w : World) : World :=
  mkWorld (tracksJson w) s (usersJson w) (blocklistJson w)
          (disk w) (clock w) (trace w).

Definition setUsersJson (s : FileState User.t) (w : World) : World :=
  mkWorld (tracksJson w) (playlistsJson w) s (blocklistJson w)
          (disk w) (clock w) (trace w).

Definition setBlocklistJson (s : FileState BlocklistEntry.t) (w : World) : World :=
  mkWorld (tracksJson w) (playlistsJson w) (usersJson w) s
          (disk w) (clock w) (trace w).

(** A JSON file as the code names it: the constant [TRACKS_FILE] and its
    siblings, with the part of the world they denote. *)
Record JsonFile (A : Type) := mkJsonFile {
  fileId : DataFile;
  getFile : World → FileState A;
  setFile : FileState A → World → World;
}.
Arguments fileId {A} _.
Arguments getFile {A} _ _.
Arguments setFile {A} _ _ _.

Definition TRACKS_FILE : JsonFile Track.t :=
  mkJsonFile _ TRACKS tracksJson setTracksJson.
Definition PLAYLISTS_FILE : JsonFile Playlist.t :=
  mkJsonFile _ PLAYLISTS playlistsJson setPlaylistsJson.
Definition USERS_FILE : JsonFile User.t :=
  mkJsonFile _ USERS usersJson setUsersJson.
Definition BLOCKLIST_FILE : JsonFile BlocklistEntry.t :=
  mkJsonFile _ BLOCKLIST blocklistJson setBlocklistJson.

(** ** Computations: state passing with exceptions *)

Record JsError := mkError {
  errName : string;
  errCode : option string;
}.

#[global] Instance JsError_eq_dec : EqDecision JsError.
Proof. solve_decision. Defined.

Inductive Outcome (A : Type) :=
| Ok (a : A)
| Throw (e : JsError).
Arguments Ok {A} a.
Arguments Throw {A} e.

Definition M (A : Type) : Type := World → Outcome A * World.

Definition ret {A} (a : A) : M A := fun w => (Ok a, w).

Definition throw {A} (e : JsError) : M A := fun w => (Throw e, w).

Definition bind {A B} (m : M A) (k : A → M B) : M B :=
  fun w =>
    match m w with
    | (Ok a, w') => k a w'
    | (Throw e, w') => (Throw e, w')
    end.

(** [try { m } catch (err) { h err }]. *)
Definition tryCatch {A} (m : M A) (h : JsError → M A) : M A :=
  fun w =>
    match m w with
    | (Ok a, w') => (Ok a, w')
    | (Throw e, w') => h e w'
    end.

Notation "'let*' x ':=' m 'in' k" := (bind m (fun x => k))
  (at level 10, x name, m at level 100, k at level 200).
Notation "'do' m 'in' k" := (bind m (fun _ => k))
  (at level 10, m at level 100, k at level 200).

(** The events a computation adds to the trace of [w]. *)
Definition events {A} (m : M A) (w : World) : list Event :=
  drop (length (trace w)) (trace (m w).2).

Definition reads (f : DataFile) (es : list Event) : nat :=
  length (filter (λ e, e = ReadFile f) es).

Definition writes (f : DataFile) (es : list Event) : nat :=
  length (filter (λ e, e = WriteFile f) es).

(** *** The [fs] and [JSON] calls of the stores *)

(** [fs.readFileSync(file, 'utf8')]. *)
Definition readFileSync {A} (file : JsonFile A) : M (FileContent A) :=
  fun w =>
    let w' := record (ReadFile (fileId file)) w in
    match getFile file w with
    | Missing => (Throw (mkError "Error" (Some "ENOENT")), w')
    | Unreadable code => (Throw (mkError "Error" (Some code)), w')
    | Present c => (Ok c, w')
    end.

(** [JSON.parse(data)]. *)
Definition JSON_parse {A} (data : FileContent A) : M (list A) :=
  match data with
  | Garbage _ => throw (mkError "SyntaxError" None)
  | JsonArray docs => ret docs
  end.

(** [fs.writeFileSync(file, JSON.stringify(docs, null, 2))]. *)
Definition writeFileSync {A} (file : JsonFile A) (docs : list A) : M unit :=
  fun w =>
    (Ok tt, setFile file (Present (JsonArray docs)) (record (WriteFile (fileId file)) w)).

(** [new Date().toISOString()]. *)
Definition nowISO : M string := fun w => (Ok (clock w), w).

(** The body shared by [getAllTracks], [getAllPlaylists], [getAllUsers] and
    [getBlocklist]:
<<
    try { const data = fs.readFileSync(FILE, 'utf8'); return JSON.parse(data); }
    catch (err) { if (err.code === 'ENOENT') { return []; } throw err; }
>> *)
Definition loadAll {A} (file : JsonFile A) : M (list A) :=
  tryCatch
    (let* data := readFileSync file in JSON_parse data)
    (fun err =>
       if bool_decide (errCode err = Some "ENOENT") then ret [] else throw err).

Definition saveAll {A} (file : JsonFile A) (docs : list A) : M unit :=
  writeFileSync file docs.

(** ** [utils/pagination.js] *)

Record Pagination := mkPagination {
  page : Z;
  limit : Z;
  total : Z;
  totalPages : Z;
  hasNext : bool;
  hasPrev : bool;
}.

Record Paginated (A : Type) := mkPaginated {
  data : list A;
  pagination : Pagination;
}.
Arguments mkPaginated {A} data pagination.
Arguments data {A} _.
Arguments pagination {A} _.

(** [x || 1] on a number. *)
Definition orOne (x : Z) : Z := if bool_decide (x = 0) then 1 else x.

Definition paginate {A} (items : list A) (page limit : Z) : Paginated A :=
  let total := Z.of_nat (length items) in
  let totalPages := orOne (Js.ceilDiv total limit) in
  let safePage := Z.max 1 (Z.min page totalPages) in
  let startIndex := (safePage - 1) * limit in
  let endIndex := startIndex + limit in
  let data := Js.slice items startIndex endIndex in
  mkPaginated data
    (mkPagination safePage limit total totalPages
       (bool_decide (safePage < totalPages)) (bool_decide (1 < safePage))).

(** The query of a listing request: [req.query.page] and [req.query.limit],
    absent or a string. *)
Record Query := mkQuery {
  queryPage : option string;
  queryLimit : option string;
}.

(** [parseInt(undefined, 10)] reads the text ["undefined"]. *)
Definition parseIntParam (v : option string) : Js.number :=
  Js.parseInt (default "undefined" v).

Definition parsePaginationParams (query : Query)
    (defaultPage defaultLimit maxLimit : Z) : Z * Z :=
  let page :=
    match parseIntParam (queryPage query) with
    | Js.NaN => defaultPage
    | Js.Num p => if bool_decide (p < 1) then defaultPage else p
    end in
  let limit :=
    match parseIntParam (queryLimit query) with
    | Js.NaN => defaultLimit
    | Js.Num l => if bool_decide (l < 1) then defaultLimit else Z.min l maxLimit
    end in
  (page, limit).

(** ** [utils/resolveTrackPath.js] *)

(** [fs.existsSync(path)]. *)
Definition existsSync (path : string) : M bool :=
  fun w => (Ok (bool_decide (is_Some (disk w !! path))), record (ExistsSync path) w).

Section ResolveTrackPath.
Context `{Platform}.

(** [filePath] is [None] for [null]; the empty string is falsy too. *)
Definition resolveTrackPath (songsDir : string) (filePath : option string)
    : M (option string) :=
  match filePath with
  | None => ret None
  | Some filePath =>
      if negb (Js.truthy filePath) then ret None
      else
        let original := path_join songsDir filePath in
        let* found := existsSync original in
        if found then ret (Some original)
        else
          let nfc := path_join songsDir (normalize NFC filePath) in
          let* found := existsSync nfc in
          if found then ret (Some nfc)
          else
            let nfd := path_join songsDir (normalize NFD filePath) in
            let* found := existsSync nfd in
            if found then ret (Some nfd)
            else ret None
  end.
End ResolveTrackPath.

(** ** [models/trackStore.js] *)

Module TrackStore.
Section TrackStore.
Context `{Platform}.

Definition getAllTracks : M (list Track.t) := loadAll TRACKS_FILE.

Definition saveAllTracks (tracks : list Track.t) : M unit :=
  saveAll TRACKS_FILE tracks.

Definition findById (id : string) : M (option Track.t) :=
  let* tracks := getAllTracks in
  ret (Js.find (λ track, bool_decide (Track.id track = id)) tracks).

(** [new Map(tracks.map((t) => [t.id, t]))]: a later entry replaces an
    earlier one with the same id. *)
Definition trackMap (tracks : list Track.t) : gmap string Track.t :=
  fold_left (λ m t, <[Track.id t := t]> m) tracks ∅.

Definition findByIds (ids : list string) : M (list Track.t) :=
  let* tracks := getAllTracks in
  let m := trackMap tracks in
  ret (omap (λ id, m !! id) ids).

(** The filter of [getAll]: the query occurs in the track name, the artist
    or the album, case-insensitively. *)
Definition matchesSearch (searchLower : string) (track : Track.t) : bool :=
  Js.includes searchLower (toLowerCase (Track.trackName track))
  || Js.includes searchLower (toLowerCase (Track.artist track))
  || match Track.album track with
     | Some album => Js.truthy album && Js.includes searchLower (toLowerCase album)
     | None => false
     end.

(** The comparator of [sort === 'newest']. *)
Definition byNewest (a b : Track.t) : Js.number :=
  Js.sub (Date_getTime (Track.createdAt b)) (Date_getTime (Track.createdAt a)).

Definition getAll (page limit : Z) (search sort : string)
    : M (Paginated Track.t) :=
  let* tracks := getAllTracks in
  let tracks :=
    if Js.truthy search then
      let searchLower := toLowerCase search in
      filter (λ track, Is_true (matchesSearch searchLower track)) tracks
    else tracks in
  let tracks :=
    if bool_decide (sort = "newest") then Js.sort byNewest tracks else tracks in
  let total := Z.of_nat (length tracks) in
  let totalPages := Js.ceilDiv total limit in
  let startIndex := (page - 1) * limit in
  let endIndex := startIndex + limit in
  let paginatedTracks := Js.slice tracks startIndex endIndex in
  ret (mkPaginated paginatedTracks
         (mkPagination page limit total totalPages
            (bool_decide (page < totalPages)) (bool_decide (1 < page)))).

(** The case-insensitive (artist, trackName) key. *)
Definition sameKey (artist trackName : string) (track : Track.t) : bool :=
  bool_decide (toLowerCase (Track.artist track) = toLowerCase artist)
  && bool_decide (toLowerCase (Track.trackName track) = toLowerCase trackName).

Definition findByArtistAndName (artist trackName : string)
    : M (option Track.t) :=
  let* tracks := getAllTracks in
  ret (Js.find (sameKey artist trackName) tracks).

Definition addTrack (track : Track.t) : M Track.t :=
  let* existing := findByArtistAndName (Track.artist track) (Track.trackName track) in
  match existing with
  | Some existing => ret existing
  | None =>
      let* tracks := getAllTracks in
      let tracks := tracks ++ [track] in
      do saveAllTracks tracks in
      ret track
  end.

(** One iteration of the loop of [addTracks]; the state is the pair of
    [tracks] and [results]. *)
Definition addTracksStep (st : list Track.t * list Track.t) (newTrack : Track.t)
    : list Track.t * list Track.t :=
  let '(tracks, results) := st in
  match Js.find (sameKey (Track.artist newTrack) (Track.trackName newTrack)) tracks with
  | Some existing => (tracks, results ++ [existing])
  | None => (tracks ++ [newTrack], results ++ [newTrack])
  end.

Definition addTracks (newTracks : list Track.t) : M (list Track.t) :=
  let* tracks := getAllTracks in
  let '(tracks, results) := fold_left addTracksStep newTracks (tracks, []) in
  do saveAllTracks tracks in
  ret results.

End TrackStore.
End TrackStore.

(** ** [models/playlistStore.js] *)

Module PlaylistStore.

Definition getAllPlaylists : M (list Playlist.t) := loadAll PLAYLISTS_FILE.

Definition saveAllPlaylists (playlists : list Playlist.t) : M unit :=
  saveAll PLAYLISTS_FILE playlists.

Definition findById (id : string) : M (option Playlist.t) :=
  let* playlists := getAllPlaylists in
  ret (Js.find (λ playlist, bool_decide (Playlist.id playlist = id)) playlists).

Definition getByUserId (userId : string) (page limit : Z)
    : M (Paginated Playlist.t) :=
  let* all := getAllPlaylists in
  let playlists := filter (λ p, Playlist.userId p = userId) all in
  let total := Z.of_nat (length playlists) in
  let totalPages := Js.ceilDiv total limit in
  let startIndex := (page - 1) * limit in
  let endIndex := startIndex + limit in
  let paginatedPlaylists := Js.slice playlists startIndex endIndex in
  ret (mkPaginated paginatedPlaylists
         (mkPagination page limit total totalPages
            (bool_decide (page < totalPages)) (bool_decide (1 < page)))).

Definition findByUserIdAndName `{Platform} (userId name : string)
    : M (option Playlist.t) :=
  let* playlists := getAllPlaylists in
  ret (Js.find
         (λ p, bool_decide (Playlist.userId p = userId)
               && bool_decide (toLowerCase (Playlist.name p) = toLowerCase name))
         playlists).

(** The argument of [create]: the route passes [id], [userId], [name] and
    [trackIds]; the two timestamps are added here. *)
Record NewPlaylist := mkNewPlaylist {
  newId : string;
  newUserId : string;
  newName : string;
  newTrackIds : list string;
}.

Definition create (playlist : NewPlaylist) : M Playlist.t :=
  let* playlists := getAllPlaylists in
  let* createdAt := nowISO in
  let* updatedAt := nowISO in
  let newPlaylist :=
    Playlist.mk (newId playlist) (newUserId playlist) (newName playlist)
                (newTrackIds playlist) createdAt updatedAt in
  do saveAllPlaylists (playlists ++ [newPlaylist]) in
  ret newPlaylist.

(** The test of every ownership-checked operation:
    [p.id === id && p.userId === userId]. *)
Definition owned (id userId : string) (p : Playlist.t) : bool :=
  bool_decide (Playlist.id p = id) && bool_decide (Playlist.userId p = userId).

(** [playlists[index]] where [index] came from [findIndex]; reading a
    field of [undefined] would raise a [TypeError]. *)
Definition typeError : JsError := mkError "TypeError" None.

Definition at_index (playlists : list Playlist.t) (index : nat) : M Playlist.t :=
  match playlists !! index with
  | Some p => ret p
  | None => throw typeError
  end.

(** The [updates] argument of [update]; [None] is [undefined].  Only
    [name] and [trackIds] are copied, so nothing else is kept here. *)
Record Updates := mkUpdates {
  updName : option string;
  updTrackIds : option (list string);
}.

Definition update (id userId : string) (updates : Updates)
    : M (option Playlist.t) :=
  let* playlists := getAllPlaylists in
  match Js.findIndex (owned id userId) playlists with
  | None => ret None
  | Some index =>
      let* old := at_index playlists index in
      let* now := nowISO in
      let updated :=
        Playlist.mk (Playlist.id old) (Playlist.userId old)
                    (default (Playlist.name old) (updName updates))
                    (default (Playlist.trackIds old) (updTrackIds updates))
                    (Playlist.createdAt old) now in
      let playlists := <[index := updated]> playlists in
      do saveAllPlaylists playlists in
      ret (Some updated)
  end.

Definition remove (id userId : string) : M bool :=
  let* playlists := getAllPlaylists in
  match Js.findIndex (owned id userId) playlists with
  | None => ret false
  | Some index =>
      do saveAllPlaylists (delete index playlists) in
      ret true
  end.

Definition setTrackIds (ids : list string) (p : Playlist.t) : Playlist.t :=
  Playlist.mk (Playlist.id p) (Playlist.userId p) (Playlist.name p) ids
              (Playlist.createdAt p) (Playlist.updatedAt p).

Definition setUpdatedAt (now : string) (p : Playlist.t) : Playlist.t :=
  Playlist.mk (Playlist.id p) (Playlist.userId p) (Playlist.name p)
              (Playlist.trackIds p) (Playlist.createdAt p) now.

Definition addTrack (playlistId userId trackId : string)
    : M (option Playlist.t) :=
  let* playlists := getAllPlaylists in
  match Js.findIndex (owned playlistId userId) playlists with
  | None => ret None
  | Some index =>
      let* p := at_index playlists index in
      if negb (Js.arrayIncludes trackId (Playlist.trackIds p)) then
        let p := setTrackIds (Playlist.trackIds p ++ [trackId]) p in
        let* now := nowISO in
        let p := setUpdatedAt now p in
        let playlists := <[index := p]> playlists in
        do saveAllPlaylists playlists in
        ret (Some p)
      else ret (Some p)
  end.

(** One iteration of the loop of [addTracks] on [playlists[index].trackIds]. *)
Definition pushIfAbsent (ids : list string) (trackId : string) : list string :=
  if negb (Js.arrayIncludes trackId ids) then ids ++ [trackId] else ids.

Definition addTracks (playlistId userId : string) (trackIds : list string)
    : M (option Playlist.t) :=
  let* playlists := getAllPlaylists in
  match Js.findIndex (owned playlistId userId) playlists with
  | None => ret None
  | Some index =>
      let* p := at_index playlists index in
      let p := setTrackIds (fold_left pushIfAbsent trackIds (Playlist.trackIds p)) p in
      let* now := nowISO in
      let p := setUpdatedAt now p in
      let playlists := <[index := p]> playlists in
      do saveAllPlaylists playlists in
      ret (Some p)
  end.

Definition removeTrack (playlistId userId trackId : string)
    : M (option Playlist.t) :=
  let* playlists := getAllPlaylists in
  match Js.findIndex (owned playlistId userId) playlists with
  | None => ret None
  | Some index =>
      let* p := at_index playlists index in
      let p := setTrackIds (filter (λ id, id ≠ trackId) (Playlist.trackIds p)) p in
      let* now := nowISO in
      let p := setUpdatedAt now p in
      let playlists := <[index := p]> playlists in
      do saveAllPlaylists playlists in
      ret (Some p)
  end.

Definition isOwner (playlistId userId : string) : M bool :=
  let* playlist := findById playlistId in
  ret match playlist with
      | Some playlist => bool_decide (Playlist.userId playlist = userId)
      | None => false
      end.

End PlaylistStore.

(** ** [models/userStore.js] *)

Module UserStore.

Definition getAllUsers : M (list User.t) := loadAll USERS_FILE.

Definition findByUsername (username : string) : M (option User.t) :=
  let* users := getAllUsers in
  ret (Js.find (λ user, bool_decide (User.username user = username)) users).

Definition findById (id : string) : M (option User.t) :=
  let* users := getAllUsers in
  ret (Js.find (λ user, bool_decide (User.id user = id)) users).

End UserStore.

(** ** [models/tokenBlocklist.js] *)

Module TokenBlocklist.

Definition getBlocklist : M (list BlocklistEntry.t) := loadAll BLOCKLIST_FILE.

Definition saveBlocklist (blocklist : list BlocklistEntry.t) : M unit :=
  saveAll BLOCKLIST_FILE blocklist.

Definition isBlocklisted (tokenId : string) : M bool :=
  let* blocklist := getBlocklist in
  ret (bool_decide (Exists (λ entry, BlocklistEntry.tokenId entry = tokenId) blocklist)).

(** [now] is what [Date.now()] returns during the call. *)
Definition addToBlocklist (now : Z) (tokenId : string) (expiresAt : Z) : M unit :=
  let* blocklist := getBlocklist in
  saveBlocklist (blocklist ++ [BlocklistEntry.mk tokenId expiresAt now]).

Definition cleanupExpiredEntries (now : Z) : M unit :=
  let* blocklist := getBlocklist in
  let cleaned := filter (λ entry, now < BlocklistEntry.expiresAt entry) blocklist in
  if bool_decide (length cleaned ≠ length blocklist) then saveBlocklist cleaned
  else ret tt.

End TokenBlocklist.

(** ** [utils/sanitize.js] *)

Module Sanitize.

(** The characters of the class of the first replacement: the angle
    brackets, the colon, the double quote (code 34), both slashes, the bar,
    the question mark and the star. *)
Definition invalidChars : list ascii :=
  ["<"; ">"; ":"; "034"; "/"; "\"; "|"; "?"; "*"]%char.

(** [s.replace(/[class]/g, '_')]. *)
Fixpoint replaceEach (class : list ascii) (s : string) : string :=
  match s with
  | String c r =>
      String (if bool_decide (c ∈ class) then "_"%char else c) (replaceEach class r)
  | EmptyString => EmptyString
  end.

(** [s.replace(/_+/g, '_')]. *)
Fixpoint collapseUnderscores (s : string) : string :=
  match s with
  | String c r =>
      if bool_decide (c = "_"%char) then
        match r with
        | String "_" _ => collapseUnderscores r
        | _ => String "_" (collapseUnderscores r)
        end
      else String c (collapseUnderscores r)
  | EmptyString => EmptyString
  end.

(** [s.replace(/^_+|_+$/g, '')]: the leading run, then the trailing run. *)
Fixpoint stripLeading (s : string) : string :=
  match s with
  | String c r => if bool_decide (c = "_"%char) then stripLeading r else s
  | EmptyString => EmptyString
  end.

Fixpoint stripTrailing (s : string) : string :=
  match s with
  | String c r =>
      let r' := stripTrailing r in
      if bool_decide (c = "_"%char) && bool_decide (r' = "") then EmptyString
      else String c r'
  | EmptyString => EmptyString
  end.

Definition sanitizeFilename (name : string) : string :=
  let result := name in
  let result := replaceEach invalidChars result in
  let result := replaceEach [" "%char] result in
  let result := replaceEach [";"%char] result in
  let result := collapseUnderscores result in
  let result := stripTrailing (stripLeading result) in
  result.

Definition buildTrackFilename (artist trackName : string) : string :=
  sanitizeFilename artist +:+ "-" +:+ sanitizeFilename trackName +:+ ".m4a".

End Sanitize.

(** ** [routes/tracks.js]: [GET /tracks/:id/stream] *)

Module TracksRoute.

(** The body a response is given: a JSON error document, or a read stream
    to pipe.  [Stream bytes] is a stream that delivers [bytes].
    [StreamError code] is a stream whose read fails with [code]: it
    delivers nothing and emits an ['error'] event, which [pipe] below
    raises. *)
Inductive Body :=
| JsonError (code message : string)
| Stream (bytes : list Byte.byte)
| StreamError (code : string).

Record Response := mkResponse {
  status : Z;
  headers : list (string * string);
  body : Body;
}.

(** [res.status(s).json({ success: false, error: { code, message } })]. *)
Definition jsonError (s : Z) (code message : string) : Response :=
  mkResponse s [] (JsonError code message).

(** [fs.statSync(path).size]. *)
Definition statSync (path : string) : M Z :=
  fun w =>
    let w' := record (StatSync path) w in
    match disk w !! path with
    | Some (RegularFile bytes) => (Ok (Z.of_nat (length bytes)), w')
    | Some (Directory size) => (Ok size, w')
    | None => (Throw (mkError "Error" (Some "ENOENT")), w')
    end.

(** [fs.createReadStream(path, { start, end })].  Node checks the options
    when the stream is built: each of [start] and [end] must be an integer
    that is not negative, and [start] must not exceed [end]; otherwise the
    call throws [ERR_OUT_OF_RANGE].  Both bounds are inclusive. *)
Definition validOffset (n : Js.number) : bool :=
  Js.isInteger n && Js.ge n (Js.Num 0).

Definition outOfRange : JsError := mkError "RangeError" (Some "ERR_OUT_OF_RANGE").

Definition span (bytes : list Byte.byte) (range : option (Z * Z)) : list Byte.byte :=
  match range with
  | Some (first, last) => take (Z.to_nat (last - first + 1)) (drop (Z.to_nat first) bytes)
  | None => bytes
  end.

(** Building the stream does not touch the file, so it never throws for
    what is at [path]: a directory or a missing path gives a stream whose
    read fails afterwards, with [EISDIR] or [ENOENT]. *)
Definition openStream (path : string) (range : option (Z * Z)) : M Body :=
  fun w =>
    let w' := record (CreateReadStream path) w in
    match disk w !! path with
    | Some (RegularFile bytes) => (Ok (Stream (span bytes range)), w')
    | Some (Directory _) => (Ok (StreamError "EISDIR"), w')
    | None => (Ok (StreamError "ENOENT"), w')
    end.

Definition createReadStream (path : string) (range : option (Js.number * Js.number))
    : M Body :=
  match range with
  | None => openStream path None
  | Some (Js.Num first, Js.Num last) =>
      if validOffset (Js.Num first) && validOffset (Js.Num last)
         && negb (Js.gt (Js.Num first) (Js.Num last))
      then openStream path (Some (first, last))
      else throw outOfRange
  | Some _ => throw outOfRange
  end.

(** The three lines that read the [Range] header:
<<
    const parts = range.replace(/bytes=/, '').split('-');
    const start = parseInt(parts[0], 10);
    const end = parts[1] ? parseInt(parts[1], 10) : fileSize - 1;
>> *)
Definition parseRange (range : string) (fileSize : Z) : Js.number * Js.number :=
  let parts := Js.split "-" (Js.removeFirst "bytes=" range) in
  let start := parseIntParam (parts !! 0%nat) in
  let stop :=
    match parts !! 1%nat with
    | Some p => if Js.truthy p then Js.parseInt p else Js.Num (fileSize - 1)
    | None => Js.Num (fileSize - 1)
    end in
  (start, stop).

(** [start >= fileSize || end >= fileSize || start > end]. *)
Definition rangeRejected (start stop : Js.number) (fileSize : Z) : bool :=
  Js.ge start (Js.Num fileSize) || Js.ge stop (Js.Num fileSize) || Js.gt start stop.

(** [end - start + 1]. *)
Definition chunkSize (start stop : Js.number) : Js.number :=
  Js.add (Js.sub stop start) (Js.Num 1).

Section Stream.
Context `{Platform}.
Variable songs : string.   (* [config.paths.songs] *)

(** [mime.lookup(filePath) || 'audio/mpeg']. *)
Definition mimeTypeOf (filePath : string) : string :=
  match mime_lookup filePath with
  | Some m => if Js.truthy m then m else "audio/mpeg"
  | None => "audio/mpeg"
  end.

(** The handler from [fs.statSync(filePath)] on. *)
Definition serveFile (filePath : string) (range : option string) : M Response :=
  let* fileSize := statSync filePath in
  let mimeType := mimeTypeOf filePath in
  match range with
  | Some range =>
      if Js.truthy range then
        let '(start, stop) := parseRange range fileSize in
        if rangeRejected start stop fileSize then
          ret (jsonError 416 "RANGE_NOT_SATISFIABLE" "Requested range not satisfiable")
        else
          let chunk := chunkSize start stop in
          let* stream := createReadStream filePath (Some (start, stop)) in
          ret (mkResponse 206
                 [("Content-Range",
                    "bytes " +:+ Js.toString start +:+ "-" +:+ Js.toString stop
                      +:+ "/" +:+ Js.Z_toString fileSize);
                  ("Accept-Ranges", "bytes");
                  ("Content-Length", Js.toString chunk);
                  ("Content-Type", mimeType);
                  ("Cache-Control", "public, max-age=86400")]
                 stream)
      else
        let* stream := createReadStream filePath None in
        ret (mkResponse 200
               [("Content-Length", Js.Z_toString fileSize);
                ("Content-Type", mimeType);
                ("Accept-Ranges", "bytes");
                ("Cache-Control", "public, max-age=86400")]
               stream)
  | None =>
      let* stream := createReadStream filePath None in
      ret (mkResponse 200
             [("Content-Length", Js.Z_toString fileSize);
              ("Content-Type", mimeType);
              ("Accept-Ranges", "bytes");
              ("Cache-Control", "public, max-age=86400")]
             stream)
  end.

(** The [try] block of the handler. *)
Definition streamBody (id : string) (range : option string) : M Response :=
  let* track := TrackStore.findById id in
  match track with
  | None => ret (jsonError 404 "TRACK_NOT_FOUND" "Track not found")
  | Some track =>
      if negb (from_option Js.truthy false (Track.filePath track)) then
        ret (jsonError 404 "FILE_NOT_FOUND" "Audio file not available")
      else
        let* filePath := resolveTrackPath songs (Track.filePath track) in
        match filePath with
        | None => ret (jsonError 404 "FILE_NOT_FOUND" "Audio file not found on server")
        | Some filePath => serveFile filePath range
        end
  end.

(** [stream.pipe(res)], once the handler has returned.  The handler sets no
    ['error'] listener on the read stream, [pipe] sets none on its source,
    and the application installs no handler for uncaught exceptions.  So
    the ['error'] event of a failing stream is raised as an exception that
    nothing catches: it is thrown here, after the [try] block of the
    handler, and stands for the end of the process with no response sent. *)
Definition pipe (response : Response) : M Response :=
  match body response with
  | StreamError code => throw (mkError "Error" (Some code))
  | _ => ret response
  end.

(** [router.get('/:id/stream', ...)]: the [catch] block answers 500 to what
    is thrown while the handler runs; the stream is read afterwards. *)
Definition getStream (id : string) (range : option string) : M Response :=
  let* response :=
    tryCatch (streamBody id range)
      (fun _ => ret (jsonError 500 "INTERNAL_ERROR" "Failed to stream track")) in
  pipe response.

End Stream.
End TracksRoute.

(** ** [models/trackStore.js]: file sizes, and the two metadata routes of
    [routes/tracks.js] *)

(** [items.map(f)] for an [f] that reads the world. *)
Fixpoint mapM {A B} (f : A → M B) (l : list A) : M (list B) :=
  match l with
  | [] => ret []
  | x :: r =>
      let* y := f x in
      let* ys := mapM f r in
      ret (y :: ys)
  end.

Module TrackFiles.

(** [{ ...track, fileSize }]. *)
Record Sized := mkSized {
  track : Track.t;
  fileSize : option Z;
}.

(** The three answers of the metadata routes; [None] in [data] is [null]. *)
Inductive Reply :=
| TrackList (data : list (option Sized)) (pagination : Pagination)
| TrackDetail (data : option Sized)
| Failure (status : Z) (code message : string).

Section TrackFiles.
Context `{Platform}.
Variable songs : string.   (* [config.paths.songs] *)

(** [track] is [None] for [null]. *)
Definition getTrackFileSize (track : option Track.t) : M (option Z) :=
  match track with
  | None => ret None
  | Some track =>
      match Track.filePath track with
      | None => ret None
      | Some relative =>
          if negb (Js.truthy relative) then ret None
          else
            tryCatch
              (let filePath := path_join songs relative in
               let* size := TracksRoute.statSync filePath in
               ret (Some size))
              (fun _ => ret None)
      end
  end.

Definition withFileSize (track : option Track.t) : M (option Sized) :=
  match track with
  | None => ret None
  | Some t =>
      let* size := getTrackFileSize (Some t) in
      ret (Some (mkSized t size))
  end.

(** [tracks.map(withFileSize)]; the elements of a stored collection are
    tracks, never [null]. *)
Definition withFileSizes (tracks : list Track.t) : M (list (option Sized)) :=
  mapM (λ track, withFileSize (Some track)) tracks.

(** [GET /tracks]; [search] and [sort] are [req.query.search] and
    [req.query.sort], [None] when absent. *)
Definition listTracks (query : Query) (search sort : option string) : M Reply :=
  tryCatch
    (let '(page, limit) := parsePaginationParams query 1 20 1000 in
     let search := default "" search in
     let sort := default "" sort in
     let* result := TrackStore.getAll page limit search sort in
     let* sized := withFileSizes (data result) in
     ret (TrackList sized (pagination result)))
    (fun _ => ret (Failure 500 "INTERNAL_ERROR" "Failed to fetch tracks")).

(** [GET /tracks/:id]. *)
Definition getTrack (id : string) : M Reply :=
  tryCatch
    (let* track := TrackStore.findById id in
     match track with
     | None => ret (Failure 404 "TRACK_NOT_FOUND" "Track not found")
     | Some track =>
         let* data := withFileSize (Some track) in
         ret (TrackDetail data)
     end)
    (fun _ => ret (Failure 500 "INTERNAL_ERROR" "Failed to fetch track")).

End TrackFiles.
End TrackFiles.

(** ** [routes/playlists.js] *)

Module PlaylistsRoute.

Inductive Reply :=
| Failure (status : Z) (code message : string)
| Listed (data : list (Playlist.t * Z)) (pagination : Pagination)
| Detail (id name : string) (trackCount : Z) (createdAt updatedAt : string)
         (tracks : list Track.t) (trackPagination : Pagination)
| Created (playlist : Playlist.t)
| Updated (playlist : Playlist.t)
| Deleted
| WithCount (playlist : Playlist.t) (trackCount : Z).

(** The status line of a reply. *)
Definition statusOf (r : Reply) : Z :=
  match r with
  | Failure status _ _ => status
  | Created _ => 201
  | _ => 200
  end.

(** [parseInt(value, 10) || fallback]: [NaN] and [0] are falsy. *)
Definition parseIntOr (value : option string) (fallback : Z) : Z :=
  match parseIntParam value with
  | Js.NaN => fallback
  | Js.Num z => if bool_decide (z = 0) then fallback else z
  end.

(** [playlist.trackIds.length]. *)
Definition trackCountOf (p : Playlist.t) : Z := Z.of_nat (length (Playlist.trackIds p)).

Section PlaylistsRoute.
Context `{Platform}.

(** [GET /playlists]. *)
Definition listPlaylists (userId : string) (query : Query) : M Reply :=
  tryCatch
    (let '(page, limit) := parsePaginationParams query 1 20 1000 in
     let* result := PlaylistStore.getByUserId userId page limit in
     let playlistsWithCount := map (λ p, (p, trackCountOf p)) (data result) in
     ret (Listed playlistsWithCount (pagination result)))
    (fun _ => ret (Failure 500 "INTERNAL_ERROR" "Failed to fetch playlists")).

(** [GET /playlists/:id]; [trackPage] and [trackLimit] are the query
    parameters of those names. *)
Definition getPlaylist (userId id : string) (trackPage trackLimit : option string)
    : M Reply :=
  tryCatch
    (let* playlist := PlaylistStore.findById id in
     match playlist with
     | None => ret (Failure 404 "PLAYLIST_NOT_FOUND" "Playlist not found")
     | Some playlist =>
         if negb (bool_decide (Playlist.userId playlist = userId)) then
           ret (Failure 403 "FORBIDDEN" "You do not have access to this playlist")
         else
           let trackPage := parseIntOr trackPage 1 in
           let trackLimit := Z.min (parseIntOr trackLimit 50) 100 in
           let* allTracks := TrackStore.findByIds (Playlist.trackIds playlist) in
           let paginatedTracks := paginate allTracks trackPage trackLimit in
           ret (Detail (Playlist.id playlist) (Playlist.name playlist)
                  (trackCountOf playlist)
                  (Playlist.createdAt playlist) (Playlist.updatedAt playlist)
                  (data paginatedTracks) (pagination paginatedTracks))
     end)
    (fun _ => ret (Failure 500 "INTERNAL_ERROR" "Failed to fetch playlist")).

(** [POST /playlists], after the validators accepted the body; [freshId] is
    what [uuidv4()] returns. *)
Definition createPlaylist (userId freshId name : string) : M Reply :=
  tryCatch
    (let* existing := PlaylistStore.findByUserIdAndName userId name in
     match existing with
     | Some _ =>
         ret (Failure 409 "DUPLICATE_PLAYLIST" "A playlist with this name already exists")
     | None =>
         let* playlist :=
           PlaylistStore.create (PlaylistStore.mkNewPlaylist freshId userId name []) in
         ret (Created playlist)
     end)
    (fun _ => ret (Failure 500 "INTERNAL_ERROR" "Failed to create playlist")).

(** [PUT /playlists/:id], after the validators accepted the body. *)
Definition updatePlaylist (userId id : string)
    (name : option string) (trackIds : option (list string)) : M Reply :=
  tryCatch
    (let* duplicate :=
       match name with
       | Some n =>
           if Js.truthy n then
             let* existing := PlaylistStore.findByUserIdAndName userId n in
             ret match existing with
                 | Some existing => negb (bool_decide (Playlist.id existing = id))
                 | None => false
                 end
           else ret false
       | None => ret false
       end in
     if duplicate then
       ret (Failure 409 "DUPLICATE_PLAYLIST" "A playlist with this name already exists")
     else
       let updates := PlaylistStore.mkUpdates name trackIds in
       let* playlist := PlaylistStore.update id userId updates in
       match playlist with
       | None => ret (Failure 404 "PLAYLIST_NOT_FOUND" "Playlist not found or access denied")
       | Some playlist => ret (Updated playlist)
       end)
    (fun _ => ret (Failure 500 "INTERNAL_ERROR" "Failed to update playlist")).


(** [POST /playlists/:id/tracks], after the validators accepted the body;
    [trackId] and [trackIds] are the two fields of the body, [None] when
    absent. *)
Definition postTracks (userId id : string)
    (trackId : option string) (trackIds : option (list string)) : M Reply :=
  tryCatch
    (let hasId := from_option Js.truthy false trackId in
     let hasIds := from_option (λ ids, negb (bool_decide (ids = []))) false trackIds in
     if negb hasId && negb hasIds then
       ret (Failure 400 "VALIDATION_ERROR" "Provide trackId or trackIds")
     else
       let finish (playlist : option Playlist.t) : M Reply :=
         match playlist with
         | None =>
             ret (Failure 404 "PLAYLIST_NOT_FOUND" "Playlist not found or access denied")
         | Some playlist => ret (WithCount playlist (trackCountOf playlist))
         end in
       if hasIds then
         let trackIds := default [] trackIds in
         let* existingTracks := TrackStore.findByIds trackIds in
         if negb (bool_decide (length existingTracks = length trackIds)) then
           ret (Failure 400 "INVALID_TRACKS" "One or more tracks not found")
         else
           let* playlist := PlaylistStore.addTracks id userId trackIds in
           finish playlist
       else
         let trackId := default "" trackId in
         let* track := TrackStore.findById trackId in
         match track with
         | None => ret (Failure 404 "TRACK_NOT_FOUND" "Track not found")
         | Some _ =>
             let* playlist := PlaylistStore.addTrack id userId trackId in
             finish playlist
         end)
    (fun _ => ret (Failure 500 "INTERNAL_ERROR" "Failed to add tracks to playlist")).


End PlaylistsRoute.
End PlaylistsRoute.

(** ** Vocabulary of the statements *)

(** The collection a store would load from the world: [None] when the load
    throws. *)
Definition stored {A} (file : JsonFile A) (w : World) : option (list A) :=
  match getFile file w with
  | Missing => Some []
  | Unreadable code => if bool_decide (code = "ENOENT") then Some [] else None
  | Present (Garbage _) => None
  | Present (JsonArray docs) => Some docs
  end.

(** The load error of a world whose file cannot be loaded. *)
Definition loadError {A} (s : FileState A) : JsError :=
  match s with
  | Unreadable code => mkError "Error" (Some code)
  | _ => mkError "SyntaxError" None
  end.

(** What a loader owes its caller on each state of the backing file. *)
Definition LoaderContract {A} (file : JsonFile A) (loader : M (list A)) : Prop :=
  ∀ w : World,
    (getFile file w = Missing → (loader w).1 = Ok [])
    ∧ (∀ code, getFile file w = Unreadable code → code ≠ "ENOENT" →
         (loader w).1 = Throw (mkError "Error" (Some code)))
    ∧ (∀ raw, getFile file w = Present (Garbage raw) →
         (loader w).1 = Throw (mkError "SyntaxError" None))
    ∧ (∀ docs, getFile file w = Present (JsonArray docs) → (loader w).1 = Ok docs)
    ∧ (∀ docs, (loader w).1 = Ok docs →
         docs = [] ∨ getFile file w = Present (JsonArray docs))
    ∧ getFile file (loader w).2 = getFile file w.

(** A playlist operation that answers [notFound] and leaves the world as it
    was, one read of [playlists.json] apart. *)
Definition NotFoundUntouched {R} (op : M R) (notFound : R) (w : World) : Prop :=
  (op w).1 = Ok notFound
  ∧ playlistsJson (op w).2 = playlistsJson w
  ∧ stored PLAYLISTS_FILE (op w).2 = stored PLAYLISTS_FILE w
  ∧ events op w = [ReadFile PLAYLISTS].

(** How many stored tracks carry the case-insensitive key of
    ([artist], [trackName]). *)
Definition keyCount `{Platform} (artist trackName : string) (tracks : list Track.t) : nat :=
  length (filter (λ t, Is_true (TrackStore.sameKey artist trackName t)) tracks).

(** Two tracks that differ at most in the case of artist and track name. *)
Definition caseVariants `{Platform} (a b : Track.t) : Prop :=
  toLowerCase (Track.artist a) = toLowerCase (Track.artist b)
  ∧ toLowerCase (Track.trackName a) = toLowerCase (Track.trackName b).

(** [p] is the playlist the ownership-checked operations act on: the first
    stored playlist with the given id and owner, found at position [i]. *)
Definition ownedAt (playlists : list Playlist.t) (id userId : string)
    (i : nat) (p : Playlist.t) : Prop :=
  playlists !! i = Some p
  ∧ Playlist.id p = id ∧ Playlist.userId p = userId
  ∧ ∀ j q, (j < i)%nat → playlists !! j = Some q →
      ¬ (Playlist.id q = id ∧ Playlist.userId q = userId).

(** The distinct elements of a list in the order of their first
    occurrence: the head is kept and its later copies are dropped. *)
Fixpoint firstOccurrences (l : list string) : list string :=
  match l with
  | [] => []
  | x :: r => x :: filter (λ y, y ≠ x) (firstOccurrences r)
  end.

(** The I/O discipline of a repository operation on its file: one load,
    then at most one save. *)
Definition OneLoadAtMostOneSave (f : DataFile) (es : list Event) : Prop :=
  es = [ReadFile f] ∨ es = [ReadFile f; WriteFile f].

(** A path that [fs.existsSync] finds. *)
Abbreviation onDisk w path := (is_Some (disk w !! path)).

(** Two worlds that differ at most in their trace: the files, the songs
    directory and the clock are the same. *)
Definition sameState (w w' : World) : Prop :=
  tracksJson w' = tracksJson w
  ∧ playlistsJson w' = playlistsJson w
  ∧ usersJson w' = usersJson w
  ∧ blocklistJson w' = blocklistJson w
  ∧ disk w' = disk w
  ∧ clock w' = clock w.

(** An event that only inspects the songs directory. *)
Definition isProbe (e : Event) : Prop :=
  match e with
  | ExistsSync _ => True
  | _ => False
  end.

(** [c] occurs in [s]. *)
Fixpoint hasChar (c : ascii) (s : string) : bool :=
  match s with
  | String a r => bool_decide (a = c) || hasChar c r
  | EmptyString => false
  end.

(** The request [GET /tracks/id/stream] reaches a file: [tracks.json] loads,
    the first track with that id has a non-empty [filePath], the resolver
    finds it at [filePath], and that entry is a regular file holding
    [bytes]. *)
Definition servesFile `{Platform} (songs id : string) (w : World)
    (filePath : string) (bytes : list Byte.byte) : Prop :=
  ∃ tracks track relative,
    stored TRACKS_FILE w = Some tracks
    ∧ Js.find (λ t, bool_decide (Track.id t = id)) tracks = Some track
    ∧ Track.filePath track = Some relative
    ∧ relative ≠ ""
    ∧ (resolveTrackPath songs (Some relative) w).1 = Ok (Some filePath)
    ∧ disk w !! filePath = Some (RegularFile bytes).

(** The headers of a full and of a partial response. *)
Definition fullHeaders (fileSize : Z) (mimeType : string) : list (string * string) :=
  [("Content-Length", Js.Z_toString fileSize);
   ("Content-Type", mimeType);
   ("Accept-Ranges", "bytes");
   ("Cache-Control", "public, max-age=86400")].

Definition partialHeaders (start stop fileSize : Z) (mimeType : string)
    : list (string * string) :=
  [("Content-Range",
     "bytes " +:+ Js.Z_toString start +:+ "-" +:+ Js.Z_toString stop
       +:+ "/" +:+ Js.Z_toString fileSize);
   ("Accept-Ranges", "bytes");
   ("Content-Length", Js.Z_toString (stop - start + 1));
   ("Content-Type", mimeType);
   ("Cache-Control", "public, max-age=86400")].

(** Every character of [s] satisfies [p]. *)
Fixpoint allChars (p : ascii → bool) (s : string) : bool :=
  match s with
  | String c r => p c && allChars p r
  | EmptyString => true
  end.

(** [s] starts with an underscore; [s] ends with one; [s] has two
    underscores in a row. *)
Definition startsUnderscore (s : string) : bool :=
  match s with
  | String c _ => bool_decide (c = "_"%char)
  | EmptyString => false
  end.

Fixpoint endsUnderscore (s : string) : bool :=
  match s with
  | String c EmptyString => bool_decide (c = "_"%char)
  | String _ r => endsUnderscore r
  | EmptyString => false
  end.

Fixpoint doubleUnderscore (s : string) : bool :=
  match s with
  | String c r => (bool_decide (c = "_"%char) && startsUnderscore r) || doubleUnderscore r
  | EmptyString => false
  end.

(** A character [sanitizeFilename] lets through. *)
Definition safeChar (c : ascii) : bool :=
  negb (bool_decide (c ∈ Sanitize.invalidChars))
  && negb (bool_decide (c = " "%char)) && negb (bool_decide (c = ";"%char)).

(** A name [sanitizeFilename] has nothing to do on. *)
Definition cleanName (s : string) : bool :=
  allChars safeChar s && negb (doubleUnderscore s)
  && negb (startsUnderscore s) && negb (endsUnderscore s).

(** The dedup key of a track, and a collection in which no two tracks
    share it. *)
Definition trackKey `{Platform} (t : Track.t) : string * string :=
  (toLowerCase (Track.artist t), toLowerCase (Track.trackName t)).

Definition uniqueKeys `{Platform} (tracks : list Track.t) : Prop :=
  NoDup (map trackKey tracks).

(** The ids of the stored tracks. *)
Definition storedIds (tracks : list Track.t) : list string := map Track.id tracks.

(** The tracks a search for [search] selects: all of them for the empty
    query. *)
Definition selected `{Platform} (search : string) (tracks : list Track.t) : list Track.t :=
  filter (λ t, search = "" ∨ Is_true (TrackStore.matchesSearch (toLowerCase search) t))
         tracks.

(** [a] was created no earlier than [b], as [Date] reads the two
    timestamps. *)
Definition notOlder `{Platform} (a b : Track.t) : Prop :=
  Js.ge (Date_getTime (Track.createdAt a)) (Date_getTime (Track.createdAt b)) = true.

(** The creation time of a track as a number, [0] when [Date] cannot read
    it; a track whose creation time [Date] can read. *)
Definition createdTime `{Platform} (t : Track.t) : Z :=
  match Date_getTime (Track.createdAt t) with
  | Js.Num z => z
  | Js.NaN => 0
  end.

Definition dated `{Platform} (t : Track.t) : Prop :=
  Js.isInteger (Date_getTime (Track.createdAt t)) = true.

(** The stored playlists that do not belong to [userId], in store order. *)
Definition othersOf (userId : string) (playlists : list Playlist.t) : list Playlist.t :=
  filter (λ q, Playlist.userId q ≠ userId) playlists.

(** A computation that leaves a loadable playlist collection in which the
    playlists of everyone but [userId] are what they were. *)
Definition KeepsOthers {R} (op : M R) (userId : string) (w : World) : Prop :=
  ∀ playlists, stored PLAYLISTS_FILE w = Some playlists →
    ∃ after, stored PLAYLISTS_FILE (op w).2 = Some after
             ∧ othersOf userId after = othersOf userId playlists.

(** An event that asks the file system a question and changes nothing. *)
Definition isQuery (e : Event) : Prop :=
  match e with
  | WriteFile _ => False
  | _ => True
  end.

(** A computation that only reads: whatever it answers, the files, the
    songs directory and the clock are what they were, and it never asked
    for a write. *)
Definition ReadOnly {A} (m : M A) : Prop :=
  ∀ w, sameState w (m w).2
       ∧ ∃ es, trace (m w).2 = trace w ++ es ∧ Forall isQuery es.


(** Every track id of the playlist is the id of a stored track. *)
Definition refersToStored (tracks : list Track.t) (p : Playlist.t) : Prop :=
  ∀ id, id ∈ Playlist.trackIds p → id ∈ storedIds tracks.

(** The key that playlist names are compared by, and a collection in which
    no owner has two playlists whose names differ at most in case. *)
Definition nameKey `{Platform} (p : Playlist.t) : string * string :=
  (Playlist.userId p, toLowerCase (Playlist.name p)).

Definition uniqueNames `{Platform} (playlists : list Playlist.t) : Prop :=
  NoDup (map nameKey playlists).

(** The tracks [findByIds] returns for [ids]. *)
Definition tracksOf (tracks : list Track.t) (ids : list string) : list Track.t :=
  omap (λ id, TrackStore.trackMap tracks !! id) ids.

(** ** Sample data *)

(** A platform for the examples: ASCII case folding, the two normal forms
    of a single accented letter, plain path concatenation, ISO timestamps. *)
Definition asciiLower (c : ascii) : ascii :=
  let n := Ascii.nat_of_ascii c in
  if bool_decide (65 ≤ n ≤ 90)%nat then Ascii.ascii_of_nat (n + 32) else c.

Fixpoint mapString (f : ascii → ascii) (s : string) : string :=
  match s with
  | String c r => String (f c) (mapString f r)
  | EmptyString => EmptyString
  end.

(** [é] precomposed (U+00E9) and decomposed (e, U+0301), in UTF-8. *)
Definition eAcuteNFC : string := String "195" (String "169" "").
Definition eAcuteNFD : string := String "e" (String "204" (String "129" "")).

Fixpoint replaceAll (from to : string) (fuel : nat) (s : string) : string :=
  match fuel with
  | O => s
  | S fuel =>
      if String.prefix from s then
        to +:+ replaceAll from to fuel
                 (String.substring (String.length from)
                    (String.length s - String.length from) s)
      else
        match s with
        | String c r => String c (replaceAll from to fuel r)
        | EmptyString => EmptyString
        end
  end.

(** [new Date(s).getTime()] on a timestamp as [toISOString] writes it,
    [YYYY-MM-DDTHH:mm:ss.sssZ]: the milliseconds since
    [1970-01-01T00:00:00.000Z].  The examples hold no other timestamps;
    any other text is read as [NaN] here. *)
Fixpoint digitsValue (s : string) (acc : Z) : option Z :=
  match s with
  | EmptyString => Some acc
  | String c r =>
      match Js.digitValue c with
      | Some d => digitsValue r (10 * acc + d)
      | None => None
      end
  end.

Definition fieldAt (s : string) (start len : nat) : option Z :=
  digitsValue (String.substring start len s) 0.

Definition charAt (s : string) (n : nat) (c : ascii) : bool :=
  bool_decide (String.get n s = Some c).

Definition leapYear (y : Z) : bool :=
  bool_decide (y mod 4 = 0) && (negb (bool_decide (y mod 100 = 0)) || bool_decide (y mod 400 = 0)).

Definition daysInMonth (y m : Z) : Z :=
  if bool_decide (m = 2) then (if leapYear y then 29 else 28)
  else if bool_decide (m ∈ [4; 6; 9; 11]) then 30
  else 31.

(** The days from 1970-01-01 to the given day of the Gregorian calendar. *)
Definition daysFromCivil (y m d : Z) : Z :=
  let y := if bool_decide (m ≤ 2) then y - 1 else y in
  let era := y / 400 in
  let yearOfEra := y - era * 400 in
  let dayOfYear := (153 * ((m + 9) mod 12) + 2) / 5 + d - 1 in
  let dayOfEra := yearOfEra * 365 + yearOfEra / 4 - yearOfEra / 100 + dayOfYear in
  era * 146097 + dayOfEra - 719468.

Definition isoTime (s : string) : Js.number :=
  if bool_decide (String.length s = 24%nat)
     && charAt s 4 "-" && charAt s 7 "-" && charAt s 10 "T"
     && charAt s 13 ":" && charAt s 16 ":" && charAt s 19 "." && charAt s 23 "Z"
  then
    match fieldAt s 0 4, fieldAt s 5 2, fieldAt s 8 2,
          fieldAt s 11 2, fieldAt s 14 2, fieldAt s 17 2, fieldAt s 20 3 with
    | Some y, Some m, Some d, Some h, Some mi, Some sec, Some ms =>
        if bool_decide (1 ≤ m ≤ 12) && bool_decide (1 ≤ d ≤ daysInMonth y m)
           && bool_decide (h ≤ 23) && bool_decide (mi ≤ 59) && bool_decide (sec ≤ 59)
        then Js.Num ((((daysFromCivil y m d * 24 + h) * 60 + mi) * 60 + sec) * 1000 + ms)
        else Js.NaN
    | _, _, _, _, _, _, _ => Js.NaN
    end
  else Js.NaN.

#[local] Instance samplePlatform : Platform := {|
  toLowerCase := mapString asciiLower;
  normalize form s :=
    match form with
    | NFC => replaceAll eAcuteNFD eAcuteNFC (S (String.length s)) s
    | NFD => replaceAll eAcuteNFC eAcuteNFD (S (String.length s)) s
    end;
  path_join dir p := dir +:+ "/" +:+ p;
  mime_lookup p := if Js.includes ".m4a" p then Some "audio/mp4" else None;
  Date_getTime := isoTime;
|}.

Definition emptyWorld : World :=
  mkWorld Missing Missing Missing Missing ∅ "2025-01-01T00:00:00.000Z" [].


Definition samplePlaylist : Playlist.t :=
  Playlist.mk "p1" "u1" "Mix" ["A"; "B"]
              "2024-01-01T00:00:00.000Z" "2024-01-01T00:00:00.000Z".

Definition playlistWorld : World :=
  setPlaylistsJson (Present (JsonArray [samplePlaylist])) emptyWorld.

Definition starlight : Track.t :=
  Track.mk "t1" "Starlight" "Muse" None None None None (Some "Muse - Starlight.m4a")
           "2024-01-01T00:00:00.000Z".

Definition starlightUpper : Track.t :=
  Track.mk "t2" "STARLIGHT" "MUSE" None None None None None
           "2024-02-01T00:00:00.000Z".

Definition hysteria : Track.t :=
  Track.mk "t3" "Hysteria" "Muse" (Some "Absolution") None None None None
           "2024-03-01T00:00:00.000Z".

Definition uprising : Track.t :=
  Track.mk "t4" "Uprising" "Muse" (Some "The Resistance") None None None None
           "2024-04-01T00:00:00.000Z".

Definition libraryWorld : World :=
  setTracksJson (Present (JsonArray [starlight; hysteria; uprising])) emptyWorld.

Definition cafeNFC : string := "caf" +:+ eAcuteNFC +:+ ".m4a".
Definition cafeNFD : string := "caf" +:+ eAcuteNFD +:+ ".m4a".

(** A songs directory that stores the decomposed name only. *)
Definition decomposedDisk : World :=
  mkWorld Missing Missing Missing Missing
          {[ "/songs/" +:+ cafeNFD := RegularFile [] ]}
          "2025-01-01T00:00:00.000Z" [].

(** A file of 1000 bytes whose byte at offset [n] is [n mod 256]. *)
Definition thousandBytes : list Byte.byte :=
  map (λ n, Ascii.byte_of_ascii (Ascii.ascii_of_nat n)) (seq 0 1000).

Definition streamWorld : World :=
  mkWorld (Present (JsonArray [starlight])) Missing Missing Missing
          {[ "/songs/Muse - Starlight.m4a" := RegularFile thousandBytes ]}
          "2025-01-01T00:00:00.000Z" [].

Definition sampleBlocklist : World :=
  setBlocklistJson
    (Present (JsonArray [BlocklistEntry.mk "old" 1000 10; BlocklistEntry.mk "live" 9000 20]))
    emptyWorld.

Definition twoOwners : World :=
  setPlaylistsJson
    (Present (JsonArray
       [Playlist.mk "p9" "u2" "Jazz" ["X"] "2023-05-05T00:00:00.000Z" "2023-05-05T00:00:00.000Z";
        samplePlaylist]))
    emptyWorld.

(** A track whose metadata names the composed form of a file that the
    songs directory stores under the decomposed form. *)
Definition cafe : Track.t :=
  Track.mk "t9" "Cafe" "Oscar" None None None None (Some cafeNFC)
           "2024-05-01T00:00:00.000Z".

Definition decomposedLibrary : World :=
  mkWorld (Present (JsonArray [cafe])) Missing Missing Missing
          {[ "/songs/" +:+ cafeNFD := RegularFile thousandBytes ]}
          "2025-01-01T00:00:00.000Z" [].

(** A library of three tracks, the first of them on disk, and the playlists
    of two users. *)
Definition mix : Playlist.t :=
  Playlist.mk "p1" "u1" "Mix" ["t1"; "t3"; "t4"]
              "2024-01-01T00:00:00.000Z" "2024-01-01T00:00:00.000Z".

Definition jukeboxPlaylists : list Playlist.t :=
  [Playlist.mk "p9" "u2" "Jazz" ["t3"]
               "2023-05-05T00:00:00.000Z" "2023-05-05T00:00:00.000Z";
   mix;
   Playlist.mk "p2" "u1" "Road Trip" []
               "2024-02-01T00:00:00.000Z" "2024-02-01T00:00:00.000Z"].

Definition jukebox : World :=
  mkWorld (Present (JsonArray [starlight; hysteria; uprising]))
          (Present (JsonArray jukeboxPlaylists))
          Missing Missing
          {[ "/songs/Muse - Starlight.m4a" := RegularFile thousandBytes ]}
          "2025-01-01T00:00:00.000Z" [].

(** A library whose one track names a folder of the songs directory. *)
Definition folderTrack : Track.t :=
  Track.mk "t7" "Live Set" "Muse" None None None None (Some "live")
           "2024-06-01T00:00:00.000Z".

Definition folderWorld : World :=
  mkWorld (Present (JsonArray [folderTrack])) Missing Missing Missing
          {[ "/songs/live" := Directory 4096 ]}
          "2025-01-01T00:00:00.000Z" [].

(** * Properties *)

(** ** Running computations *)

Lemma trace_record e w : trace (record e w) = trace w ++ [e].
Proof. reflexivity. Qed.

Lemma events_of_trace {A} (m : M A) w es :
  trace (m w).2 = trace w ++ es → events m w = es.
Proof. intros E. unfold events. rewrite E. apply drop_app_length. Qed.

Lemma loadAll_run {A} (file : JsonFile A) w :
  loadAll file w =
    (match stored file w with
     | Some docs => Ok docs
     | None => Throw (loadError (getFile file w))
     end,
     record (ReadFile (fileId file)) w).
Proof.
  unfold loadAll, tryCatch, bind, readFileSync, stored.
  destruct (getFile file w) as [|code|[raw|docs]]; cbn; try reflexivity.
  unfold ret, throw. rewrite (bool_decide_ext (Some code = Some "ENOENT") (code = "ENOENT")).
  - destruct (bool_decide (code = "ENOENT")); reflexivity.
  - split; congruence.
Qed.

Lemma loadAll_contract {A} (file : JsonFile A)
    (frame : ∀ e w, getFile file (record e w) = getFile file w) :
  LoaderContract file (loadAll file).
Proof.
  intros w. rewrite loadAll_run. unfold stored. cbn [fst snd].
  rewrite frame.
  destruct (getFile file w) as [|code|[raw|docs]]; cbn.
  - repeat split; try congruence. intros docs [= <-]. by left.
  - case_bool_decide as E.
    + repeat split; try congruence. intros docs [= <-]. by left.
    + repeat split; try congruence.
  - repeat split; congruence.
  - repeat split; try congruence. intros d [= <-]. by right.
Qed.

(** ** Document stores: loading *)

(** C9. Each of the four loaders ([getAllTracks], [getAllPlaylists],
    [getAllUsers], [getBlocklist]) returns the empty collection when its
    backing file is missing, rethrows every other read failure and every
    parse failure, returns data only when the file holds that data, and
    leaves the file as it was. *)
Theorem document_loaders_contract :
  LoaderContract TRACKS_FILE TrackStore.getAllTracks
  ∧ LoaderContract PLAYLISTS_FILE PlaylistStore.getAllPlaylists
  ∧ LoaderContract USERS_FILE UserStore.getAllUsers
  ∧ LoaderContract BLOCKLIST_FILE TokenBlocklist.getBlocklist.
Proof.
  split; [|split; [|split]]; apply loadAll_contract; reflexivity.
Qed.

Lemma document_loaders_contract_witness :
  (TrackStore.getAllTracks emptyWorld).1 = Ok []
  ∧ (TokenBlocklist.getBlocklist
       (setBlocklistJson (Unreadable "EACCES") emptyWorld)).1
    = Throw (mkError "Error" (Some "EACCES"))
  ∧ (PlaylistStore.getAllPlaylists
       (setPlaylistsJson (Present (Garbage "[{")) emptyWorld)).1
    = Throw (mkError "SyntaxError" None).
Proof.
  destruct document_loaders_contract as (Ht & Hp & _ & Hb).
  destruct (Ht emptyWorld) as (Hmissing & _).
  destruct (Hb (setBlocklistJson (Unreadable "EACCES") emptyWorld))
    as (_ & Hunreadable & _).
  destruct (Hp (setPlaylistsJson (Present (Garbage "[{")) emptyWorld))
    as (_ & _ & Hcorrupt & _).
  split; [|split].
  - apply Hmissing. reflexivity.
  - apply Hunreadable; [reflexivity | discriminate].
  - apply (Hcorrupt "[{"). reflexivity.
Defined.

(** ** Playlist store: ownership *)

Lemma findIndex_None {A} (f : A → bool) (l : list A) :
  (∀ x, x ∈ l → f x = false) → Js.findIndex f l = None.
Proof.
  induction l as [|x l IH]; intros Hall; [reflexivity|].
  cbn. rewrite (Hall x) by apply list_elem_of_here.
  rewrite IH; [reflexivity|].
  intros y Hy. apply Hall. by apply list_elem_of_further.
Qed.

Lemma findIndex_Some {A} (f : A → bool) (l : list A) i :
  Js.findIndex f l = Some i →
  ∃ x, l !! i = Some x ∧ f x = true ∧ ∀ j y, (j < i)%nat → l !! j = Some y → f y = false.
Proof.
  revert i. induction l as [|x l IH]; intros i; [discriminate|].
  cbn. destruct (f x) eqn:Hx.
  - intros [= <-]. exists x. repeat split; auto. intros j y Hj. lia.
  - destruct (Js.findIndex f l) as [k|]; [|discriminate].
    intros [= <-]. destruct (IH k eq_refl) as (y & Hy & Hfy & Hbefore).
    exists y. repeat split; auto.
    intros [|j] z Hj Hz; cbn in Hz.
    + congruence.
    + apply (Hbefore j); [lia|done].
Qed.

Lemma not_owned_anywhere (playlists : list Playlist.t) id userId :
  (∀ p, p ∈ playlists → ¬ (Playlist.id p = id ∧ Playlist.userId p = userId)) →
  Js.findIndex (PlaylistStore.owned id userId) playlists = None.
Proof.
  intros Hnone. apply findIndex_None. intros p Hp.
  unfold PlaylistStore.owned.
  destruct (bool_decide_reflect (Playlist.id p = id)); [|reflexivity].
  destruct (bool_decide_reflect (Playlist.userId p = userId)); [|reflexivity].
  exfalso. by apply (Hnone p Hp).
Qed.

Lemma not_found_untouched_run {R} (op : M R) (notFound : R) w :
  op w = (Ok notFound, record (ReadFile PLAYLISTS) w) →
  NotFoundUntouched op notFound w.
Proof.
  intros E. unfold NotFoundUntouched. rewrite (events_of_trace op w [ReadFile PLAYLISTS]).
  - rewrite E. repeat split.
  - rewrite E. reflexivity.
Qed.

(** C2. When no stored playlist has both the given id and the given owner,
    [update], [remove], [addTrack], [addTracks] and [removeTrack] answer
    not-found ([null], [false] for [remove]); they read [playlists.json]
    once and never write it, so the persisted collection is unchanged. *)
Theorem playlist_mutations_check_ownership w playlists id userId :
  stored PLAYLISTS_FILE w = Some playlists →
  (∀ p, p ∈ playlists → ¬ (Playlist.id p = id ∧ Playlist.userId p = userId)) →
  (∀ updates, NotFoundUntouched (PlaylistStore.update id userId updates) None w)
  ∧ NotFoundUntouched (PlaylistStore.remove id userId) false w
  ∧ (∀ trackId, NotFoundUntouched (PlaylistStore.addTrack id userId trackId) None w)
  ∧ (∀ trackIds, NotFoundUntouched (PlaylistStore.addTracks id userId trackIds) None w)
  ∧ (∀ trackId, NotFoundUntouched (PlaylistStore.removeTrack id userId trackId) None w).
Proof.
  intros Hstored Hnone. apply not_owned_anywhere in Hnone.
  split; [|split; [|split; [|split]]]; intros; apply not_found_untouched_run;
    unfold PlaylistStore.update, PlaylistStore.remove, PlaylistStore.addTrack,
      PlaylistStore.addTracks, PlaylistStore.removeTrack,
      PlaylistStore.getAllPlaylists, bind;
    rewrite loadAll_run, Hstored, Hnone; reflexivity.
Qed.

Lemma playlist_mutations_check_ownership_witness :
  stored PLAYLISTS_FILE playlistWorld = Some [samplePlaylist]
  ∧ NotFoundUntouched (PlaylistStore.remove "p1" "u2") false playlistWorld
  ∧ NotFoundUntouched (PlaylistStore.addTrack "p1" "u2" "C") None playlistWorld.
Proof.
  assert (Hstored : stored PLAYLISTS_FILE playlistWorld = Some [samplePlaylist])
    by reflexivity.
  destruct (playlist_mutations_check_ownership playlistWorld [samplePlaylist] "p1" "u2")
    as (_ & Hremove & Hadd & _).
  - exact Hstored.
  - intros p Hp [_ Howner]. apply list_elem_of_singleton in Hp. subst p. discriminate.
  - split; [exact Hstored|]. split; [exact Hremove | exact (Hadd "C")].
Defined.

(** ** Track store: ingestion *)

Lemma find_None {A} (f : A → bool) (l : list A) :
  Js.find f l = None ↔ ∀ x, x ∈ l → f x = false.
Proof.
  induction l as [|x l IH]; cbn.
  - split; [|done]. intros _ y Hy. by apply not_elem_of_nil in Hy.
  - destruct (f x) eqn:Hx.
    + split; [discriminate|]. intros Hall.
      rewrite (Hall x) in Hx by apply list_elem_of_here. discriminate.
    + rewrite IH. split.
      * intros Hall y Hy. apply elem_of_cons in Hy as [->|Hy]; auto.
      * intros Hall y Hy. apply Hall. by apply list_elem_of_further.
Qed.

Lemma find_Some {A} (f : A → bool) (l : list A) x :
  Js.find f l = Some x → x ∈ l ∧ f x = true.
Proof.
  induction l as [|y l IH]; cbn; [discriminate|].
  destruct (f y) eqn:Hy.
  - intros [= <-]. split; [apply list_elem_of_here | done].
  - intros Hx. destruct (IH Hx). split; [by apply list_elem_of_further | done].
Qed.

Lemma find_app_r {A} (f : A → bool) (l k : list A) :
  Js.find f l = None → Js.find f (l ++ k) = Js.find f k.
Proof.
  induction l as [|y l IH]; cbn; [done|].
  destruct (f y); [discriminate | exact IH].
Qed.

Lemma filter_none {A} (f : A → bool) (l : list A) :
  Js.find f l = None → filter (λ x, Is_true (f x)) l = [].
Proof.
  induction l as [|y l IH]; [done|].
  intros Hnone. cbn in Hnone. destruct (f y) eqn:Hy; [discriminate|].
  rewrite filter_cons_False; [auto | cbn; rewrite Hy; exact id].
Qed.

Lemma filter_found {A} (f : A → bool) (l : list A) x :
  Js.find f l = Some x → (1 ≤ length (filter (λ x, Is_true (f x)) l))%nat.
Proof.
  induction l as [|y l IH]; [discriminate|].
  intros Hx. cbn in Hx. destruct (f y) eqn:Hy.
  - rewrite filter_cons_True by (cbn; rewrite Hy; exact I). cbn. lia.
  - rewrite filter_cons_False by (cbn; rewrite Hy; exact id). auto.
Qed.

Section TrackIngestion.
Context `{Platform}.

Lemma sameKey_variant (a b : Track.t) :
  caseVariants a b →
  TrackStore.sameKey (Track.artist a) (Track.trackName a)
  = TrackStore.sameKey (Track.artist b) (Track.trackName b).
Proof.
  intros [Ha Hn]. unfold TrackStore.sameKey. by rewrite Ha, Hn.
Qed.

Lemma sameKey_self (a : Track.t) :
  TrackStore.sameKey (Track.artist a) (Track.trackName a) a = true.
Proof.
  unfold TrackStore.sameKey. by rewrite !bool_decide_eq_true_2.
Qed.

Lemma trackStore_addTrack_run w tracks track :
  stored TRACKS_FILE w = Some tracks →
  TrackStore.addTrack track w =
    match Js.find (TrackStore.sameKey (Track.artist track) (Track.trackName track)) tracks with
    | Some existing => (Ok existing, record (ReadFile TRACKS) w)
    | None =>
        (Ok track,
         setTracksJson (Present (JsonArray (tracks ++ [track])))
           (record (WriteFile TRACKS)
              (record (ReadFile TRACKS) (record (ReadFile TRACKS) w))))
    end.
Proof.
  intros Hstored.
  unfold TrackStore.addTrack, TrackStore.findByArtistAndName,
    TrackStore.getAllTracks, bind at 1 2.
  rewrite loadAll_run, Hstored. cbn [ret].
  destruct (Js.find _ tracks) as [existing|]; [reflexivity|].
  unfold bind. rewrite loadAll_run.
  change (stored TRACKS_FILE (record (ReadFile (fileId TRACKS_FILE)) w))
    with (stored TRACKS_FILE w).
  rewrite Hstored. reflexivity.
Qed.

(** C3. [addTrack] is idempotent on the case-insensitive
    (artist, trackName) key.  If a stored track has the key of the
    argument, the first such track is returned and [tracks.json] is not
    written; otherwise the argument is appended, persisted and returned.
    On a store holding the key at most once, two calls with case variants
    of one key leave exactly one track with that key, and the second call
    returns what the first returned. *)
Theorem track_ingestion_idempotent w tracks track :
  stored TRACKS_FILE w = Some tracks →
  let key := TrackStore.sameKey (Track.artist track) (Track.trackName track) in
  let first := TrackStore.addTrack track w in
  ((∃ t, t ∈ tracks ∧ key t = true) →
     ∃ existing, first.1 = Ok existing
       ∧ existing ∈ tracks ∧ key existing = true
       ∧ Js.find key tracks = Some existing
       ∧ tracksJson first.2 = tracksJson w
       ∧ writes TRACKS (events (TrackStore.addTrack track) w) = 0%nat)
  ∧ ((∀ t, t ∈ tracks → key t = false) →
       first.1 = Ok track
       ∧ stored TRACKS_FILE first.2 = Some (tracks ++ [track])
       ∧ writes TRACKS (events (TrackStore.addTrack track) w) = 1%nat)
  ∧ (∀ variant,
       caseVariants variant track →
       (keyCount (Track.artist track) (Track.trackName track) tracks ≤ 1)%nat →
       let second := TrackStore.addTrack variant first.2 in
       second.1 = first.1
       ∧ ∃ final, stored TRACKS_FILE second.2 = Some final
           ∧ keyCount (Track.artist track) (Track.trackName track) final = 1%nat).
Proof.
  intros Hstored key first. subst first.
  rewrite (trackStore_addTrack_run w tracks track Hstored). fold key.
  split; [|split].
  - intros (t & Ht & Hkey).
    destruct (Js.find key tracks) as [existing|] eqn:Hfind.
    + exists existing. destruct (find_Some _ _ _ Hfind) as [Hin Hk].
      repeat split; auto.
      rewrite (events_of_trace _ w [ReadFile TRACKS]); [reflexivity|].
      rewrite (trackStore_addTrack_run w tracks track Hstored). fold key. by rewrite Hfind.
    + rewrite find_None in Hfind. rewrite (Hfind t Ht) in Hkey. discriminate.
  - intros Hnone. apply find_None in Hnone. rewrite Hnone.
    repeat split.
    rewrite (events_of_trace _ w [ReadFile TRACKS; ReadFile TRACKS; WriteFile TRACKS]);
      [reflexivity|].
    rewrite (trackStore_addTrack_run w tracks track Hstored). fold key. rewrite Hnone.
    cbn. by rewrite <- !app_assoc.
  - intros variant Hvariant Hcount.
    destruct (Js.find key tracks) as [existing|] eqn:Hfind; cbn [fst snd].
    + rewrite (trackStore_addTrack_run _ tracks variant) by exact Hstored.
      rewrite (sameKey_variant variant track Hvariant). fold key. rewrite Hfind.
      split; [reflexivity|]. exists tracks. split; [exact Hstored|].
      apply filter_found in Hfind. unfold keyCount in *. fold key in Hcount |- *. lia.
    + rewrite (trackStore_addTrack_run _ (tracks ++ [track]) variant) by reflexivity.
      rewrite (sameKey_variant variant track Hvariant). fold key.
      assert (Hself : key track = true) by apply sameKey_self.
      rewrite (find_app_r key tracks [track] Hfind). cbn. rewrite Hself.
      split; [reflexivity|]. exists (tracks ++ [track]). split; [reflexivity|].
      unfold keyCount. fold key. rewrite filter_app, (filter_none key tracks Hfind).
      rewrite app_nil_l, filter_cons_True; [reflexivity|].
      cbn. rewrite Hself. exact I.
Qed.

End TrackIngestion.

Lemma track_ingestion_idempotent_witness :
  stored TRACKS_FILE emptyWorld = Some []
  ∧ caseVariants starlightUpper starlight
  ∧ (TrackStore.addTrack starlightUpper (TrackStore.addTrack starlight emptyWorld).2).1
    = Ok starlight
  ∧ ∃ final,
      stored TRACKS_FILE
        (TrackStore.addTrack starlightUpper (TrackStore.addTrack starlight emptyWorld).2).2
      = Some final
      ∧ keyCount "Muse" "Starlight" final = 1%nat.
Proof.
  assert (Hvariant : caseVariants starlightUpper starlight) by (split; reflexivity).
  destruct (track_ingestion_idempotent emptyWorld [] starlight eq_refl)
    as (_ & Hnew & Htwice).
  destruct (Htwice starlightUpper Hvariant) as [Hsame Hfinal].
  - cbn. lia.
  - split; [reflexivity|]. split; [exact Hvariant|]. split; [|exact Hfinal].
    rewrite Hsame. apply Hnew. intros t Ht. by apply not_elem_of_nil in Ht.
Defined.

(** ** Playlist store: adding tracks *)

Lemma findIndex_first {A} (f : A → bool) (l : list A) i x :
  l !! i = Some x → f x = true →
  (∀ j y, (j < i)%nat → l !! j = Some y → f y = false) →
  Js.findIndex f l = Some i.
Proof.
  revert i. induction l as [|y l IH]; intros i Hi Hx Hbefore; [discriminate|].
  destruct i as [|i]; cbn in *.
  - injection Hi as ->. by rewrite Hx.
  - rewrite (Hbefore 0%nat y) by (lia || done).
    rewrite (IH i Hi Hx); [reflexivity|].
    intros j z Hj Hz. apply (Hbefore (S j)); [lia | done].
Qed.

Lemma ownedAt_findIndex playlists id userId i p :
  ownedAt playlists id userId i p →
  Js.findIndex (PlaylistStore.owned id userId) playlists = Some i.
Proof.
  intros (Hi & Hid & Huser & Hfirst).
  apply (findIndex_first _ _ i p Hi).
  - unfold PlaylistStore.owned. by rewrite !bool_decide_eq_true_2.
  - intros j q Hj Hq. unfold PlaylistStore.owned.
    destruct (bool_decide_reflect (Playlist.id q = id)); [|reflexivity].
    destruct (bool_decide_reflect (Playlist.userId q = userId)); [|reflexivity].
    exfalso. by apply (Hfirst j q Hj Hq).
Qed.

Lemma firstOccurrences_filter (P : string → Prop) `{!∀ x, Decision (P x)} l :
  firstOccurrences (filter P l) = filter P (firstOccurrences l).
Proof.
  induction l as [|y l IH]; [reflexivity|].
  destruct (decide (P y)) as [Hy|Hy].
  - rewrite filter_cons_True by done. cbn [firstOccurrences].
    rewrite filter_cons_True by done. f_equal.
    rewrite IH, !list_filter_filter. apply list_filter_iff. tauto.
  - rewrite filter_cons_False by done. cbn [firstOccurrences].
    rewrite filter_cons_False by done.
    rewrite IH, list_filter_filter. apply list_filter_iff.
    intros x. split; [|tauto]. intros Hx. split; [done|]. by intros ->.
Qed.

Lemma elem_of_firstOccurrences l x : x ∈ firstOccurrences l ↔ x ∈ l.
Proof.
  induction l as [|y l IH]; [reflexivity|].
  cbn [firstOccurrences]. rewrite !elem_of_cons, list_elem_of_filter, IH.
  destruct (decide (x = y)); tauto.
Qed.

Lemma NoDup_firstOccurrences l : NoDup (firstOccurrences l).
Proof.
  induction l as [|y l IH]; cbn [firstOccurrences]; [constructor|].
  apply NoDup_cons. split.
  - rewrite list_elem_of_filter. tauto.
  - by apply NoDup_filter.
Qed.

(** The loop of [addTracks], in closed form. *)
Lemma fold_pushIfAbsent ids old :
  fold_left PlaylistStore.pushIfAbsent ids old
  = old ++ firstOccurrences (filter (λ x, x ∉ old) ids).
Proof.
  revert old. induction ids as [|x ids IH]; intros old.
  - cbn. by rewrite app_nil_r.
  - cbn [fold_left]. unfold PlaylistStore.pushIfAbsent at 2, Js.arrayIncludes.
    destruct (bool_decide_reflect (x ∈ old)) as [Hx|Hx]; cbn [negb].
    + rewrite filter_cons_False by tauto. apply IH.
    + rewrite filter_cons_True by done. cbn [firstOccurrences].
      rewrite IH, <- app_assoc. cbn [app]. do 2 f_equal.
      rewrite <- firstOccurrences_filter, list_filter_filter.
      f_equal. apply list_filter_iff. intros y.
      rewrite elem_of_app, list_elem_of_singleton. tauto.
Qed.

Lemma playlist_addTracks_run w playlists id userId i p ids :
  stored PLAYLISTS_FILE w = Some playlists →
  ownedAt playlists id userId i p →
  let p' :=
    PlaylistStore.setUpdatedAt (clock w)
      (PlaylistStore.setTrackIds
         (fold_left PlaylistStore.pushIfAbsent ids (Playlist.trackIds p)) p) in
  PlaylistStore.addTracks id userId ids w =
    (Ok (Some p'),
     setPlaylistsJson (Present (JsonArray (<[i := p']> playlists)))
       (record (WriteFile PLAYLISTS) (record (ReadFile PLAYLISTS) w))).
Proof.
  intros Hstored Howned. pose proof (ownedAt_findIndex _ _ _ _ _ Howned) as Hindex.
  destruct Howned as (Hi & _).
  unfold PlaylistStore.addTracks, PlaylistStore.getAllPlaylists, bind at 1.
  rewrite loadAll_run, Hstored, Hindex.
  unfold bind, PlaylistStore.at_index. rewrite Hi. reflexivity.
Qed.

Lemma playlist_addTrack_run w playlists id userId i p trackId :
  stored PLAYLISTS_FILE w = Some playlists →
  ownedAt playlists id userId i p →
  PlaylistStore.addTrack id userId trackId w =
    if bool_decide (trackId ∈ Playlist.trackIds p) then
      (Ok (Some p), record (ReadFile PLAYLISTS) w)
    else
      let p' :=
        PlaylistStore.setUpdatedAt (clock w)
          (PlaylistStore.setTrackIds (Playlist.trackIds p ++ [trackId]) p) in
      (Ok (Some p'),
       setPlaylistsJson (Present (JsonArray (<[i := p']> playlists)))
         (record (WriteFile PLAYLISTS) (record (ReadFile PLAYLISTS) w))).
Proof.
  intros Hstored Howned. pose proof (ownedAt_findIndex _ _ _ _ _ Howned) as Hindex.
  destruct Howned as (Hi & _).
  unfold PlaylistStore.addTrack, PlaylistStore.getAllPlaylists, bind at 1.
  rewrite loadAll_run, Hstored, Hindex.
  unfold bind, PlaylistStore.at_index, Js.arrayIncludes. rewrite Hi. cbn [ret].
  destruct (bool_decide (trackId ∈ Playlist.trackIds p)); reflexivity.
Qed.

(** C4. On an owned playlist [addTracks] is a set union with append order:
    the track ids become the old ids, in their old order, followed by the
    ids of the argument that were not present, each once, in the order of
    their first occurrence.  The appended ids are distinct and new, so a
    playlist without duplicates stays without duplicates; every other stored
    playlist and every other field of this one is kept. *)
Theorem addTracks_is_ordered_union w playlists id userId i p ids :
  stored PLAYLISTS_FILE w = Some playlists →
  ownedAt playlists id userId i p →
  let old := Playlist.trackIds p in
  let added := firstOccurrences (filter (λ x, x ∉ old) ids) in
  let run := PlaylistStore.addTracks id userId ids w in
  ∃ p',
    run.1 = Ok (Some p')
    ∧ stored PLAYLISTS_FILE run.2 = Some (<[i := p']> playlists)
    ∧ Playlist.trackIds p' = old ++ added
    ∧ (∀ x, x ∈ added ↔ x ∈ ids ∧ x ∉ old)
    ∧ NoDup added
    ∧ (NoDup old → NoDup (Playlist.trackIds p'))
    ∧ Playlist.id p' = Playlist.id p
    ∧ Playlist.userId p' = Playlist.userId p
    ∧ Playlist.name p' = Playlist.name p
    ∧ Playlist.createdAt p' = Playlist.createdAt p.
Proof.
  intros Hstored Howned old added run. subst run.
  rewrite (playlist_addTracks_run w playlists id userId i p ids Hstored Howned).
  eexists. split; [reflexivity|]. split; [reflexivity|].
  cbn [PlaylistStore.setUpdatedAt PlaylistStore.setTrackIds Playlist.trackIds
       Playlist.id Playlist.userId Playlist.name Playlist.createdAt].
  assert (Hmem : ∀ x, x ∈ added ↔ x ∈ ids ∧ x ∉ old).
  { intros x. unfold added. rewrite elem_of_firstOccurrences, list_elem_of_filter. tauto. }
  assert (Hnodup : NoDup added) by apply NoDup_firstOccurrences.
  split; [apply fold_pushIfAbsent|]. split; [exact Hmem|]. split; [exact Hnodup|].
  split; [|done].
  intros Hold. rewrite fold_pushIfAbsent. apply NoDup_app. split; [done|]. split; [|done].
  intros x Hx Hadded. apply Hmem in Hadded. tauto.
Qed.

Lemma addTracks_is_ordered_union_witness :
  stored PLAYLISTS_FILE playlistWorld = Some [samplePlaylist]
  ∧ ownedAt [samplePlaylist] "p1" "u1" 0 samplePlaylist
  ∧ ∃ p', (PlaylistStore.addTracks "p1" "u1" ["B"; "C"; "A"; "D"] playlistWorld).1
          = Ok (Some p')
      ∧ Playlist.trackIds p' = ["A"; "B"; "C"; "D"].
Proof.
  assert (Howned : ownedAt [samplePlaylist] "p1" "u1" 0 samplePlaylist).
  { repeat split. intros j q Hj. lia. }
  split; [reflexivity|]. split; [exact Howned|].
  destruct (addTracks_is_ordered_union playlistWorld [samplePlaylist] "p1" "u1" 0
              samplePlaylist ["B"; "C"; "A"; "D"] eq_refl Howned)
    as (p' & Hrun & _ & Hids & _).
  exists p'. split; [exact Hrun|]. rewrite Hids. reflexivity.
Defined.

Lemma fold_pushIfAbsent_present ids old :
  (∀ x, x ∈ ids → x ∈ old) → fold_left PlaylistStore.pushIfAbsent ids old = old.
Proof.
  intros Hall. rewrite fold_pushIfAbsent.
  replace (filter (λ x, x ∉ old) ids) with (@nil string); [apply app_nil_r|].
  symmetry. induction ids as [|x ids IH]; [reflexivity|].
  rewrite filter_cons_False.
  - apply IH. intros y Hy. apply Hall. by apply list_elem_of_further.
  - intros Hx. apply Hx, Hall, list_elem_of_here.
Qed.

Lemma setTrackIds_same p : PlaylistStore.setTrackIds (Playlist.trackIds p) p = p.
Proof. by destruct p. Qed.

(** C6. [addTracks] stamps and saves even when nothing is appended: on an
    owned playlist that already holds every id of the argument, the stored
    playlist gets [updatedAt] set to the current time and [playlists.json]
    is written.  The single-id [addTrack] in the same situation returns the
    playlist as stored and writes nothing. *)
Theorem addTracks_stamps_without_change w playlists id userId i p ids :
  stored PLAYLISTS_FILE w = Some playlists →
  ownedAt playlists id userId i p →
  (∀ x, x ∈ ids → x ∈ Playlist.trackIds p) →
  let stamped := PlaylistStore.setUpdatedAt (clock w) p in
  (PlaylistStore.addTracks id userId ids w).1 = Ok (Some stamped)
  ∧ stored PLAYLISTS_FILE (PlaylistStore.addTracks id userId ids w).2
    = Some (<[i := stamped]> playlists)
  ∧ events (PlaylistStore.addTracks id userId ids) w
    = [ReadFile PLAYLISTS; WriteFile PLAYLISTS]
  ∧ ∀ x, x ∈ Playlist.trackIds p →
      (PlaylistStore.addTrack id userId x w).1 = Ok (Some p)
      ∧ playlistsJson (PlaylistStore.addTrack id userId x w).2 = playlistsJson w
      ∧ events (PlaylistStore.addTrack id userId x) w = [ReadFile PLAYLISTS].
Proof.
  intros Hstored Howned Hpresent stamped.
  pose proof (playlist_addTracks_run w playlists id userId i p ids Hstored Howned) as Hrun.
  cbn zeta in Hrun. rewrite (fold_pushIfAbsent_present ids _ Hpresent) in Hrun.
  rewrite setTrackIds_same in Hrun. fold stamped in Hrun.
  split; [by rewrite Hrun|]. split; [by rewrite Hrun|]. split.
  - apply events_of_trace. rewrite Hrun. cbn. by rewrite <- app_assoc.
  - intros x Hx.
    pose proof (playlist_addTrack_run w playlists id userId i p x Hstored Howned) as Hone.
    rewrite bool_decide_eq_true_2 in Hone by done.
    split; [by rewrite Hone|]. split; [by rewrite Hone|].
    apply events_of_trace. by rewrite Hone.
Qed.

Lemma addTracks_stamps_without_change_witness :
  Playlist.updatedAt samplePlaylist = "2024-01-01T00:00:00.000Z"
  ∧ stored PLAYLISTS_FILE (PlaylistStore.addTracks "p1" "u1" ["A"] playlistWorld).2
    = Some [PlaylistStore.setUpdatedAt "2025-01-01T00:00:00.000Z" samplePlaylist]
  ∧ events (PlaylistStore.addTracks "p1" "u1" ["A"]) playlistWorld
    = [ReadFile PLAYLISTS; WriteFile PLAYLISTS].
Proof.
  assert (Howned : ownedAt [samplePlaylist] "p1" "u1" 0 samplePlaylist).
  { repeat split. intros j q Hj. lia. }
  destruct (addTracks_stamps_without_change playlistWorld [samplePlaylist] "p1" "u1" 0
              samplePlaylist ["A"] eq_refl Howned)
    as (_ & Hstoredafter & Hevents & _).
  - intros x Hx. apply list_elem_of_singleton in Hx. subst x. apply list_elem_of_here.
  - split; [reflexivity|]. split; [exact Hstoredafter | exact Hevents].
Defined.

(** ** Repository operations: loads and saves *)

Lemma one_load {A} (m : M A) (f : DataFile) w :
  trace (m w).2 = trace w ++ [ReadFile f] →
  OneLoadAtMostOneSave f (events m w).
Proof. intros E. left. by apply events_of_trace. Qed.

Lemma one_load_one_save {A} (m : M A) (f : DataFile) w :
  trace (m w).2 = (trace w ++ [ReadFile f]) ++ [WriteFile f] →
  OneLoadAtMostOneSave f (events m w).
Proof. intros E. right. apply events_of_trace. by rewrite E, <- app_assoc. Qed.

(** Runs an operation up to its load and splits on whether the load
    succeeds. *)
Ltac run_load :=
  unfold bind at 1; rewrite loadAll_run;
  match goal with
  | |- context [stored ?file ?w] => destruct (stored file w) as [?docs|]
  end.

Section Discipline.
Context `{Platform}.
Variable w : World.

Lemma findById_io id : OneLoadAtMostOneSave TRACKS (events (TrackStore.findById id) w).
Proof.
  apply one_load. unfold TrackStore.findById, TrackStore.getAllTracks.
  run_load; reflexivity.
Qed.

Lemma findByIds_io ids : OneLoadAtMostOneSave TRACKS (events (TrackStore.findByIds ids) w).
Proof.
  apply one_load. unfold TrackStore.findByIds, TrackStore.getAllTracks.
  run_load; reflexivity.
Qed.

Lemma findByArtistAndName_io artist name :
  OneLoadAtMostOneSave TRACKS (events (TrackStore.findByArtistAndName artist name) w).
Proof.
  apply one_load. unfold TrackStore.findByArtistAndName, TrackStore.getAllTracks.
  run_load; reflexivity.
Qed.

Lemma getAll_io pageNo perPage search sort :
  OneLoadAtMostOneSave TRACKS (events (TrackStore.getAll pageNo perPage search sort) w).
Proof.
  apply one_load. unfold TrackStore.getAll, TrackStore.getAllTracks.
  run_load; reflexivity.
Qed.

Lemma track_addTracks_io newTracks :
  OneLoadAtMostOneSave TRACKS (events (TrackStore.addTracks newTracks) w).
Proof.
  unfold TrackStore.addTracks, TrackStore.getAllTracks.
  destruct (stored TRACKS_FILE w) as [docs|] eqn:Hstored.
  - apply one_load_one_save. unfold bind at 1. rewrite loadAll_run, Hstored.
    destruct (fold_left _ newTracks (docs, [])) as [tracks results]. reflexivity.
  - apply one_load. unfold bind at 1. by rewrite loadAll_run, Hstored.
Qed.

Lemma track_addTrack_io track :
  let es := events (TrackStore.addTrack track) w in
  es = [ReadFile TRACKS] ∨ es = [ReadFile TRACKS; ReadFile TRACKS; WriteFile TRACKS].
Proof.
  destruct (stored TRACKS_FILE w) as [tracks|] eqn:Hstored; cbn zeta.
  - rewrite (events_of_trace _ w
               (match Js.find (TrackStore.sameKey (Track.artist track)
                                 (Track.trackName track)) tracks with
                | Some _ => [ReadFile TRACKS]
                | None => [ReadFile TRACKS; ReadFile TRACKS; WriteFile TRACKS]
                end)).
    + destruct (Js.find _ tracks); auto.
    + rewrite (trackStore_addTrack_run w tracks track Hstored).
      destruct (Js.find _ tracks); cbn; [reflexivity|]. by rewrite <- !app_assoc.
  - left. apply events_of_trace.
    unfold TrackStore.addTrack, TrackStore.findByArtistAndName,
      TrackStore.getAllTracks, bind.
    by rewrite loadAll_run, Hstored.
Qed.

Lemma getByUserId_io userId pageNo perPage :
  OneLoadAtMostOneSave PLAYLISTS
    (events (PlaylistStore.getByUserId userId pageNo perPage) w).
Proof.
  apply one_load. unfold PlaylistStore.getByUserId, PlaylistStore.getAllPlaylists.
  run_load; reflexivity.
Qed.

Lemma playlist_findById_io id :
  OneLoadAtMostOneSave PLAYLISTS (events (PlaylistStore.findById id) w).
Proof.
  apply one_load. unfold PlaylistStore.findById, PlaylistStore.getAllPlaylists.
  run_load; reflexivity.
Qed.

Lemma findByUserIdAndName_io userId name :
  OneLoadAtMostOneSave PLAYLISTS
    (events (PlaylistStore.findByUserIdAndName userId name) w).
Proof.
  apply one_load. unfold PlaylistStore.findByUserIdAndName, PlaylistStore.getAllPlaylists.
  run_load; reflexivity.
Qed.

Lemma create_io playlist :
  OneLoadAtMostOneSave PLAYLISTS (events (PlaylistStore.create playlist) w).
Proof.
  unfold PlaylistStore.create, PlaylistStore.getAllPlaylists.
  destruct (stored PLAYLISTS_FILE w) as [docs|] eqn:Hstored.
  - apply one_load_one_save. unfold bind at 1. by rewrite loadAll_run, Hstored.
  - apply one_load. unfold bind at 1. by rewrite loadAll_run, Hstored.
Qed.

(** The shape shared by the ownership-checked operations: after the load,
    either nothing is found, or the playlist at the found index is
    processed. *)
Lemma owned_io {R} (op : M R) id userId
    (notFound : M R) (found : list Playlist.t → nat → M R) :
  op = (let* playlists := PlaylistStore.getAllPlaylists in
        match Js.findIndex (PlaylistStore.owned id userId) playlists with
        | None => notFound
        | Some index => found playlists index
        end) →
  (∀ v, trace (notFound v).2 = trace v) →
  (∀ playlists index p v,
      playlists !! index = Some p →
      trace (found playlists index v).2 = trace v
      ∨ trace (found playlists index v).2 = trace v ++ [WriteFile PLAYLISTS]) →
  OneLoadAtMostOneSave PLAYLISTS (events op w).
Proof.
  intros -> Hnone Hfound. unfold PlaylistStore.getAllPlaylists.
  destruct (stored PLAYLISTS_FILE w) as [docs|] eqn:Hstored.
  - destruct (Js.findIndex (PlaylistStore.owned id userId) docs) as [index|] eqn:Hindex.
    + destruct (findIndex_Some _ _ _ Hindex) as (p & Hp & _).
      destruct (Hfound docs index p (record (ReadFile PLAYLISTS) w) Hp) as [E|E].
      * apply one_load. unfold bind at 1. rewrite loadAll_run, Hstored.
        cbn beta iota delta [fileId PLAYLISTS_FILE]. by rewrite Hindex, E.
      * apply one_load_one_save. unfold bind at 1. rewrite loadAll_run, Hstored.
        cbn beta iota delta [fileId PLAYLISTS_FILE]. by rewrite Hindex, E.
    + apply one_load. unfold bind at 1. rewrite loadAll_run, Hstored.
      cbn beta iota delta [fileId PLAYLISTS_FILE]. by rewrite Hindex, Hnone.
  - apply one_load. unfold bind at 1. by rewrite loadAll_run, Hstored.
Qed.

Lemma update_io id userId updates :
  OneLoadAtMostOneSave PLAYLISTS (events (PlaylistStore.update id userId updates) w).
Proof.
  eapply owned_io; [reflexivity | reflexivity |].
  intros playlists index p v Hp. right.
  unfold bind, PlaylistStore.at_index. by rewrite Hp.
Qed.

Lemma remove_io id userId :
  OneLoadAtMostOneSave PLAYLISTS (events (PlaylistStore.remove id userId) w).
Proof.
  eapply owned_io; [reflexivity | reflexivity |].
  intros playlists index p v Hp. by right.
Qed.

Lemma playlist_addTrack_io id userId trackId :
  OneLoadAtMostOneSave PLAYLISTS (events (PlaylistStore.addTrack id userId trackId) w).
Proof.
  eapply owned_io; [reflexivity | reflexivity |].
  intros playlists index p v Hp.
  unfold bind, PlaylistStore.at_index. rewrite Hp. cbn [ret].
  destruct (negb _); [by right | by left].
Qed.

Lemma playlist_addTracks_io id userId trackIds :
  OneLoadAtMostOneSave PLAYLISTS (events (PlaylistStore.addTracks id userId trackIds) w).
Proof.
  eapply owned_io; [reflexivity | reflexivity |].
  intros playlists index p v Hp. right.
  unfold bind, PlaylistStore.at_index. by rewrite Hp.
Qed.

Lemma removeTrack_io id userId trackId :
  OneLoadAtMostOneSave PLAYLISTS (events (PlaylistStore.removeTrack id userId trackId) w).
Proof.
  eapply owned_io; [reflexivity | reflexivity |].
  intros playlists index p v Hp. right.
  unfold bind, PlaylistStore.at_index. by rewrite Hp.
Qed.

End Discipline.

(** C8, as the code has it. Every repository operation loads its document
    once and then saves it at most once, with the exception of the track
    store's [addTrack]: it loads once and saves nothing when the key is
    already stored or the load fails, and it loads twice (once inside
    [findByArtistAndName], once before appending) and then saves once when
    the key is new. *)
Theorem repository_io_discipline `{Platform} (w : World) :
  (∀ id, OneLoadAtMostOneSave TRACKS (events (TrackStore.findById id) w))
  ∧ (∀ ids, OneLoadAtMostOneSave TRACKS (events (TrackStore.findByIds ids) w))
  ∧ (∀ artist name,
       OneLoadAtMostOneSave TRACKS (events (TrackStore.findByArtistAndName artist name) w))
  ∧ (∀ pageNo perPage search sort,
       OneLoadAtMostOneSave TRACKS (events (TrackStore.getAll pageNo perPage search sort) w))
  ∧ (∀ newTracks, OneLoadAtMostOneSave TRACKS (events (TrackStore.addTracks newTracks) w))
  ∧ (∀ track,
       let es := events (TrackStore.addTrack track) w in
       let key := TrackStore.sameKey (Track.artist track) (Track.trackName track) in
       (es = [ReadFile TRACKS]
        ∨ es = [ReadFile TRACKS; ReadFile TRACKS; WriteFile TRACKS])
       ∧ (∀ tracks, stored TRACKS_FILE w = Some tracks →
            (∀ t, t ∈ tracks → key t = false) →
            es = [ReadFile TRACKS; ReadFile TRACKS; WriteFile TRACKS])
       ∧ (∀ tracks, stored TRACKS_FILE w = Some tracks →
            (∃ t, t ∈ tracks ∧ key t = true) →
            es = [ReadFile TRACKS])
       ∧ (stored TRACKS_FILE w = None → es = [ReadFile TRACKS]))
  ∧ (∀ id, OneLoadAtMostOneSave PLAYLISTS (events (PlaylistStore.findById id) w))
  ∧ (∀ userId pageNo perPage,
       OneLoadAtMostOneSave PLAYLISTS
         (events (PlaylistStore.getByUserId userId pageNo perPage) w))
  ∧ (∀ userId name,
       OneLoadAtMostOneSave PLAYLISTS
         (events (PlaylistStore.findByUserIdAndName userId name) w))
  ∧ (∀ playlist, OneLoadAtMostOneSave PLAYLISTS (events (PlaylistStore.create playlist) w))
  ∧ (∀ id userId updates,
       OneLoadAtMostOneSave PLAYLISTS (events (PlaylistStore.update id userId updates) w))
  ∧ (∀ id userId, OneLoadAtMostOneSave PLAYLISTS (events (PlaylistStore.remove id userId) w))
  ∧ (∀ id userId trackId,
       OneLoadAtMostOneSave PLAYLISTS (events (PlaylistStore.addTrack id userId trackId) w))
  ∧ (∀ id userId trackIds,
       OneLoadAtMostOneSave PLAYLISTS (events (PlaylistStore.addTracks id userId trackIds) w))
  ∧ (∀ id userId trackId,
       OneLoadAtMostOneSave PLAYLISTS
         (events (PlaylistStore.removeTrack id userId trackId) w)).
Proof.
  split; [intros; apply findById_io|].
  split; [intros; apply findByIds_io|].
  split; [intros; apply findByArtistAndName_io|].
  split; [intros; apply getAll_io|].
  split; [intros; apply track_addTracks_io|].
  split.
  { intros track es key. split; [apply track_addTrack_io|]. split; [|split].
    - intros tracks Hstored Hnone. apply find_None in Hnone.
      apply events_of_trace. rewrite (trackStore_addTrack_run w tracks track Hstored).
      fold key. rewrite Hnone. cbn. by rewrite <- !app_assoc.
    - intros tracks Hstored (t & Ht & Hkey).
      apply events_of_trace. rewrite (trackStore_addTrack_run w tracks track Hstored).
      fold key. destruct (Js.find key tracks) eqn:Hfind; [reflexivity|].
      rewrite find_None in Hfind. rewrite (Hfind t Ht) in Hkey. discriminate.
    - intros Hfails. apply events_of_trace.
      unfold TrackStore.addTrack, TrackStore.findByArtistAndName,
        TrackStore.getAllTracks, bind.
      by rewrite loadAll_run, Hfails. }
  split; [intros; apply playlist_findById_io|].
  split; [intros; apply getByUserId_io|].
  split; [intros; apply findByUserIdAndName_io|].
  split; [intros; apply create_io|].
  split; [intros; apply update_io|].
  split; [intros; apply remove_io|].
  split; [intros; apply playlist_addTrack_io|].
  split; [intros; apply playlist_addTracks_io|].
  intros; apply removeTrack_io.
Qed.

Lemma repository_io_discipline_witness :
  stored TRACKS_FILE libraryWorld = Some [starlight; hysteria; uprising]
  ∧ events (TrackStore.addTrack starlightUpper) libraryWorld = [ReadFile TRACKS]
  ∧ events (TrackStore.addTrack starlight)
      (setTracksJson (Present (Garbage "[{")) emptyWorld) = [ReadFile TRACKS]
  ∧ events (TrackStore.addTrack starlight)
      (setTracksJson (Unreadable "EACCES") emptyWorld) = [ReadFile TRACKS]
  ∧ OneLoadAtMostOneSave PLAYLISTS
      (events (PlaylistStore.addTracks "p1" "u1" ["C"]) playlistWorld).
Proof.
  destruct (repository_io_discipline libraryWorld)
    as (_ & _ & _ & _ & _ & Hadd & _).
  destruct (Hadd starlightUpper) as (_ & _ & Hdup & _).
  destruct (repository_io_discipline (setTracksJson (Present (Garbage "[{")) emptyWorld))
    as (_ & _ & _ & _ & _ & Hcorrupt & _).
  destruct (Hcorrupt starlight) as (_ & _ & _ & Hgarbage).
  destruct (repository_io_discipline (setTracksJson (Unreadable "EACCES") emptyWorld))
    as (_ & _ & _ & _ & _ & Hdenied & _).
  destruct (Hdenied starlight) as (_ & _ & _ & Hunreadable).
  destruct (repository_io_discipline playlistWorld)
    as (_ & _ & _ & _ & _ & _ & _ & _ & _ & _ & _ & _ & _ & Hplaylist & _).
  split; [reflexivity|]. split; [|split; [|split]].
  - apply (Hdup [starlight; hysteria; uprising] eq_refl).
    exists starlight. split; [apply list_elem_of_here | reflexivity].
  - apply Hgarbage. reflexivity.
  - apply Hunreadable. reflexivity.
  - apply Hplaylist.
Defined.

(** C8, as stated, fails: adding a track with a new key to an empty store
    reads [tracks.json] twice before the save. *)
Lemma track_add_loads_twice :
  events (TrackStore.addTrack starlight) emptyWorld
  = [ReadFile TRACKS; ReadFile TRACKS; WriteFile TRACKS]
  ∧ reads TRACKS (events (TrackStore.addTrack starlight) emptyWorld) = 2%nat
  ∧ ¬ OneLoadAtMostOneSave TRACKS (events (TrackStore.addTrack starlight) emptyWorld).
Proof.
  assert (E : events (TrackStore.addTrack starlight) emptyWorld
              = [ReadFile TRACKS; ReadFile TRACKS; WriteFile TRACKS]) by reflexivity.
  split; [exact E|]. split; [by rewrite E|].
  rewrite E. intros [Hone|Htwo]; discriminate.
Qed.

(** ** Listings: pagination *)

Lemma ceilDiv_covers a b : 0 < b → a ≤ Js.ceilDiv a b * b.
Proof.
  intros Hb. unfold Js.ceilDiv.
  pose proof (Z.div_mod (- a) b ltac:(lia)) as Hdiv.
  pose proof (Z.mod_pos_bound (- a) b Hb) as Hmod. nia.
Qed.

Lemma ceilDiv_nonneg a b : 0 ≤ a → 0 < b → 0 ≤ Js.ceilDiv a b.
Proof.
  intros Ha Hb. unfold Js.ceilDiv.
  assert ((- a) / b ≤ 0); [|lia].
  apply Z.div_le_upper_bound; lia.
Qed.

Lemma slice_beyond {A} (l : list A) start stop :
  Z.of_nat (length l) ≤ start → Js.slice l start stop = [].
Proof.
  intros Hstart. unfold Js.slice.
  set (len := Z.of_nat (length l)) in *.
  assert (Hk : Js.relativeIndex len start = len).
  { unfold Js.relativeIndex. rewrite bool_decide_eq_false_2; lia. }
  assert (Hfinal : Js.relativeIndex len stop ≤ len).
  { unfold Js.relativeIndex. case_bool_decide; lia. }
  rewrite Hk. replace (Z.to_nat (Js.relativeIndex len stop - len)) with 0%nat by lia.
  apply take_0.
Qed.

Lemma listing_beyond_last_page {A} (items : list A) pageNo perPage :
  0 < perPage →
  Js.ceilDiv (Z.of_nat (length items)) perPage < pageNo →
  Js.slice items ((pageNo - 1) * perPage) ((pageNo - 1) * perPage + perPage) = [].
Proof.
  intros Hlimit Hbeyond. apply slice_beyond.
  pose proof (ceilDiv_covers (Z.of_nat (length items)) perPage Hlimit). nia.
Qed.

(** C5. The listings of the stores do not clamp: for a positive limit, a
    page number beyond [totalPages] is answered by [getAll] and by
    [getByUserId] with an empty page that carries the requested number.
    [paginate], on the same arguments, answers with a page in
    [1, totalPages], the last one when the request lies beyond it. *)
Theorem store_listings_do_not_clamp `{Platform} (w : World) (pageNo perPage : Z) :
  0 < perPage →
  (∀ search sort r w',
      TrackStore.getAll pageNo perPage search sort w = (Ok r, w') →
      totalPages (pagination r) < pageNo →
      data r = [] ∧ page (pagination r) = pageNo)
  ∧ (∀ userId r w',
      PlaylistStore.getByUserId userId pageNo perPage w = (Ok r, w') →
      totalPages (pagination r) < pageNo →
      data r = [] ∧ page (pagination r) = pageNo)
  ∧ (∀ (A : Type) (items : list A),
      let r := paginate items pageNo perPage in
      1 ≤ page (pagination r) ≤ totalPages (pagination r)
      ∧ (totalPages (pagination r) < pageNo →
         page (pagination r) = totalPages (pagination r))).
Proof.
  intros Hlimit. split; [|split].
  - intros search sort r w'.
    unfold TrackStore.getAll, TrackStore.getAllTracks, bind. rewrite loadAll_run.
    destruct (stored TRACKS_FILE w) as [tracks|]; [|discriminate].
    intros [= <- <-]. cbn [pagination totalPages data page]. intros Hbeyond.
    split; [|reflexivity]. by apply listing_beyond_last_page.
  - intros userId r w'.
    unfold PlaylistStore.getByUserId, PlaylistStore.getAllPlaylists, bind.
    rewrite loadAll_run.
    destruct (stored PLAYLISTS_FILE w) as [playlists|]; [|discriminate].
    intros [= <- <-]. cbn [pagination totalPages data page]. intros Hbeyond.
    split; [|reflexivity]. by apply listing_beyond_last_page.
  - intros A items r. subst r. unfold paginate, orOne.
    cbn [pagination totalPages page].
    pose proof (ceilDiv_nonneg (Z.of_nat (length items)) perPage ltac:(lia) Hlimit).
    case_bool_decide; lia.
Qed.

Lemma store_listings_do_not_clamp_witness :
  (TrackStore.getAll 5 2 "" "" libraryWorld).1
  = Ok (mkPaginated [] (mkPagination 5 2 3 2 false true))
  ∧ data (paginate [starlight; hysteria; uprising] 5 2) = [uprising]
  ∧ page (pagination (paginate [starlight; hysteria; uprising] 5 2)) = 2.
Proof.
  destruct (store_listings_do_not_clamp libraryWorld 5 2 ltac:(lia))
    as (Hstore & _ & Hpaginate).
  assert (Hrun : TrackStore.getAll 5 2 "" "" libraryWorld
                 = (Ok (mkPaginated [] (mkPagination 5 2 3 2 false true)),
                    record (ReadFile TRACKS) libraryWorld)) by reflexivity.
  destruct (Hstore "" "" _ _ Hrun) as [Hdata Hpage]; [vm_compute; reflexivity|].
  destruct (Hpaginate _ [starlight; hysteria; uprising]) as [_ Hlast].
  split; [reflexivity|]. split; [reflexivity|].
  apply Hlast. vm_compute. reflexivity.
Defined.

(** ** Path resolution *)

Lemma sameState_refl w : sameState w w.
Proof. by repeat split. Qed.

Lemma sameState_record e w w' : sameState w w' → sameState w (record e w').
Proof. intros H. exact H. Qed.

Lemma resolveTrackPath_run `{Platform} w songsDir path :
  path ≠ "" →
  let original := path_join songsDir path in
  let nfc := path_join songsDir (normalize NFC path) in
  let nfd := path_join songsDir (normalize NFD path) in
  resolveTrackPath songsDir (Some path) w =
    if decide (onDisk w original) then
      (Ok (Some original), record (ExistsSync original) w)
    else if decide (onDisk w nfc) then
      (Ok (Some nfc), record (ExistsSync nfc) (record (ExistsSync original) w))
    else
      (if decide (onDisk w nfd) then Ok (Some nfd) else Ok None,
       record (ExistsSync nfd)
         (record (ExistsSync nfc) (record (ExistsSync original) w))).
Proof.
  intros Hne original nfc nfd.
  unfold resolveTrackPath, Js.truthy.
  rewrite (bool_decide_eq_false_2 (path = "")) by done. cbn [negb].
  unfold bind, existsSync, ret. cbn [disk record].
  fold original nfc nfd. unfold bool_decide, decide.
  destruct (is_Some_dec (disk w !! original)); [reflexivity|].
  cbn beta iota delta [disk record].
  destruct (is_Some_dec (disk w !! nfc)); [reflexivity|].
  cbn beta iota delta [disk record].
  destruct (is_Some_dec (disk w !! nfd)); reflexivity.
Qed.

Lemma resolveTrackPath_falsy `{Platform} w songsDir filePath :
  filePath = None ∨ filePath = Some "" →
  resolveTrackPath songsDir filePath w = (Ok None, w).
Proof. by intros [-> | ->]. Qed.

(** C7. [resolveTrackPath] returns the first candidate found on disk among
    the path as given, its NFC form and its NFD form, and [null] when none is
    found or the path is empty or [null]; it only probes the file system.
    So a file stored under the composed or the decomposed form of the path
    is resolved, and resolution fails cleanly when neither exists. *)
Theorem resolveTrackPath_first_existing `{Platform} w songsDir (filePath : option string) :
  let run := resolveTrackPath songsDir filePath w in
  sameState w run.2
  ∧ Forall isProbe (events (resolveTrackPath songsDir filePath) w)
  ∧ (filePath = None ∨ filePath = Some "" → run.1 = Ok None)
  ∧ ∀ path, filePath = Some path → path ≠ "" →
      let original := path_join songsDir path in
      let nfc := path_join songsDir (normalize NFC path) in
      let nfd := path_join songsDir (normalize NFD path) in
      (onDisk w original → run.1 = Ok (Some original))
      ∧ (¬ onDisk w original → onDisk w nfc → run.1 = Ok (Some nfc))
      ∧ (¬ onDisk w original → ¬ onDisk w nfc → onDisk w nfd → run.1 = Ok (Some nfd))
      ∧ (¬ onDisk w original → ¬ onDisk w nfc → ¬ onDisk w nfd → run.1 = Ok None)
      ∧ (onDisk w nfc ∨ onDisk w nfd →
           ∃ found, run.1 = Ok (Some found) ∧ onDisk w found).
Proof.
  intros run.
  assert (Hfalsy : filePath = None ∨ filePath = Some "" →
                   sameState w run.2
                   ∧ Forall isProbe (events (resolveTrackPath songsDir filePath) w)).
  { intros Hf. subst run. split.
    - rewrite (resolveTrackPath_falsy _ _ _ Hf). apply sameState_refl.
    - rewrite (events_of_trace _ w []); [constructor|].
      rewrite (resolveTrackPath_falsy _ _ _ Hf). cbn. by rewrite app_nil_r. }
  assert (Htruthy : ∀ path, filePath = Some path → path ≠ "" →
                    sameState w run.2
                    ∧ Forall isProbe (events (resolveTrackPath songsDir filePath) w)).
  { intros path -> Hne. subst run.
    pose proof (resolveTrackPath_run w songsDir path Hne) as Hrun. cbn zeta in Hrun.
    split.
    - rewrite Hrun.
      repeat case_decide; cbn [snd]; repeat apply sameState_record; apply sameState_refl.
    - destruct (decide (onDisk w (path_join songsDir path)));
        [|destruct (decide (onDisk w (path_join songsDir (normalize NFC path))))].
      + rewrite (events_of_trace _ w [ExistsSync (path_join songsDir path)]);
          [by repeat constructor | by rewrite Hrun].
      + rewrite (events_of_trace _ w
                   [ExistsSync (path_join songsDir path);
                    ExistsSync (path_join songsDir (normalize NFC path))]);
          [by repeat constructor | rewrite Hrun; cbn; by rewrite <- app_assoc].
      + rewrite (events_of_trace _ w
                   [ExistsSync (path_join songsDir path);
                    ExistsSync (path_join songsDir (normalize NFC path));
                    ExistsSync (path_join songsDir (normalize NFD path))]);
          [by repeat constructor | rewrite Hrun; cbn; by rewrite <- !app_assoc]. }
  assert (Hstate : sameState w run.2
                   ∧ Forall isProbe (events (resolveTrackPath songsDir filePath) w)).
  { destruct filePath as [path|]; [|apply Hfalsy; by left].
    destruct (decide (path = "")) as [->|Hne]; [apply Hfalsy; by right|].
    by apply (Htruthy path). }
  destruct Hstate as [Hsame Hprobes].
  split; [exact Hsame|]. split; [exact Hprobes|]. split.
  { intros Hf. subst run. by rewrite (resolveTrackPath_falsy _ _ _ Hf). }
  intros path -> Hne original nfc nfd. subst run.
  pose proof (resolveTrackPath_run w songsDir path Hne) as Hrun. cbn zeta in Hrun.
  fold original nfc nfd in Hrun. rewrite Hrun. clear Hrun Hfalsy Htruthy Hsame Hprobes.
  destruct (decide (onDisk w original)) as [H1|H1];
    [|destruct (decide (onDisk w nfc)) as [H2|H2];
      [|destruct (decide (onDisk w nfd)) as [H3|H3]]]; cbn [fst].
  - split; [done|]. split; [tauto|]. split; [tauto|]. split; [tauto|]. eauto.
  - split; [tauto|]. split; [done|]. split; [tauto|]. split; [tauto|]. eauto.
  - split; [tauto|]. split; [tauto|]. split; [done|]. split; [tauto|]. eauto.
  - split; [tauto|]. split; [tauto|]. split; [tauto|]. split; [done|]. tauto.
Qed.

Lemma resolveTrackPath_first_existing_witness :
  ¬ onDisk decomposedDisk ("/songs" +:+ "/" +:+ cafeNFC)
  ∧ onDisk decomposedDisk ("/songs" +:+ "/" +:+ cafeNFD)
  ∧ (resolveTrackPath "/songs" (Some cafeNFC) decomposedDisk).1
    = Ok (Some ("/songs/" +:+ cafeNFD))
  ∧ (resolveTrackPath "/songs" (Some cafeNFC) emptyWorld).1 = Ok None.
Proof.
  destruct (resolveTrackPath_first_existing decomposedDisk "/songs" (Some cafeNFC))
    as (_ & _ & _ & Hfound).
  destruct (Hfound cafeNFC eq_refl ltac:(discriminate)) as (_ & _ & Hnfd & _).
  destruct (resolveTrackPath_first_existing emptyWorld "/songs" (Some cafeNFC))
    as (_ & _ & _ & Hmissing).
  destruct (Hmissing cafeNFC eq_refl ltac:(discriminate)) as (_ & _ & _ & Hnone & _).
  assert (Hno : ∀ p, ¬ onDisk emptyWorld p).
  { intros p [node Hnode]. cbn in Hnode. by rewrite lookup_empty in Hnode. }
  assert (H1 : ¬ onDisk decomposedDisk ("/songs" +:+ "/" +:+ cafeNFC)).
  { intros [node Hnode]. vm_compute in Hnode. discriminate. }
  assert (H3 : onDisk decomposedDisk ("/songs" +:+ "/" +:+ cafeNFD)).
  { exists (RegularFile []). by vm_compute. }
  split; [exact H1|]. split; [exact H3|]. split.
  - apply Hnfd; [exact H1 | exact H1 | exact H3].
  - apply Hnone; apply Hno.
Defined.

(** ** Streaming: reading the [Range] header *)

Lemma split_no_sep sep s p : p ∈ Js.split sep s → hasChar sep p = false.
Proof.
  revert p. induction s as [|c r IH]; intros p; cbn [Js.split].
  - intros Hp. apply list_elem_of_singleton in Hp. by subst p.
  - destruct (bool_decide_reflect (c = sep)) as [->|Hc].
    + intros Hp. apply elem_of_cons in Hp as [->|Hp]; [reflexivity | by apply IH].
    + destruct (Js.split sep r) as [|h t] eqn:Hsplit.
      * intros Hp. apply list_elem_of_singleton in Hp. subst p. cbn.
        by rewrite bool_decide_eq_false_2.
      * intros Hp. apply elem_of_cons in Hp as [->|Hp].
        -- cbn. rewrite bool_decide_eq_false_2 by done. cbn.
           apply IH, list_elem_of_here.
        -- by apply IH, list_elem_of_further.
Qed.

Lemma trimStart_no_char c s : hasChar c s = false → hasChar c (Js.trimStart s) = false.
Proof.
  induction s as [|a r IH]; [done|].
  cbn [Js.trimStart]. destruct (Js.isWhiteSpace a); [|done].
  cbn [hasChar]. intros Hs. apply orb_false_iff in Hs as [_ Hr]. by apply IH.
Qed.

Lemma digitValue_bounds c d : Js.digitValue c = Some d → 0 ≤ d ≤ 9.
Proof.
  unfold Js.digitValue. case_bool_decide; [|discriminate]. intros [= <-]. lia.
Qed.

Lemma leadingDigits_bounds s : Forall (λ d, 0 ≤ d ≤ 9) (Js.leadingDigits s).
Proof.
  induction s as [|c r IH]; cbn; [constructor|].
  destruct (Js.digitValue c) as [d|] eqn:Hd; [|constructor].
  constructor; [by apply (digitValue_bounds c) | exact IH].
Qed.

Lemma digits_fold_nonneg ds acc :
  Forall (λ d, 0 ≤ d ≤ 9) ds → 0 ≤ acc →
  0 ≤ fold_left (λ acc d, 10 * acc + d) ds acc.
Proof.
  intros Hds. revert acc.
  induction Hds as [|d ds Hd _ IH]; intros acc Hacc; cbn; [exact Hacc|].
  apply IH. lia.
Qed.

Lemma parseInt_unsigned s z :
  hasChar "-" s = false → Js.parseInt s = Js.Num z → 0 ≤ z.
Proof.
  intros Hs. apply trimStart_no_char in Hs. unfold Js.parseInt.
  destruct (Js.trimStart s) as [|c r] eqn:Ht; [discriminate|].
  assert (Hsign : (match String c r with
                   | String "-" r' => (-1, r')
                   | String "+" r' => (1, r')
                   | _ => (1, String c r)
                   end).1 = 1).
  { cbn [hasChar] in Hs. apply orb_false_iff in Hs as [Hc _].
    apply bool_decide_eq_false in Hc.
    destruct c as [[] [] [] [] [] [] [] []]; try reflexivity. by destruct Hc. }
  destruct (match String c r with
            | String "-" r' => (-1, r')
            | String "+" r' => (1, r')
            | _ => (1, String c r)
            end) as [sign body]. cbn in Hsign. subst sign.
  pose proof (leadingDigits_bounds body) as Hds.
  destruct (Js.leadingDigits body) as [|d ds]; [discriminate|].
  intros [= <-]. pose proof (digits_fold_nonneg (d :: ds) 0 Hds ltac:(lia)).
  unfold Js.digitsValue. lia.
Qed.

Lemma parseRange_start_unsigned range fileSize start stop :
  TracksRoute.parseRange range fileSize = (Js.Num start, stop) → 0 ≤ start.
Proof.
  unfold TracksRoute.parseRange, parseIntParam. intros [= Hstart _].
  destruct (Js.split "-" (Js.removeFirst "bytes=" range) !! 0%nat) as [p|] eqn:Hp.
  - apply (parseInt_unsigned p); [|exact Hstart].
    apply (split_no_sep _ (Js.removeFirst "bytes=" range)).
    apply list_elem_of_lookup. eauto.
  - discriminate.
Qed.

Lemma parseRange_truthy range fileSize start stop :
  TracksRoute.parseRange range fileSize = (Js.Num start, stop) → Js.truthy range = true.
Proof.
  destruct range; [discriminate | reflexivity].
Qed.

(** ** Streaming: the response *)

Lemma span_length bytes first last :
  0 ≤ first → first ≤ last → last < Z.of_nat (length bytes) →
  Z.of_nat (length (TracksRoute.span bytes (Some (first, last)))) = last - first + 1.
Proof.
  intros H0 Hle Hlt. cbn [TracksRoute.span].
  rewrite length_take, length_drop. lia.
Qed.

Lemma span_lookup bytes first last k :
  0 ≤ first → 0 ≤ k < last - first + 1 →
  TracksRoute.span bytes (Some (first, last)) !! Z.to_nat k
  = bytes !! Z.to_nat (first + k).
Proof.
  intros H0 Hk. cbn [TracksRoute.span].
  rewrite lookup_take_lt by lia. rewrite lookup_drop. f_equal. lia.
Qed.

Section StreamProperties.
Context `{Platform}.
Variable songs : string.

Lemma resolveTrackPath_same_disk relative v w :
  disk v = disk w →
  (resolveTrackPath songs (Some relative) v).1
  = (resolveTrackPath songs (Some relative) w).1
  ∧ disk (resolveTrackPath songs (Some relative) v).2 = disk w.
Proof.
  intros Hdisk. destruct (decide (relative = "")) as [->|Hne]; [done|].
  rewrite !resolveTrackPath_run by done. rewrite Hdisk.
  repeat case_decide; done.
Qed.

(** The handler, once the file is resolved, hands over to [serveFile] in a
    world with the same songs directory. *)
Lemma streamBody_serves id range w filePath bytes :
  servesFile songs id w filePath bytes →
  ∃ v, disk v = disk w
       ∧ TracksRoute.streamBody songs id range w = TracksRoute.serveFile filePath range v.
Proof.
  intros (tracks & track & relative & Hstored & Hfind & Hpath & Hne & Hresolve & _).
  unfold TracksRoute.streamBody, TrackStore.findById, TrackStore.getAllTracks.
  unfold bind at 1 2. rewrite loadAll_run, Hstored. cbn [ret]. rewrite Hfind, Hpath.
  cbn [from_option]. unfold Js.truthy at 1.
  rewrite (bool_decide_eq_false_2 (relative = "")) by done. cbn [negb].
  destruct (resolveTrackPath_same_disk relative (record (ReadFile (fileId TRACKS_FILE)) w) w
              eq_refl) as [Hsame Hdisk].
  rewrite Hresolve in Hsame.
  unfold bind.
  destruct (resolveTrackPath songs (Some relative) (record (ReadFile (fileId TRACKS_FILE)) w))
    as [outcome v]. cbn [fst snd] in *. subst outcome.
  exists v. split; [exact Hdisk | reflexivity].
Qed.

Lemma serveFile_full filePath bytes v :
  disk v !! filePath = Some (RegularFile bytes) →
  (TracksRoute.serveFile filePath None v).1
  = Ok (TracksRoute.mkResponse 200
          (fullHeaders (Z.of_nat (length bytes)) (TracksRoute.mimeTypeOf filePath))
          (TracksRoute.Stream bytes)).
Proof.
  intros Hfile.
  unfold TracksRoute.serveFile, bind, TracksRoute.statSync,
    TracksRoute.createReadStream, TracksRoute.openStream.
  rewrite Hfile. cbn [disk record]. rewrite Hfile. reflexivity.
Qed.

(** What [serveFile] answers to a non-empty [Range] header, for whatever
    the header parses to. *)
Lemma serveFile_range filePath bytes v range :
  disk v !! filePath = Some (RegularFile bytes) →
  Js.truthy range = true →
  let fileSize := Z.of_nat (length bytes) in
  (TracksRoute.serveFile filePath (Some range) v).1 =
    match TracksRoute.parseRange range fileSize with
    | (start, stop) =>
        if TracksRoute.rangeRejected start stop fileSize then
          Ok (TracksRoute.jsonError 416 "RANGE_NOT_SATISFIABLE"
                "Requested range not satisfiable")
        else
          match start, stop with
          | Js.Num first, Js.Num last =>
              if bool_decide (0 ≤ first) && bool_decide (0 ≤ last)
                 && bool_decide (first ≤ last)
              then
                Ok (TracksRoute.mkResponse 206
                      (partialHeaders first last fileSize
                         (TracksRoute.mimeTypeOf filePath))
                      (TracksRoute.Stream (TracksRoute.span bytes (Some (first, last)))))
              else Throw TracksRoute.outOfRange
          | _, _ => Throw TracksRoute.outOfRange
          end
    end.
Proof.
  intros Hfile Htruthy fileSize.
  unfold TracksRoute.serveFile, bind at 1, TracksRoute.statSync.
  rewrite Hfile, Htruthy. fold fileSize.
  destruct (TracksRoute.parseRange range fileSize) as [start stop].
  destruct (TracksRoute.rangeRejected start stop fileSize); [reflexivity|].
  unfold bind, TracksRoute.createReadStream.
  destruct start as [|first], stop as [|last]; try reflexivity.
  unfold TracksRoute.validOffset, Js.isInteger, Js.ge, Js.gt. cbn [andb].
  destruct (bool_decide_reflect (0 ≤ first)); [|reflexivity].
  destruct (bool_decide_reflect (0 ≤ last)); [|reflexivity].
  cbn [andb].
  destruct (bool_decide_reflect (last < first)) as [Hlt|Hge].
  - rewrite bool_decide_eq_false_2 by lia. reflexivity.
  - rewrite bool_decide_eq_true_2 by lia. cbn [negb andb].
    unfold TracksRoute.openStream. cbn [disk record]. rewrite Hfile.
    reflexivity.
Qed.

Lemma getStream_of_body id range w :
  (TracksRoute.getStream songs id range w).1 =
    match (TracksRoute.streamBody songs id range w).1 with
    | Ok response =>
        match TracksRoute.body response with
        | TracksRoute.StreamError code => Throw (mkError "Error" (Some code))
        | _ => Ok response
        end
    | Throw _ =>
        Ok (TracksRoute.jsonError 500 "INTERNAL_ERROR" "Failed to stream track")
    end.
Proof.
  unfold TracksRoute.getStream, bind, tryCatch, TracksRoute.pipe.
  destruct (TracksRoute.streamBody songs id range w) as [[answer|e] v]; [|done].
  cbn [fst]. by destruct (TracksRoute.body answer).
Qed.

End StreamProperties.

(** C1. For a request that reaches a file of [fileSize] bytes: without a
    [Range] header the answer is 200 with [Content-Length] [fileSize] and the
    whole file; with a header that parses to the integers [start] and [end]
    the answer is 416 exactly when [start >= fileSize], [end >= fileSize] or
    [start > end], and otherwise 206 with [Content-Range]
    [bytes start-end/fileSize], [Content-Length] [end - start + 1] and a body
    that is byte for byte the part of the file from [start] to [end].  When
    the header names no end, [end] is [fileSize - 1]. *)
Theorem stream_range_semantics `{Platform} songs id w filePath bytes :
  servesFile songs id w filePath bytes →
  let fileSize := Z.of_nat (length bytes) in
  let mimeType := TracksRoute.mimeTypeOf filePath in
  (TracksRoute.getStream songs id None w).1
  = Ok (TracksRoute.mkResponse 200 (fullHeaders fileSize mimeType)
          (TracksRoute.Stream bytes))
  ∧ (∀ range first last,
      TracksRoute.parseRange range fileSize = (Js.Num first, Js.Num last) →
      ∃ response,
        (TracksRoute.getStream songs id (Some range) w).1 = Ok response
        ∧ (TracksRoute.status response = 416
           ↔ fileSize ≤ first ∨ fileSize ≤ last ∨ last < first)
        ∧ (fileSize ≤ first ∨ fileSize ≤ last ∨ last < first →
           response = TracksRoute.jsonError 416 "RANGE_NOT_SATISFIABLE"
                        "Requested range not satisfiable")
        ∧ (¬ (fileSize ≤ first ∨ fileSize ≤ last ∨ last < first) →
           ∃ body,
             response = TracksRoute.mkResponse 206
                          (partialHeaders first last fileSize mimeType)
                          (TracksRoute.Stream body)
             ∧ Z.of_nat (length body) = last - first + 1
             ∧ ∀ k, 0 ≤ k < last - first + 1 →
                 body !! Z.to_nat k = bytes !! Z.to_nat (first + k)))
  ∧ ∀ range,
      (let parts := Js.split "-" (Js.removeFirst "bytes=" range) in
       parts !! 1%nat = None ∨ parts !! 1%nat = Some "") →
      (TracksRoute.parseRange range fileSize).2 = Js.Num (fileSize - 1).
Proof.
  intros Hserves fileSize mimeType.
  assert (Hfile : disk w !! filePath = Some (RegularFile bytes))
    by (destruct Hserves as (? & ? & ? & ? & ? & ? & ? & ? & ?); done).
  split; [|split]; cycle 2.
  { intros range Hend. unfold TracksRoute.parseRange. cbn zeta in *.
    by destruct Hend as [-> | ->]. }
  - destruct (streamBody_serves songs id None w filePath bytes Hserves) as (v & Hdisk & Hbody).
    rewrite getStream_of_body, Hbody, (serveFile_full filePath bytes v); [done|].
    by rewrite Hdisk.
  - intros range first last Hparse.
    destruct (streamBody_serves songs id (Some range) w filePath bytes Hserves)
      as (v & Hdisk & Hbody).
    pose proof (parseRange_start_unsigned _ _ _ _ Hparse) as Hfirst.
    rewrite getStream_of_body, Hbody.
    rewrite (serveFile_range filePath bytes v range);
      [|by rewrite Hdisk | by apply (parseRange_truthy range fileSize first (Js.Num last))].
    fold fileSize. rewrite Hparse.
    unfold TracksRoute.rangeRejected, Js.ge, Js.gt.
    destruct (bool_decide_reflect (fileSize ≤ first)) as [H1|H1]; cbn [orb].
    { eexists. split; [reflexivity|]. split; [cbn; tauto|]. split; [done|tauto]. }
    destruct (bool_decide_reflect (fileSize ≤ last)) as [H2|H2]; cbn [orb].
    { eexists. split; [reflexivity|]. split; [cbn; tauto|]. split; [done|tauto]. }
    destruct (bool_decide_reflect (last < first)) as [H3|H3].
    { eexists. split; [reflexivity|]. split; [cbn; tauto|]. split; [done|tauto]. }
    rewrite !bool_decide_eq_true_2 by lia. cbn [andb].
    eexists. split; [reflexivity|]. split; [cbn; split; [discriminate | tauto]|].
    split; [tauto|]. intros _. eexists. split; [reflexivity|]. split.
    + apply span_length; lia.
    + intros k Hk. by apply span_lookup.
Qed.

Lemma streamWorld_serves :
  servesFile "/songs" "t1" streamWorld "/songs/Muse - Starlight.m4a" thousandBytes.
Proof.
  exists [starlight], starlight, "Muse - Starlight.m4a".
  split; [reflexivity|]. split; [reflexivity|]. split; [reflexivity|].
  split; [discriminate|]. split; by vm_compute.
Qed.

Lemma stream_range_semantics_witness :
  servesFile "/songs" "t1" streamWorld "/songs/Muse - Starlight.m4a" thousandBytes
  ∧ (TracksRoute.getStream "/songs" "t1" None streamWorld).1
    = Ok (TracksRoute.mkResponse 200 (fullHeaders 1000 "audio/mp4")
            (TracksRoute.Stream thousandBytes))
  ∧ (TracksRoute.getStream "/songs" "t1" (Some "bytes=0-1023") streamWorld).1
    = Ok (TracksRoute.jsonError 416 "RANGE_NOT_SATISFIABLE"
            "Requested range not satisfiable")
  ∧ ∃ body,
      (TracksRoute.getStream "/songs" "t1" (Some "bytes=900-999") streamWorld).1
      = Ok (TracksRoute.mkResponse 206
              [("Content-Range", "bytes 900-999/1000");
               ("Accept-Ranges", "bytes");
               ("Content-Length", "100");
               ("Content-Type", "audio/mp4");
               ("Cache-Control", "public, max-age=86400")]
              (TracksRoute.Stream body))
      ∧ Z.of_nat (length body) = 100.
Proof.
  pose proof streamWorld_serves as Hserves.
  destruct (stream_range_semantics "/songs" "t1" streamWorld
              "/songs/Muse - Starlight.m4a" thousandBytes Hserves)
    as (Hfull & Hrange & _).
  assert (Hlen : Z.of_nat (length thousandBytes) = 1000) by (by vm_compute).
  split; [exact Hserves|]. split; [exact Hfull|]. split.
  - destruct (Hrange "bytes=0-1023" 0 1023 eq_refl) as (response & Hrun & _ & Hreject & _).
    rewrite Hrun, Hreject; [reflexivity|]. rewrite Hlen. lia.
  - destruct (Hrange "bytes=900-999" 900 999 eq_refl) as (response & Hrun & _ & _ & Hserve).
    destruct Hserve as (body & Hresponse & Hlength & _).
    { rewrite Hlen. lia. }
    exists body. split; [|exact Hlength].
    rewrite Hrun, Hresponse. reflexivity.
Defined.

(** C10. The suffix form [bytes=-500] escapes the validation: it parses to
    a [NaN] start, so none of the three comparisons rejects it on a file of
    more than 500 bytes, yet no partial response can be built from it: the
    chunk size is [NaN], the read stream refuses the [NaN] offset, and the
    request ends in the 500 answer of the [catch] block, neither 416 nor
    206. *)
Theorem suffix_range_escapes_validation `{Platform} songs id w filePath bytes :
  servesFile songs id w filePath bytes →
  500 < Z.of_nat (length bytes) →
  let fileSize := Z.of_nat (length bytes) in
  TracksRoute.parseRange "bytes=-500" fileSize = (Js.NaN, Js.Num 500)
  ∧ TracksRoute.rangeRejected Js.NaN (Js.Num 500) fileSize = false
  ∧ TracksRoute.chunkSize Js.NaN (Js.Num 500) = Js.NaN
  ∧ (TracksRoute.createReadStream filePath (Some (Js.NaN, Js.Num 500)) w).1
    = Throw TracksRoute.outOfRange
  ∧ (TracksRoute.getStream songs id (Some "bytes=-500") w).1
    = Ok (TracksRoute.jsonError 500 "INTERNAL_ERROR" "Failed to stream track").
Proof.
  intros Hserves Hsize fileSize.
  assert (Hfile : disk w !! filePath = Some (RegularFile bytes))
    by (destruct Hserves as (? & ? & ? & ? & ? & ? & ? & ? & ?); done).
  assert (Haccepted : TracksRoute.rangeRejected Js.NaN (Js.Num 500) fileSize = false).
  { unfold TracksRoute.rangeRejected, Js.ge, Js.gt. cbn [orb].
    rewrite bool_decide_eq_false_2 by (unfold fileSize; lia). reflexivity. }
  split; [reflexivity|]. split; [exact Haccepted|]. split; [reflexivity|].
  split; [reflexivity|].
  destruct (streamBody_serves songs id (Some "bytes=-500") w filePath bytes Hserves)
    as (v & Hdisk & Hbody).
  rewrite getStream_of_body, Hbody.
  rewrite (serveFile_range filePath bytes v "bytes=-500");
    [|by rewrite Hdisk | reflexivity].
  fold fileSize.
  change (TracksRoute.parseRange "bytes=-500" fileSize) with (Js.NaN, Js.Num 500).
  cbn beta iota. by rewrite Haccepted.
Qed.

Lemma suffix_range_escapes_validation_witness :
  500 < Z.of_nat (length thousandBytes)
  ∧ TracksRoute.rangeRejected Js.NaN (Js.Num 500) 1000 = false
  ∧ (TracksRoute.getStream "/songs" "t1" (Some "bytes=-500") streamWorld).1
    = Ok (TracksRoute.jsonError 500 "INTERNAL_ERROR" "Failed to stream track").
Proof.
  pose proof streamWorld_serves as Hserves.
  assert (Hsize : 500 < Z.of_nat (length thousandBytes)) by (by vm_compute).
  destruct (suffix_range_escapes_validation "/songs" "t1" streamWorld
              "/songs/Muse - Starlight.m4a" thousandBytes Hserves Hsize)
    as (_ & Haccepted & _ & _ & Hresponse).
  split; [exact Hsize|]. split; [exact Haccepted | exact Hresponse].
Defined.

(** * Further properties of the code *)

(** ** [utils/sanitize.js] *)

Lemma allChars_impl (p q : ascii → bool) s :
  (∀ c, p c = true → q c = true) → allChars p s = true → allChars q s = true.
Proof.
  intros Hpq. induction s as [|c r IH]; cbn; [done|].
  rewrite !andb_true_iff. intros [Hc Hr]. auto.
Qed.

Lemma allChars_hasChar p s c : allChars p s = true → p c = false → hasChar c s = false.
Proof.
  intros Hs Hc. induction s as [|a r IH]; cbn in *; [done|].
  apply andb_true_iff in Hs as [Ha Hr].
  rewrite (IH Hr), orb_false_r. apply bool_decide_eq_false. intros ->. congruence.
Qed.

Lemma replaceEach_all p class s :
  p "_"%char = true → allChars p s = true →
  allChars p (Sanitize.replaceEach class s) = true.
Proof.
  intros Hu. induction s as [|c r IH]; [done|].
  cbn [allChars Sanitize.replaceEach].
  rewrite !andb_true_iff. intros [Hc Hr]. split; [|auto].
  by destruct (bool_decide (c ∈ class)).
Qed.

Lemma replaceEach_class class s :
  "_"%char ∉ class →
  allChars (λ c, negb (bool_decide (c ∈ class))) (Sanitize.replaceEach class s) = true.
Proof.
  intros Hu. induction s as [|c r IH]; [done|].
  cbn [allChars Sanitize.replaceEach].
  rewrite IH, andb_true_r.
  destruct (bool_decide_reflect (c ∈ class)) as [Hc|Hc].
  - by rewrite bool_decide_eq_false_2.
  - by rewrite bool_decide_eq_false_2.
Qed.

Lemma replaceEach_id class s :
  allChars (λ c, negb (bool_decide (c ∈ class))) s = true →
  Sanitize.replaceEach class s = s.
Proof.
  induction s as [|c r IH]; [done|].
  cbn [allChars Sanitize.replaceEach].
  rewrite andb_true_iff. intros [Hc Hr]. rewrite (IH Hr).
  apply negb_true_iff in Hc. by rewrite Hc.
Qed.

(** Settles a goal by cases on the character [d], given that [d] is not the
    underscore. *)
Ltac by_char_cases d Hd :=
  destruct d as [[] [] [] [] [] [] [] []]; first [done | by destruct Hd].

Lemma collapse_starts s :
  startsUnderscore (Sanitize.collapseUnderscores s) = startsUnderscore s.
Proof.
  induction s as [|c r IH]; [done|]. cbn [Sanitize.collapseUnderscores].
  case_bool_decide as Hc.
  - subst c. destruct r as [|d r']; [done|].
    destruct (decide (d = "_"%char)) as [->|Hd].
    + rewrite IH. done.
    + by_char_cases d Hd.
  - cbn. by rewrite bool_decide_eq_false_2.
Qed.

Lemma collapse_all p s :
  allChars p s = true → allChars p (Sanitize.collapseUnderscores s) = true.
Proof.
  induction s as [|c r IH]; [done|]. cbn [Sanitize.collapseUnderscores allChars].
  rewrite andb_true_iff. intros [Hc Hr]. specialize (IH Hr).
  case_bool_decide as Hu.
  - subst c. destruct r as [|d r']; [by cbn; rewrite Hc|].
    destruct (decide (d = "_"%char)) as [->|Hd]; [exact IH|].
    assert (E : (match String d r' with
                 | String "_" _ => Sanitize.collapseUnderscores (String d r')
                 | _ => String "_" (Sanitize.collapseUnderscores (String d r'))
                 end) = String "_" (Sanitize.collapseUnderscores (String d r'))).
    { by_char_cases d Hd. }
    rewrite E. cbn [allChars]. by rewrite Hc, IH.
  - cbn [allChars]. by rewrite Hc, IH.
Qed.

Lemma collapse_no_double s :
  doubleUnderscore (Sanitize.collapseUnderscores s) = false.
Proof.
  induction s as [|c r IH]; [done|]. cbn [Sanitize.collapseUnderscores].
  case_bool_decide as Hu.
  - subst c. destruct r as [|d r']; [done|].
    destruct (decide (d = "_"%char)) as [->|Hd]; [exact IH|].
    assert (E : (match String d r' with
                 | String "_" _ => Sanitize.collapseUnderscores (String d r')
                 | _ => String "_" (Sanitize.collapseUnderscores (String d r'))
                 end) = String "_" (Sanitize.collapseUnderscores (String d r'))).
    { by_char_cases d Hd. }
    rewrite E. cbn [doubleUnderscore]. rewrite IH, collapse_starts. cbn.
    by rewrite (bool_decide_eq_false_2 (d = "_"%char)).
  - cbn [doubleUnderscore]. rewrite IH. by rewrite (bool_decide_eq_false_2 (c = "_"%char)).
Qed.

Lemma collapse_id s : doubleUnderscore s = false → Sanitize.collapseUnderscores s = s.
Proof.
  induction s as [|c r IH]; [done|]. cbn [Sanitize.collapseUnderscores doubleUnderscore].
  rewrite orb_false_iff. intros [Hc Hr]. rewrite (IH Hr).
  case_bool_decide as Hu; [|done]. subst c.
  destruct r as [|d r']; [done|]. cbn in Hc.
  apply bool_decide_eq_false in Hc.
  by_char_cases d Hc.
Qed.

Lemma stripLeading_all p s :
  allChars p s = true → allChars p (Sanitize.stripLeading s) = true.
Proof.
  induction s as [|c r IH]; [done|]. cbn [Sanitize.stripLeading].
  intros Hs. case_bool_decide; [|done].
  cbn [allChars] in Hs. apply andb_true_iff in Hs as [_ Hr]. auto.
Qed.

Lemma stripLeading_starts s : startsUnderscore (Sanitize.stripLeading s) = false.
Proof.
  induction s as [|c r IH]; [done|]. cbn [Sanitize.stripLeading].
  case_bool_decide as Hc; [done|]. cbn. by rewrite bool_decide_eq_false_2.
Qed.

Lemma stripLeading_no_double s :
  doubleUnderscore s = false → doubleUnderscore (Sanitize.stripLeading s) = false.
Proof.
  induction s as [|c r IH]; [done|]. cbn [Sanitize.stripLeading].
  intros Hs. case_bool_decide; [|done].
  cbn [doubleUnderscore] in Hs. apply orb_false_iff in Hs as [_ Hr]. auto.
Qed.

Lemma stripLeading_id s : startsUnderscore s = false → Sanitize.stripLeading s = s.
Proof.
  destruct s as [|c r]; [done|]. cbn. by intros ->.
Qed.

Lemma stripTrailing_all p s :
  allChars p s = true → allChars p (Sanitize.stripTrailing s) = true.
Proof.
  induction s as [|c r IH]; [done|]. cbn [Sanitize.stripTrailing allChars].
  rewrite andb_true_iff. intros [Hc Hr].
  destruct (bool_decide (c = "_"%char) && bool_decide (Sanitize.stripTrailing r = ""));
    [done|].
  cbn [allChars]. by rewrite Hc, IH.
Qed.

Lemma stripTrailing_ends s : endsUnderscore (Sanitize.stripTrailing s) = false.
Proof.
  induction s as [|c r IH]; [done|]. cbn [Sanitize.stripTrailing].
  destruct (bool_decide_reflect (c = "_"%char)) as [Hc|Hc];
    destruct (bool_decide_reflect (Sanitize.stripTrailing r = "")) as [Hr|Hr];
    cbn [andb]; try done.
  - destruct (Sanitize.stripTrailing r); [done | exact IH].
  - rewrite Hr. cbn. by rewrite bool_decide_eq_false_2.
  - destruct (Sanitize.stripTrailing r); [done | exact IH].
Qed.

Lemma stripTrailing_starts s :
  startsUnderscore (Sanitize.stripTrailing s) = true → startsUnderscore s = true.
Proof.
  destruct s as [|c r]; [done|]. cbn [Sanitize.stripTrailing].
  destruct (bool_decide (c = "_"%char) && bool_decide (Sanitize.stripTrailing r = ""));
    done.
Qed.

Lemma stripTrailing_no_double s :
  doubleUnderscore s = false → doubleUnderscore (Sanitize.stripTrailing s) = false.
Proof.
  induction s as [|c r IH]; [done|]. cbn [Sanitize.stripTrailing doubleUnderscore].
  rewrite orb_false_iff. intros [Hc Hr].
  destruct (bool_decide (c = "_"%char) && bool_decide (Sanitize.stripTrailing r = ""));
    [done|].
  cbn [doubleUnderscore]. rewrite (IH Hr), orb_false_r.
  destruct (bool_decide (c = "_"%char)); [|done]. cbn in *.
  destruct (startsUnderscore (Sanitize.stripTrailing r)) eqn:E; [|done].
  apply stripTrailing_starts in E. congruence.
Qed.

Lemma stripTrailing_id s : endsUnderscore s = false → Sanitize.stripTrailing s = s.
Proof.
  induction s as [|c r IH]; [done|]. cbn [Sanitize.stripTrailing endsUnderscore].
  destruct r as [|d r'].
  - intros ->. done.
  - intros Hr. rewrite (IH Hr). by rewrite andb_false_r.
Qed.

Lemma safeChar_underscore : safeChar "_"%char = true.
Proof. by vm_compute. Qed.

Lemma safeChar_spec c :
  safeChar c = false ↔ c ∈ Sanitize.invalidChars ∨ c = " "%char ∨ c = ";"%char.
Proof.
  unfold safeChar. rewrite !andb_false_iff, !negb_false_iff, !bool_decide_eq_true. tauto.
Qed.

Lemma replaced_all_safe name :
  allChars safeChar
    (Sanitize.replaceEach [";"%char]
       (Sanitize.replaceEach [" "%char]
          (Sanitize.replaceEach Sanitize.invalidChars name))) = true.
Proof.
  set (a := Sanitize.replaceEach Sanitize.invalidChars name).
  set (b := Sanitize.replaceEach [" "%char] a).
  set (c := Sanitize.replaceEach [";"%char] b).
  assert (Ha : allChars (λ c, negb (bool_decide (c ∈ Sanitize.invalidChars))) c = true).
  { do 2 (apply replaceEach_all; [by vm_compute|]).
    apply replaceEach_class. by apply (bool_decide_eq_false_1 _). }
  assert (Hb : allChars (λ c, negb (bool_decide (c ∈ [" "%char]))) c = true).
  { apply replaceEach_all; [by vm_compute|]. apply replaceEach_class. by apply (bool_decide_eq_false_1 _). }
  assert (Hc : allChars (λ c, negb (bool_decide (c ∈ [";"%char]))) c = true).
  { apply replaceEach_class. by apply (bool_decide_eq_false_1 _). }
  clearbody c. clear a b. induction c as [|x r IH]; [done|].
  cbn [allChars] in *.
  apply andb_true_iff in Ha as [Ha1 Ha2], Hb as [Hb1 Hb2], Hc as [Hc1 Hc2].
  rewrite (IH Ha2 Hb2 Hc2), andb_true_r. unfold safeChar. rewrite Ha1. cbn [andb].
  apply negb_true_iff, bool_decide_eq_false in Hb1, Hc1.
  rewrite !bool_decide_eq_false_2; [done| |].
  - intros ->. apply Hc1, list_elem_of_here.
  - intros ->. apply Hb1, list_elem_of_here.
Qed.

Lemma sanitizeFilename_cleanName name :
  cleanName (Sanitize.sanitizeFilename name) = true.
Proof.
  unfold cleanName, Sanitize.sanitizeFilename. cbn zeta.
  rewrite stripTrailing_ends, stripTrailing_no_double, stripTrailing_all.
  - destruct (startsUnderscore _) eqn:E; [|done].
    apply stripTrailing_starts in E. by rewrite stripLeading_starts in E.
  - apply stripLeading_all, collapse_all, replaced_all_safe.
  - apply stripLeading_no_double, collapse_no_double.
Qed.

(** X1. A sanitized name contains none of the characters the file system
    rejects, no space and no semicolon; it has no two underscores in a row
    and neither starts nor ends with an underscore. *)
Theorem sanitizeFilename_output name :
  let result := Sanitize.sanitizeFilename name in
  (∀ c, c ∈ Sanitize.invalidChars ∨ c = " "%char ∨ c = ";"%char →
        hasChar c result = false)
  ∧ doubleUnderscore result = false
  ∧ startsUnderscore result = false
  ∧ endsUnderscore result = false.
Proof.
  intros result. pose proof (sanitizeFilename_cleanName name) as Hclean.
  fold result in Hclean. unfold cleanName in Hclean.
  rewrite !andb_true_iff, !negb_true_iff in Hclean.
  destruct Hclean as [[[Hall Hdouble] Hstart] Hend].
  split; [|done]. intros c Hc.
  apply (allChars_hasChar safeChar); [done|]. by apply safeChar_spec.
Qed.

Lemma sanitizeFilename_output_witness :
  Sanitize.sanitizeFilename "AC/DC; Back  in_ Black?" = "AC_DC_Back_in_Black"
  ∧ hasChar "/" (Sanitize.sanitizeFilename "AC/DC; Back  in_ Black?") = false.
Proof.
  destruct (sanitizeFilename_output "AC/DC; Back  in_ Black?") as (Hchars & _).
  split; [reflexivity|]. apply Hchars. left. by apply (bool_decide_eq_true_1 _).
Defined.

Lemma safe_outside (class : list ascii) s :
  (∀ c, c ∈ class → safeChar c = false) →
  allChars safeChar s = true →
  allChars (λ c, negb (bool_decide (c ∈ class))) s = true.
Proof.
  intros Hclass. apply allChars_impl. intros c Hsafe.
  apply negb_true_iff, bool_decide_eq_false_2. intros Hin.
  rewrite (Hclass c Hin) in Hsafe. discriminate.
Qed.

(** X2. [sanitizeFilename] leaves a name alone that is already clean, so
    sanitizing twice is the same as sanitizing once. *)
Theorem sanitizeFilename_idempotent name :
  (cleanName name = true → Sanitize.sanitizeFilename name = name)
  ∧ Sanitize.sanitizeFilename (Sanitize.sanitizeFilename name)
    = Sanitize.sanitizeFilename name.
Proof.
  assert (Hfixed : ∀ s, cleanName s = true → Sanitize.sanitizeFilename s = s).
  { intros s Hclean. unfold cleanName in Hclean.
    rewrite !andb_true_iff, !negb_true_iff in Hclean.
    destruct Hclean as [[[Hall Hdouble] Hstart] Hend].
    unfold Sanitize.sanitizeFilename. cbn zeta.
    rewrite (replaceEach_id Sanitize.invalidChars s).
    2:{ apply safe_outside; [|done]. intros c Hc. apply safeChar_spec. by left. }
    rewrite (replaceEach_id [" "%char] s).
    2:{ apply safe_outside; [|done]. intros c Hc. apply safeChar_spec.
        apply list_elem_of_singleton in Hc. by right; left. }
    rewrite (replaceEach_id [";"%char] s).
    2:{ apply safe_outside; [|done]. intros c Hc. apply safeChar_spec.
        apply list_elem_of_singleton in Hc. by right; right. }
    by rewrite collapse_id, stripLeading_id, stripTrailing_id. }
  split; [apply Hfixed|]. apply Hfixed, sanitizeFilename_cleanName.
Qed.

Lemma sanitizeFilename_idempotent_witness :
  cleanName "Guns_N'_Roses" = true
  ∧ Sanitize.sanitizeFilename "Guns_N'_Roses" = "Guns_N'_Roses".
Proof.
  assert (Hclean : cleanName "Guns_N'_Roses" = true) by (by vm_compute).
  split; [exact Hclean|].
  by apply (proj1 (sanitizeFilename_idempotent "Guns_N'_Roses")).
Defined.

Lemma hasChar_app c a b : hasChar c (a +:+ b) = hasChar c a || hasChar c b.
Proof.
  induction a as [|x r IH]; [done|].
  change (String x r +:+ b) with (String x (r +:+ b)).
  cbn [hasChar]. by rewrite IH, orb_assoc.
Qed.

(** X3. The file name built for an imported track holds no path separator
    and none of the other characters [sanitizeFilename] removes, whatever
    the artist and the track name are; it is the two sanitized names joined
    by a dash, with the extension [.m4a]. *)
Theorem buildTrackFilename_safe artist trackName c :
  c ∈ Sanitize.invalidChars ∨ c = " "%char ∨ c = ";"%char →
  hasChar c (Sanitize.buildTrackFilename artist trackName) = false.
Proof.
  intros Hc. unfold Sanitize.buildTrackFilename.
  destruct (sanitizeFilename_output artist) as (Hartist & _).
  destruct (sanitizeFilename_output trackName) as (Hname & _).
  rewrite !hasChar_app, (Hartist c Hc), (Hname c Hc). cbn [orb].
  apply safeChar_spec in Hc. unfold safeChar in Hc.
  destruct (decide (c = "-"%char)) as [->|H1]; [by vm_compute in Hc|].
  destruct (decide (c = "."%char)) as [->|H2]; [by vm_compute in Hc|].
  destruct (decide (c = "m"%char)) as [->|H3]; [by vm_compute in Hc|].
  destruct (decide (c = "4"%char)) as [->|H4]; [by vm_compute in Hc|].
  destruct (decide (c = "a"%char)) as [->|H5]; [by vm_compute in Hc|].
  cbn. rewrite !bool_decide_eq_false_2; done.
Qed.

Lemma buildTrackFilename_safe_witness :
  Sanitize.buildTrackFilename "../AC/DC" "Back in Black" = ".._AC_DC-Back_in_Black.m4a"
  ∧ hasChar "/" (Sanitize.buildTrackFilename "../AC/DC" "Back in Black") = false.
Proof.
  split; [reflexivity|].
  apply buildTrackFilename_safe. left. by apply (bool_decide_eq_true_1 _).
Defined.

(** ** [models/tokenBlocklist.js] *)

Lemma filter_length_same {A} (P : A → Prop) `{!∀ x, Decision (P x)} (l : list A) :
  length (filter P l) = length l ↔ Forall P l.
Proof.
  induction l as [|x l IH].
  - split; [constructor | done].
  - rewrite filter_cons. destruct (decide (P x)) as [Hx|Hx]; cbn [length].
    + rewrite Forall_cons. split.
      * intros [= Hlen]. split; [done | by apply IH].
      * intros [_ Hl]. f_equal. by apply IH.
    + pose proof (length_filter P l). split; [lia|].
      intros Hall. apply Forall_cons in Hall as [? _]. done.
Qed.

Lemma filter_all {A} (P : A → Prop) `{!∀ x, Decision (P x)} (l : list A) :
  Forall P l → filter P l = l.
Proof.
  induction 1 as [|x l Hx _ IH]; [done|].
  by rewrite filter_cons_True, IH.
Qed.

Lemma isBlocklisted_run w blocklist tokenId :
  stored BLOCKLIST_FILE w = Some blocklist →
  (TokenBlocklist.isBlocklisted tokenId w).1
  = Ok (bool_decide (Exists (λ entry, BlocklistEntry.tokenId entry = tokenId) blocklist)).
Proof.
  intros Hstored.
  unfold TokenBlocklist.isBlocklisted, TokenBlocklist.getBlocklist, bind.
  by rewrite loadAll_run, Hstored.
Qed.

Lemma addToBlocklist_run w blocklist now tokenId expiresAt :
  stored BLOCKLIST_FILE w = Some blocklist →
  TokenBlocklist.addToBlocklist now tokenId expiresAt w =
    (Ok tt,
     setBlocklistJson
       (Present (JsonArray (blocklist ++ [BlocklistEntry.mk tokenId expiresAt now])))
       (record (WriteFile BLOCKLIST) (record (ReadFile BLOCKLIST) w))).
Proof.
  intros Hstored.
  unfold TokenBlocklist.addToBlocklist, TokenBlocklist.getBlocklist, bind.
  by rewrite loadAll_run, Hstored.
Qed.

(** X4. Revoking a token appends one entry to the blocklist and saves it:
    afterwards the token is reported as blocklisted, every token that was
    blocklisted before still is, and no other token becomes blocklisted. *)
Theorem addToBlocklist_then_isBlocklisted w blocklist now tokenId expiresAt :
  stored BLOCKLIST_FILE w = Some blocklist →
  let after := (TokenBlocklist.addToBlocklist now tokenId expiresAt w).2 in
  (TokenBlocklist.addToBlocklist now tokenId expiresAt w).1 = Ok tt
  ∧ stored BLOCKLIST_FILE after
    = Some (blocklist ++ [BlocklistEntry.mk tokenId expiresAt now])
  ∧ (TokenBlocklist.isBlocklisted tokenId after).1 = Ok true
  ∧ (∀ other, other ≠ tokenId →
       (TokenBlocklist.isBlocklisted other after).1
       = (TokenBlocklist.isBlocklisted other w).1)
  ∧ events (TokenBlocklist.addToBlocklist now tokenId expiresAt) w
    = [ReadFile BLOCKLIST; WriteFile BLOCKLIST].
Proof.
  intros Hstored after. subst after.
  rewrite (addToBlocklist_run w blocklist now tokenId expiresAt Hstored).
  cbn [fst snd].
  set (added := blocklist ++ [BlocklistEntry.mk tokenId expiresAt now]).
  assert (Hafter : stored BLOCKLIST_FILE
            (setBlocklistJson (Present (JsonArray added))
               (record (WriteFile BLOCKLIST) (record (ReadFile BLOCKLIST) w)))
            = Some added) by reflexivity.
  split; [done|]. split; [exact Hafter|]. split; [|split].
  - rewrite (isBlocklisted_run _ added tokenId Hafter). f_equal.
    apply bool_decide_eq_true_2, Exists_exists.
    exists (BlocklistEntry.mk tokenId expiresAt now). split; [|reflexivity].
    unfold added. apply elem_of_app. right. apply list_elem_of_here.
  - intros other Hother.
    rewrite (isBlocklisted_run _ added other Hafter),
      (isBlocklisted_run w blocklist other Hstored).
    f_equal. apply bool_decide_ext. rewrite !Exists_exists. unfold added. split.
    + intros (entry & Hin & Hid). apply elem_of_app in Hin as [Hin|Hin]; [eauto|].
      apply list_elem_of_singleton in Hin. subst entry. cbn in Hid. congruence.
    + intros (entry & Hin & Hid). exists entry. split; [|done].
      apply elem_of_app. by left.
  - apply events_of_trace.
    rewrite (addToBlocklist_run w blocklist now tokenId expiresAt Hstored).
    cbn. by rewrite <- app_assoc.
Qed.

Lemma addToBlocklist_then_isBlocklisted_witness :
  stored BLOCKLIST_FILE emptyWorld = Some []
  ∧ (TokenBlocklist.isBlocklisted "jti-1" emptyWorld).1 = Ok false
  ∧ (TokenBlocklist.isBlocklisted "jti-1"
       (TokenBlocklist.addToBlocklist 5 "jti-1" 9000 emptyWorld).2).1 = Ok true.
Proof.
  destruct (addToBlocklist_then_isBlocklisted emptyWorld [] 5 "jti-1" 9000 eq_refl)
    as (_ & _ & Hlisted & _).
  split; [reflexivity|]. split; [reflexivity | exact Hlisted].
Defined.

Lemma cleanupExpiredEntries_run w blocklist now :
  stored BLOCKLIST_FILE w = Some blocklist →
  let cleaned := filter (λ entry, now < BlocklistEntry.expiresAt entry) blocklist in
  TokenBlocklist.cleanupExpiredEntries now w =
    if bool_decide (length cleaned ≠ length blocklist) then
      (Ok tt,
       setBlocklistJson (Present (JsonArray cleaned))
         (record (WriteFile BLOCKLIST) (record (ReadFile BLOCKLIST) w)))
    else (Ok tt, record (ReadFile BLOCKLIST) w).
Proof.
  intros Hstored cleaned.
  unfold TokenBlocklist.cleanupExpiredEntries, TokenBlocklist.getBlocklist, bind.
  rewrite loadAll_run, Hstored. fold cleaned.
  by destruct (bool_decide (length cleaned ≠ length blocklist)).
Qed.

(** X5. The sweep keeps exactly the entries that expire after [now], in
    their order.  It writes the file only when some entry has expired, so a
    sweep over a blocklist without expired entries is a pure read; and a
    token stays blocklisted exactly when one of its entries has not
    expired. *)
Theorem cleanupExpiredEntries_sweep w blocklist now :
  stored BLOCKLIST_FILE w = Some blocklist →
  let unexpired := λ entry, now < BlocklistEntry.expiresAt entry in
  let run := TokenBlocklist.cleanupExpiredEntries now w in
  run.1 = Ok tt
  ∧ stored BLOCKLIST_FILE run.2 = Some (filter unexpired blocklist)
  ∧ (Forall unexpired blocklist →
       events (TokenBlocklist.cleanupExpiredEntries now) w = [ReadFile BLOCKLIST]
       ∧ blocklistJson run.2 = blocklistJson w)
  ∧ (¬ Forall unexpired blocklist →
       events (TokenBlocklist.cleanupExpiredEntries now) w
       = [ReadFile BLOCKLIST; WriteFile BLOCKLIST])
  ∧ ∀ tokenId,
      (TokenBlocklist.isBlocklisted tokenId run.2).1
      = Ok (bool_decide
              (Exists (λ entry, BlocklistEntry.tokenId entry = tokenId ∧ unexpired entry)
                 blocklist)).
Proof.
  intros Hstored unexpired run.
  pose proof (cleanupExpiredEntries_run w blocklist now Hstored) as Hrun.
  cbn zeta in Hrun. fold unexpired in Hrun.
  assert (Hafter : stored BLOCKLIST_FILE run.2 = Some (filter unexpired blocklist)).
  { subst run. rewrite Hrun.
    destruct (decide (length (filter unexpired blocklist) = length blocklist))
      as [Hlen|Hlen].
    - rewrite bool_decide_eq_false_2 by (by intros ?). cbn [snd].
      change (stored BLOCKLIST_FILE (record (ReadFile BLOCKLIST) w))
        with (stored BLOCKLIST_FILE w).
      apply (proj1 (filter_length_same unexpired blocklist)) in Hlen.
      by rewrite Hstored, (filter_all unexpired blocklist Hlen).
    - by rewrite bool_decide_eq_true_2. }
  split; [subst run; rewrite Hrun; by case_bool_decide|].
  split; [exact Hafter|]. split; [|split].
  - intros Hall. apply (proj2 (filter_length_same unexpired blocklist)) in Hall.
    rewrite bool_decide_eq_false_2 in Hrun by (by intros ?).
    split; [apply events_of_trace; by rewrite Hrun | subst run; by rewrite Hrun].
  - intros Hsome. rewrite bool_decide_eq_true_2 in Hrun.
    + apply events_of_trace. rewrite Hrun. cbn. by rewrite <- app_assoc.
    + intros Hlen. by apply Hsome, (proj1 (filter_length_same unexpired blocklist)).
  - intros tokenId. rewrite (isBlocklisted_run _ _ tokenId Hafter). f_equal.
    apply bool_decide_ext. rewrite !Exists_exists. split.
    + intros (entry & Hin & Hid). apply list_elem_of_filter in Hin as [Hlive Hin]. eauto.
    + intros (entry & Hin & Hid & Hlive). exists entry. split; [|done].
      by apply list_elem_of_filter.
Qed.

Lemma cleanupExpiredEntries_sweep_witness :
  stored BLOCKLIST_FILE sampleBlocklist
  = Some [BlocklistEntry.mk "old" 1000 10; BlocklistEntry.mk "live" 9000 20]
  ∧ stored BLOCKLIST_FILE (TokenBlocklist.cleanupExpiredEntries 5000 sampleBlocklist).2
    = Some [BlocklistEntry.mk "live" 9000 20]
  ∧ events (TokenBlocklist.cleanupExpiredEntries 500) sampleBlocklist
    = [ReadFile BLOCKLIST].
Proof.
  destruct (cleanupExpiredEntries_sweep sampleBlocklist _ 5000 eq_refl)
    as (_ & Hkept & _).
  destruct (cleanupExpiredEntries_sweep sampleBlocklist _ 500 eq_refl)
    as (_ & _ & Hquiet & _).
  split; [reflexivity|]. split; [exact Hkept|].
  apply Hquiet. repeat constructor.
Defined.

(** ** [utils/pagination.js] *)

Lemma ceilDiv_tight a b : 0 < b → Js.ceilDiv a b * b < a + b.
Proof.
  intros Hb. unfold Js.ceilDiv.
  pose proof (Z.div_mod (- a) b ltac:(lia)) as Hdiv.
  pose proof (Z.mod_pos_bound (- a) b Hb) as Hmod. nia.
Qed.

Lemma slice_window {A} (l : list A) start n :
  0 ≤ start → 0 ≤ n →
  Js.slice l start (start + n) = take (Z.to_nat n) (drop (Z.to_nat start) l).
Proof.
  intros Hstart Hn. unfold Js.slice, Js.relativeIndex.
  set (len := Z.of_nat (length l)).
  rewrite !bool_decide_eq_false_2 by lia.
  destruct (decide (start ≤ len)) as [Hin|Hout].
  - replace (Z.min start len) with start by lia.
    destruct (decide (start + n ≤ len)) as [Hfit|Hover].
    + by replace (Z.min (start + n) len - start) with n by lia.
    + replace (Z.min (start + n) len - start) with (len - start) by lia.
      rewrite !take_ge; [done| |]; rewrite length_drop; unfold len in *; lia.
  - rewrite (drop_ge l (Z.to_nat start)) by (unfold len in *; lia).
    rewrite (drop_ge l (Z.to_nat (Z.min start len))) by (unfold len in *; lia).
    by rewrite !take_nil.
Qed.

(** X6. For a positive limit [paginate] serves a page that exists: the page
    number it reports lies in [1, totalPages] and is the requested one when
    that lies in the range; the data are the [limit] items that follow the
    earlier pages; and a list that is not empty never yields an empty
    page. *)
Theorem paginate_serves_existing_page {A} (items : list A) (pageNo perPage : Z) :
  0 < perPage →
  let r := paginate items pageNo perPage in
  let served := page (pagination r) in
  1 ≤ served ≤ totalPages (pagination r)
  ∧ (1 ≤ pageNo ≤ totalPages (pagination r) → served = pageNo)
  ∧ (pageNo < 1 → served = 1)
  ∧ total (pagination r) = Z.of_nat (length items)
  ∧ data r = take (Z.to_nat perPage) (drop (Z.to_nat ((served - 1) * perPage)) items)
  ∧ (length (data r) ≤ Z.to_nat perPage)%nat
  ∧ (items ≠ [] → data r ≠ [])
  ∧ (hasNext (pagination r) = true ↔ served * perPage < Z.of_nat (length items))
  ∧ (hasPrev (pagination r) = true ↔ 1 < served).
Proof.
  intros Hlimit r served. subst served r. unfold paginate.
  cbn [pagination page totalPages total data hasNext hasPrev].
  set (count := Z.of_nat (length items)).
  set (pages := orOne (Js.ceilDiv count perPage)).
  set (safe := Z.max 1 (Z.min pageNo pages)).
  pose proof (ceilDiv_nonneg count perPage ltac:(unfold count; lia) Hlimit) as Hnonneg.
  pose proof (ceilDiv_covers count perPage Hlimit) as Hcovers.
  pose proof (ceilDiv_tight count perPage Hlimit) as Htight.
  assert (Hpages : 1 ≤ pages
                   ∧ (0 < count → pages = Js.ceilDiv count perPage)
                   ∧ (count = 0 → pages = 1)).
  { unfold pages, orOne. case_bool_decide as Hzero.
    - split; [lia|]. split; [intros; nia|done].
    - split; [lia|]. split; [done|]. intros Hcount. exfalso. apply Hzero. nia. }
  destruct Hpages as (Hone & Hpos & Hzero).
  assert (Hdata : Js.slice items ((safe - 1) * perPage) ((safe - 1) * perPage + perPage)
                  = take (Z.to_nat perPage) (drop (Z.to_nat ((safe - 1) * perPage)) items)).
  { apply slice_window; unfold safe; nia. }
  split; [unfold safe; lia|]. split; [unfold safe; lia|]. split; [unfold safe; lia|].
  split; [done|]. split; [exact Hdata|]. split.
  { rewrite Hdata, length_take. lia. }
  split.
  { intros Hitems. rewrite Hdata. intros Hempty.
    apply (f_equal length) in Hempty. rewrite length_take, length_drop in Hempty.
    assert (0 < count) by (unfold count; destruct items; [done | cbn; lia]).
    assert ((safe - 1) * perPage < count); [|unfold count in *; cbn in Hempty; lia].
    rewrite Hpos in * by done. unfold safe. nia. }
  split.
  - rewrite bool_decide_eq_true. split.
    + intros Hnext. rewrite Hpos in * by (destruct (decide (0 < count)); [done|];
        exfalso; rewrite Hzero in Hnext by lia; unfold safe in Hnext; lia).
      unfold safe in *. nia.
    + intros Hmore. assert (0 < count) by (unfold safe in *; nia).
      rewrite Hpos in * by done. unfold safe in *. nia.
  - apply bool_decide_eq_true.
Qed.

Lemma paginate_serves_existing_page_witness :
  data (paginate [1; 2; 3; 4; 5] 3 2) = [5]
  ∧ data (paginate [1; 2; 3; 4; 5] 9 2) = [5]
  ∧ page (pagination (paginate [1; 2; 3; 4; 5] 0 2)) = 1.
Proof.
  destruct (paginate_serves_existing_page [1; 2; 3; 4; 5] 3 2 ltac:(lia))
    as (_ & _ & _ & _ & Hdata & _).
  destruct (paginate_serves_existing_page [1; 2; 3; 4; 5] 0 2 ltac:(lia))
    as (_ & _ & Hlow & _).
  split; [rewrite Hdata; reflexivity|]. split; [reflexivity|]. apply Hlow. lia.
Defined.

Lemma take_plus {A} (l : list A) a b :
  take (a + b) l = take a l ++ take b (drop a l).
Proof.
  revert l. induction a as [|a IH]; intros l; [done|].
  destruct l as [|x l]; cbn; [by rewrite take_nil | by rewrite IH].
Qed.

Lemma paginate_in_range {A} (items : list A) (p : nat) (perPage : Z) :
  0 < perPage →
  1 ≤ Z.of_nat p ≤ totalPages (pagination (paginate items 1 perPage)) →
  data (paginate items (Z.of_nat p) perPage)
  = take (Z.to_nat perPage) (drop ((p - 1) * Z.to_nat perPage) items).
Proof.
  intros Hlimit. unfold paginate. cbn [pagination totalPages data].
  set (pages := orOne _). intros Hp.
  replace (Z.max 1 (Z.min (Z.of_nat p) pages)) with (Z.of_nat p) by lia.
  rewrite slice_window by nia. do 2 f_equal. nia.
Qed.

(** X7. For a positive limit the pages of [paginate] partition the list:
    the data of pages 1 to [totalPages], one after the other, are the items
    in their order, each exactly once. *)
Theorem paginate_pages_cover {A} (items : list A) (perPage : Z) :
  0 < perPage →
  let pages := Z.to_nat (totalPages (pagination (paginate items 1 perPage))) in
  concat (map (λ p, data (paginate items (Z.of_nat p) perPage)) (seq 1 pages)) = items.
Proof.
  intros Hlimit pages.
  assert (Hprefix : ∀ n, (n ≤ pages)%nat →
            concat (map (λ p, data (paginate items (Z.of_nat p) perPage)) (seq 1 n))
            = take (n * Z.to_nat perPage) items).
  { induction n as [|n IH]; intros Hn; [done|].
    rewrite seq_S, map_app, concat_app, IH by lia. cbn [map concat].
    rewrite app_nil_r, paginate_in_range by (unfold pages in Hn; lia).
    replace (S n * Z.to_nat perPage)%nat
      with (n * Z.to_nat perPage + Z.to_nat perPage)%nat by lia.
    rewrite take_plus. do 3 f_equal. lia. }
  rewrite Hprefix by lia. apply take_ge.
  unfold pages, paginate. cbn [pagination totalPages].
  pose proof (ceilDiv_covers (Z.of_nat (length items)) perPage Hlimit).
  unfold orOne. case_bool_decide; nia.
Qed.

Lemma paginate_pages_cover_witness :
  totalPages (pagination (paginate [1; 2; 3; 4; 5] 1 2)) = 3
  ∧ data (paginate [1; 2; 3; 4; 5] 1 2) ++ data (paginate [1; 2; 3; 4; 5] 2 2)
    ++ data (paginate [1; 2; 3; 4; 5] 3 2) = [1; 2; 3; 4; 5].
Proof.
  split; [reflexivity|].
  pose proof (paginate_pages_cover [1; 2; 3; 4; 5] 2 ltac:(lia)) as Hcover.
  cbn zeta in Hcover. rewrite <- Hcover at 4. reflexivity.
Defined.

(** X8. With defaults that are themselves in range, [parsePaginationParams]
    always hands on a page of at least 1 and a limit between 1 and
    [maxLimit]: a missing parameter, one that [parseInt] cannot read
    ([NaN]) and one that reads as zero or as a negative number are each
    replaced by the default; a page of at least 1 and a limit between 1 and
    [maxLimit] are handed on as they are; and a larger limit is cut to
    [maxLimit]. *)
Theorem parsePaginationParams_in_range query defaultPage defaultLimit maxLimit :
  1 ≤ defaultPage → 1 ≤ defaultLimit ≤ maxLimit →
  let '(pageNo, perPage) :=
    parsePaginationParams query defaultPage defaultLimit maxLimit in
  1 ≤ pageNo ∧ 1 ≤ perPage ≤ maxLimit
  ∧ (queryPage query = None → pageNo = defaultPage)
  ∧ (queryLimit query = None → perPage = defaultLimit)
  ∧ (∀ n, parseIntParam (queryLimit query) = Js.Num n → maxLimit ≤ n →
       perPage = maxLimit)
  ∧ (parseIntParam (queryPage query) = Js.NaN → pageNo = defaultPage)
  ∧ (∀ n, parseIntParam (queryPage query) = Js.Num n → n ≤ 0 → pageNo = defaultPage)
  ∧ (∀ n, parseIntParam (queryPage query) = Js.Num n → 1 ≤ n → pageNo = n)
  ∧ (parseIntParam (queryLimit query) = Js.NaN → perPage = defaultLimit)
  ∧ (∀ n, parseIntParam (queryLimit query) = Js.Num n → n ≤ 0 → perPage = defaultLimit)
  ∧ (∀ n, parseIntParam (queryLimit query) = Js.Num n → 1 ≤ n ≤ maxLimit → perPage = n).
Proof.
  intros Hpage Hlimit. unfold parsePaginationParams.
  split; [|split; [|split; [|split; [|split; [|split; [|split; [|split; [|split;
    [|split]]]]]]]]].
  - destruct (parseIntParam (queryPage query)) as [|p]; [done|]. case_bool_decide; lia.
  - destruct (parseIntParam (queryLimit query)) as [|l]; [done|]. case_bool_decide; lia.
  - by intros ->.
  - by intros ->.
  - intros n -> Hn. case_bool_decide; lia.
  - by intros ->.
  - intros n -> Hn. by rewrite bool_decide_eq_true_2 by lia.
  - intros n -> Hn. by rewrite bool_decide_eq_false_2 by lia.
  - by intros ->.
  - intros n -> Hn. by rewrite bool_decide_eq_true_2 by lia.
  - intros n -> Hn. rewrite bool_decide_eq_false_2 by lia. lia.
Qed.

Lemma parsePaginationParams_in_range_witness :
  parsePaginationParams (mkQuery (Some "0") (Some "5000")) 1 20 1000 = (1, 1000)
  ∧ parsePaginationParams (mkQuery (Some "abc") (Some "-3")) 1 20 1000 = (1, 20)
  ∧ parsePaginationParams (mkQuery (Some "7") (Some "x")) 1 20 1000 = (7, 20)
  ∧ parsePaginationParams (mkQuery None (Some "0")) 1 20 1000 = (1, 20).
Proof.
  pose proof (parsePaginationParams_in_range (mkQuery (Some "0") (Some "5000")) 1 20 1000
                ltac:(lia) ltac:(lia)) as Hfirst.
  pose proof (parsePaginationParams_in_range (mkQuery (Some "abc") (Some "-3")) 1 20 1000
                ltac:(lia) ltac:(lia)) as Hsecond.
  pose proof (parsePaginationParams_in_range (mkQuery (Some "7") (Some "x")) 1 20 1000
                ltac:(lia) ltac:(lia)) as Hthird.
  pose proof (parsePaginationParams_in_range (mkQuery None (Some "0")) 1 20 1000
                ltac:(lia) ltac:(lia)) as Hfourth.
  split; [|split; [|split]].
  - destruct (parsePaginationParams (mkQuery (Some "0") (Some "5000")) 1 20 1000)
      as [pageNo perPage].
    destruct Hfirst as (_ & _ & _ & _ & Hcut & _ & Hzero & _).
    f_equal; [apply (Hzero 0); [reflexivity | lia] | apply (Hcut 5000); [reflexivity | lia]].
  - destruct (parsePaginationParams (mkQuery (Some "abc") (Some "-3")) 1 20 1000)
      as [pageNo perPage].
    destruct Hsecond as (_ & _ & _ & _ & _ & Hnan & _ & _ & _ & Hnegative & _).
    f_equal; [apply Hnan; reflexivity | apply (Hnegative (-3)); [reflexivity | lia]].
  - destruct (parsePaginationParams (mkQuery (Some "7") (Some "x")) 1 20 1000)
      as [pageNo perPage].
    destruct Hthird as (_ & _ & _ & _ & _ & _ & _ & Hkept & Hnan & _).
    f_equal; [apply (Hkept 7); [reflexivity | lia] | apply Hnan; reflexivity].
  - destruct (parsePaginationParams (mkQuery None (Some "0")) 1 20 1000)
      as [pageNo perPage].
    destruct Hfourth as (_ & _ & Hmissing & _ & _ & _ & _ & _ & _ & Hzero & _).
    f_equal; [apply Hmissing; reflexivity | apply (Hzero 0); [reflexivity | lia]].
Defined.

(** ** [models/trackStore.js]: lookups and bulk ingestion *)

Lemma trackMap_snoc tracks t :
  TrackStore.trackMap (tracks ++ [t]) = <[Track.id t := t]> (TrackStore.trackMap tracks).
Proof. unfold TrackStore.trackMap. by rewrite fold_left_app. Qed.

Lemma trackMap_lookup_Some tracks id t :
  TrackStore.trackMap tracks !! id = Some t → t ∈ tracks ∧ Track.id t = id.
Proof.
  induction tracks as [|x tracks IH] using rev_ind.
  - unfold TrackStore.trackMap. cbn. by rewrite lookup_empty.
  - rewrite trackMap_snoc. destruct (decide (Track.id x = id)) as [<-|Hne].
    + rewrite lookup_insert_eq. intros [= <-]. split; [|done].
      apply elem_of_app. right. apply list_elem_of_here.
    + rewrite lookup_insert_ne by done. intros Hl. destruct (IH Hl).
      split; [|done]. apply elem_of_app. by left.
Qed.

Lemma trackMap_lookup_is_Some tracks id :
  is_Some (TrackStore.trackMap tracks !! id) ↔ id ∈ storedIds tracks.
Proof.
  unfold storedIds. induction tracks as [|x tracks IH] using rev_ind.
  - unfold TrackStore.trackMap. cbn. rewrite lookup_empty, elem_of_nil.
    split; [by intros [? ?] | done].
  - rewrite trackMap_snoc, map_app, elem_of_app. cbn [map].
    rewrite list_elem_of_singleton.
    destruct (decide (Track.id x = id)) as [<-|Hne].
    + rewrite lookup_insert_eq. split; [by right | by eexists].
    + rewrite lookup_insert_ne by done. rewrite IH. split; [by left|].
      intros [?|?]; [done | congruence].
Qed.

Lemma omap_ids (m : gmap string Track.t) ids :
  (∀ id t, m !! id = Some t → Track.id t = id) →
  map Track.id (omap (λ id, m !! id) ids) = filter (λ id, is_Some (m !! id)) ids.
Proof.
  intros Hm. induction ids as [|id ids IH]; [done|].
  cbn [omap list_omap]. rewrite filter_cons.
  destruct (m !! id) as [t|] eqn:Ht.
  - rewrite decide_True by eauto. cbn [map]. by rewrite IH, (Hm id t Ht).
  - rewrite decide_False by (by intros [? ?]). exact IH.
Qed.

(** X9. [findByIds] answers in the order of the request and skips what is
    not stored: the ids of the tracks it returns are the requested ids that
    some stored track carries, in the order and multiplicity of the request;
    every returned track is a stored one.  It returns as many tracks as ids
    were asked for exactly when every requested id is stored. *)
Theorem findByIds_requested_order w tracks ids :
  stored TRACKS_FILE w = Some tracks →
  ∃ found,
    (TrackStore.findByIds ids w).1 = Ok found
    ∧ map Track.id found = filter (λ id, id ∈ storedIds tracks) ids
    ∧ (∀ t, t ∈ found → t ∈ tracks)
    ∧ (length found = length ids ↔ ∀ id, id ∈ ids → id ∈ storedIds tracks).
Proof.
  intros Hstored.
  unfold TrackStore.findByIds, TrackStore.getAllTracks, bind.
  rewrite loadAll_run, Hstored. cbn [ret fst].
  set (m := TrackStore.trackMap tracks).
  assert (Hm : ∀ id t, m !! id = Some t → Track.id t = id).
  { intros id t Ht. by destruct (trackMap_lookup_Some tracks id t Ht). }
  assert (Hids : map Track.id (omap (λ id, m !! id) ids)
                 = filter (λ id, id ∈ storedIds tracks) ids).
  { rewrite (omap_ids m ids Hm). apply list_filter_iff. intros id.
    apply trackMap_lookup_is_Some. }
  eexists. split; [reflexivity|]. split; [exact Hids|]. split.
  - intros t Ht. apply list_elem_of_omap in Ht as (id & _ & Hl).
    by destruct (trackMap_lookup_Some tracks id t Hl).
  - rewrite <- (length_map Track.id), Hids, filter_length_same, Forall_forall.
    reflexivity.
Qed.

Lemma findByIds_requested_order_witness :
  stored TRACKS_FILE libraryWorld = Some [starlight; hysteria; uprising]
  ∧ ∃ found, (TrackStore.findByIds ["t4"; "nope"; "t1"; "t4"] libraryWorld).1 = Ok found
      ∧ map Track.id found = ["t4"; "t1"; "t4"].
Proof.
  destruct (findByIds_requested_order libraryWorld [starlight; hysteria; uprising]
              ["t4"; "nope"; "t1"; "t4"] eq_refl) as (found & Hrun & Hids & _).
  split; [reflexivity|]. exists found. split; [exact Hrun|].
  rewrite Hids. by vm_compute.
Defined.

Section TrackKeys.
Context `{Platform}.

Lemma sameKey_trackKey artist name t :
  TrackStore.sameKey artist name t = true
  ↔ trackKey t = (toLowerCase artist, toLowerCase name).
Proof.
  unfold TrackStore.sameKey, trackKey.
  rewrite andb_true_iff, !bool_decide_eq_true. split; [by intros [-> ->] | by intros [= -> ->]].
Qed.

Lemma find_key_None artist name tracks :
  Js.find (TrackStore.sameKey artist name) tracks = None
  ↔ (toLowerCase artist, toLowerCase name) ∉ map trackKey tracks.
Proof.
  rewrite find_None, list_elem_of_fmap. split.
  - intros Hnone (t & Hkey & Hin). specialize (Hnone t Hin).
    symmetry in Hkey. apply sameKey_trackKey in Hkey. congruence.
  - intros Hnot t Hin. destruct (TrackStore.sameKey artist name t) eqn:E; [|done].
    exfalso. apply Hnot. exists t. split; [|done]. symmetry. by apply sameKey_trackKey.
Qed.

Lemma findByArtistAndName_run w tracks artist name :
  stored TRACKS_FILE w = Some tracks →
  (TrackStore.findByArtistAndName artist name w).1
  = Ok (Js.find (TrackStore.sameKey artist name) tracks).
Proof.
  intros Hstored.
  unfold TrackStore.findByArtistAndName, TrackStore.getAllTracks, bind.
  by rewrite loadAll_run, Hstored.
Qed.

(** X10. What [addTrack] returns can be looked up again: after
    [addTrack(track)], [findByArtistAndName] with the artist and track name
    in any case variant returns the very track that [addTrack] returned,
    whether it was newly stored or found as a duplicate. *)
Theorem addTrack_then_findByArtistAndName w tracks track artist name :
  stored TRACKS_FILE w = Some tracks →
  toLowerCase artist = toLowerCase (Track.artist track) →
  toLowerCase name = toLowerCase (Track.trackName track) →
  ∃ kept,
    (TrackStore.addTrack track w).1 = Ok kept
    ∧ (TrackStore.findByArtistAndName artist name (TrackStore.addTrack track w).2).1
      = Ok (Some kept).
Proof.
  intros Hstored Hartist Hname.
  assert (Hkey : TrackStore.sameKey artist name
                 = TrackStore.sameKey (Track.artist track) (Track.trackName track)).
  { unfold TrackStore.sameKey. by rewrite Hartist, Hname. }
  rewrite (trackStore_addTrack_run w tracks track Hstored).
  destruct (Js.find _ tracks) as [existing|] eqn:Hfind.
  - exists existing. split; [done|]. cbn [snd].
    rewrite (findByArtistAndName_run _ tracks) by done. by rewrite Hkey, Hfind.
  - exists track. split; [done|]. cbn [snd].
    rewrite (findByArtistAndName_run _ (tracks ++ [track])) by done.
    rewrite Hkey, (find_app_r _ tracks [track] Hfind). cbn.
    by rewrite sameKey_self.
Qed.

(** The loop of the bulk [addTracks]: the store only grows at its end, one
    result is produced per new track, and distinct keys stay distinct. *)
Lemma addTracksStep_fold newTracks tracks results :
  let st := fold_left TrackStore.addTracksStep newTracks (tracks, results) in
  (∃ added, st.1 = tracks ++ added ∧ (∀ t, t ∈ added → t ∈ newTracks))
  ∧ (∃ produced,
       st.2 = results ++ produced
       ∧ Forall2 (λ new kept, trackKey kept = trackKey new ∧ kept ∈ st.1)
           newTracks produced)
  ∧ (uniqueKeys tracks → uniqueKeys st.1).
Proof.
  revert tracks results.
  induction newTracks as [|new newTracks IH]; intros tracks results; cbn zeta.
  - cbn [fold_left fst snd]. split; [|split; [|done]].
    + exists []. by rewrite app_nil_r.
    + exists []. rewrite app_nil_r. split; [done | constructor].
  - cbn [fold_left].
    destruct (Js.find (TrackStore.sameKey (Track.artist new) (Track.trackName new)) tracks)
      as [existing|] eqn:Hfind.
    + assert (E : TrackStore.addTracksStep (tracks, results) new
                  = (tracks, results ++ [existing]))
        by (unfold TrackStore.addTracksStep; by rewrite Hfind).
      rewrite E.
      destruct (IH tracks (results ++ [existing])) as ((added & Hgrow & Hfrom) & Hres & Huniq).
      cbn zeta in *. destruct Hres as (produced & Hproduced & Hall).
      split; [|split; [|exact Huniq]].
      * exists added. split; [exact Hgrow|]. intros t Ht.
        apply list_elem_of_further. auto.
      * exists (existing :: produced). split; [by rewrite Hproduced, <- app_assoc|].
        constructor; [|exact Hall].
        destruct (find_Some _ _ _ Hfind) as [Hin Hk]. split.
        -- apply sameKey_trackKey in Hk. by rewrite Hk.
        -- rewrite Hgrow. apply elem_of_app. by left.
    + assert (E : TrackStore.addTracksStep (tracks, results) new
                  = (tracks ++ [new], results ++ [new]))
        by (unfold TrackStore.addTracksStep; by rewrite Hfind).
      rewrite E.
      destruct (IH (tracks ++ [new]) (results ++ [new]))
        as ((added & Hgrow & Hfrom) & Hres & Huniq).
      cbn zeta in *. destruct Hres as (produced & Hproduced & Hall).
      split; [|split].
      * exists (new :: added). split; [by rewrite Hgrow, <- app_assoc|].
        intros t Ht. apply elem_of_cons in Ht as [->|Ht];
          [apply list_elem_of_here | apply list_elem_of_further; auto].
      * exists (new :: produced). split; [by rewrite Hproduced, <- app_assoc|].
        constructor; [|exact Hall]. split; [done|].
        rewrite Hgrow. apply elem_of_app. left. apply elem_of_app. right.
        apply list_elem_of_here.
      * intros Hunique. apply Huniq. unfold uniqueKeys in *.
        rewrite map_app. apply NoDup_app. split; [done|]. split.
        -- intros key Hkey Hnew. cbn in Hnew. apply list_elem_of_singleton in Hnew.
           subst key. by apply find_key_None in Hfind.
        -- cbn. apply NoDup_singleton.
Qed.

(** X11. The bulk [addTracks] keeps what is stored and appends: the store
    afterwards is the old store followed by some of the new tracks; it
    returns one track per argument, in order, each with the key of its
    argument and each stored; and if no two stored tracks shared a
    case-insensitive (artist, trackName) key before, none do afterwards,
    even when the batch itself repeats a key. *)
Theorem addTracks_bulk_ingestion w tracks newTracks :
  stored TRACKS_FILE w = Some tracks →
  ∃ results final added,
    (TrackStore.addTracks newTracks w).1 = Ok results
    ∧ stored TRACKS_FILE (TrackStore.addTracks newTracks w).2 = Some final
    ∧ final = tracks ++ added
    ∧ (∀ t, t ∈ added → t ∈ newTracks)
    ∧ Forall2 (λ new kept, trackKey kept = trackKey new ∧ kept ∈ final) newTracks results
    ∧ (uniqueKeys tracks → uniqueKeys final).
Proof.
  intros Hstored.
  assert (Hrun : TrackStore.addTracks newTracks w =
            (Ok (fold_left TrackStore.addTracksStep newTracks (tracks, [])).2,
             setTracksJson
               (Present (JsonArray
                  (fold_left TrackStore.addTracksStep newTracks (tracks, [])).1))
               (record (WriteFile TRACKS) (record (ReadFile TRACKS) w)))).
  { unfold TrackStore.addTracks, TrackStore.getAllTracks, bind at 1.
    rewrite loadAll_run, Hstored.
    by destruct (fold_left TrackStore.addTracksStep newTracks (tracks, [])). }
  rewrite Hrun. cbn [fst snd].
  destruct (addTracksStep_fold newTracks tracks [])
    as ((added & Hgrow & Hfrom) & (produced & Hproduced & Hall) & Huniq).
  cbn zeta in *.
  destruct (fold_left TrackStore.addTracksStep newTracks (tracks, [])) as [final results].
  cbn [fst snd] in *. subst results.
  exists produced, final, added.
  split; [reflexivity|]. split; [reflexivity|]. split; [exact Hgrow|]. split; [exact Hfrom|].
  split; [exact Hall | exact Huniq].
Qed.

End TrackKeys.

Lemma addTrack_then_findByArtistAndName_witness :
  stored TRACKS_FILE emptyWorld = Some []
  ∧ (TrackStore.findByArtistAndName "MUSE" "starlight"
       (TrackStore.addTrack starlight emptyWorld).2).1 = Ok (Some starlight).
Proof.
  assert (Hartist : toLowerCase "MUSE" = toLowerCase (Track.artist starlight))
    by reflexivity.
  assert (Hname : toLowerCase "starlight" = toLowerCase (Track.trackName starlight))
    by reflexivity.
  destruct (addTrack_then_findByArtistAndName emptyWorld [] starlight "MUSE" "starlight"
              eq_refl Hartist Hname) as (kept & Hadd & Hfind).
  split; [reflexivity|]. rewrite Hfind. f_equal. f_equal.
  by injection Hadd.
Defined.

Lemma addTracks_bulk_ingestion_witness :
  stored TRACKS_FILE libraryWorld = Some [starlight; hysteria; uprising]
  ∧ (TrackStore.addTracks [starlightUpper; starlightUpper] libraryWorld).1
    = Ok [starlight; starlight]
  ∧ ∃ final,
      stored TRACKS_FILE (TrackStore.addTracks [starlightUpper; starlightUpper] libraryWorld).2
      = Some final
      ∧ uniqueKeys final.
Proof.
  destruct (addTracks_bulk_ingestion libraryWorld [starlight; hysteria; uprising]
              [starlightUpper; starlightUpper] eq_refl)
    as (results & final & added & Hrun & Hfinal & _ & _ & _ & Hunique).
  split; [reflexivity|]. split; [reflexivity|].
  exists final. split; [exact Hfinal|]. apply Hunique.
  unfold uniqueKeys. apply (bool_decide_eq_true_1 _). by vm_compute.
Defined.

Section TrackListing.
Context `{Platform}.

(** X12. [addTrack] keeps the dedup key unique: if no two stored tracks
    share a case-insensitive (artist, trackName) key before the call, none
    do after it. *)
Theorem addTrack_keeps_keys_unique w tracks track :
  stored TRACKS_FILE w = Some tracks →
  uniqueKeys tracks →
  ∃ final,
    stored TRACKS_FILE (TrackStore.addTrack track w).2 = Some final
    ∧ uniqueKeys final
    ∧ (final = tracks ∨ final = tracks ++ [track]).
Proof.
  intros Hstored Hunique.
  rewrite (trackStore_addTrack_run w tracks track Hstored).
  destruct (Js.find _ tracks) as [existing|] eqn:Hfind.
  - exists tracks. split; [exact Hstored|]. split; [exact Hunique | by left].
  - exists (tracks ++ [track]). split; [reflexivity|]. split; [|by right].
    unfold uniqueKeys in *. rewrite map_app. apply NoDup_app.
    split; [done|]. split; [|apply NoDup_singleton].
    intros key Hkey Hnew. cbn in Hnew. apply list_elem_of_singleton in Hnew. subst key.
    by apply find_key_None in Hfind.
Qed.

Lemma sortInsert_perm {A} (cmp : A → A → Js.number) x (sorted : list A) :
  Js.sortInsert cmp x sorted ≡ₚ x :: sorted.
Proof.
  induction sorted as [|y r IH]; [done|]. cbn [Js.sortInsert].
  destruct (Js.cmpPositive (cmp y x)); [done|].
  rewrite IH. apply Permutation_swap.
Qed.

Lemma sort_perm {A} (cmp : A → A → Js.number) (l : list A) : Js.sort cmp l ≡ₚ l.
Proof.
  unfold Js.sort.
  assert (Hgen : ∀ acc, fold_left (λ acc x, Js.sortInsert cmp x acc) l acc ≡ₚ acc ++ l).
  { induction l as [|x l IH]; intros acc; cbn [fold_left]; [by rewrite app_nil_r|].
    rewrite IH, sortInsert_perm. cbn [app]. apply Permutation_middle. }
  by rewrite Hgen.
Qed.

Lemma slice_as_window {A} (l : list A) start stop :
  ∃ k n, Js.slice l start stop = take n (drop k l).
Proof. unfold Js.slice. eauto. Qed.

Lemma getAll_run w tracks pageNo perPage search sort :
  stored TRACKS_FILE w = Some tracks →
  let chosen := if Js.truthy search then
                  filter (λ t, Is_true (TrackStore.matchesSearch (toLowerCase search) t))
                         tracks
                else tracks in
  let ordered := if bool_decide (sort = "newest")
                 then Js.sort TrackStore.byNewest chosen else chosen in
  (TrackStore.getAll pageNo perPage search sort w).1 =
    Ok (mkPaginated
          (Js.slice ordered ((pageNo - 1) * perPage) ((pageNo - 1) * perPage + perPage))
          (mkPagination pageNo perPage (Z.of_nat (length ordered))
             (Js.ceilDiv (Z.of_nat (length ordered)) perPage)
             (bool_decide (pageNo < Js.ceilDiv (Z.of_nat (length ordered)) perPage))
             (bool_decide (1 < pageNo)))).
Proof.
  intros Hstored chosen ordered.
  unfold TrackStore.getAll, TrackStore.getAllTracks, bind.
  by rewrite loadAll_run, Hstored.
Qed.

Lemma chosen_selected search tracks :
  (if Js.truthy search then
     filter (λ t, Is_true (TrackStore.matchesSearch (toLowerCase search) t)) tracks
   else tracks) = selected search tracks.
Proof.
  unfold selected, Js.truthy. destruct (bool_decide_reflect (search = "")) as [->|Hne].
  - cbn [negb]. symmetry. apply filter_all, Forall_forall. intros; by left.
  - cbn [negb]. apply list_filter_iff. intros t. split; [by right | by intros [?|?]].
Qed.

(** X13. [getAll] lists what the search selects: every track it returns is
    stored and, for a non-empty query, has the lower-cased query inside its
    lower-cased track name, artist or album; [total] counts all selected
    tracks whatever the page and the sort are; and unless the sort is
    [newest] the page keeps the order of the store. *)
Theorem getAll_lists_matches w tracks pageNo perPage search sort :
  stored TRACKS_FILE w = Some tracks →
  ∃ r,
    (TrackStore.getAll pageNo perPage search sort w).1 = Ok r
    ∧ (∀ t, t ∈ data r →
         t ∈ tracks
         ∧ (search ≠ "" →
            let q := toLowerCase search in
            Js.includes q (toLowerCase (Track.trackName t)) = true
            ∨ Js.includes q (toLowerCase (Track.artist t)) = true
            ∨ ∃ album, Track.album t = Some album
                       ∧ Js.includes q (toLowerCase album) = true))
    ∧ total (pagination r) = Z.of_nat (length (selected search tracks))
    ∧ (sort ≠ "newest" → sublist (data r) (selected search tracks)).
Proof.
  intros Hstored. eexists. split; [by apply getAll_run|].
  cbn [data pagination total]. rewrite chosen_selected.
  set (ordered := if bool_decide (sort = "newest")
                  then Js.sort TrackStore.byNewest (selected search tracks)
                  else selected search tracks).
  assert (Hperm : ordered ≡ₚ selected search tracks).
  { unfold ordered. case_bool_decide; [apply sort_perm | done]. }
  split; [|split].
  - intros t Ht.
    destruct (slice_as_window ordered ((pageNo - 1) * perPage)
                ((pageNo - 1) * perPage + perPage)) as (k & n & Hslice).
    rewrite Hslice in Ht. apply subseteq_take, subseteq_drop in Ht.
    rewrite Hperm in Ht. apply list_elem_of_filter in Ht as [Hsel Hin].
    split; [exact Hin|]. intros Hne. destruct Hsel as [?|Hmatch]; [done|].
    unfold TrackStore.matchesSearch in Hmatch.
    apply Is_true_true in Hmatch. rewrite !orb_true_iff in Hmatch.
    destruct Hmatch as [[?|?]|Halbum]; [by left | by right; left |].
    right; right. destruct (Track.album t) as [album|]; [|done].
    apply andb_true_iff in Halbum as [_ ?]. eauto.
  - by rewrite Hperm.
  - intros Hsort. unfold ordered. rewrite bool_decide_eq_false_2 by done.
    destruct (slice_as_window (selected search tracks) ((pageNo - 1) * perPage)
                ((pageNo - 1) * perPage + perPage)) as (k & n & Hslice).
    rewrite Hslice. etrans; [apply sublist_take | apply sublist_drop].
Qed.

End TrackListing.

Lemma addTrack_keeps_keys_unique_witness :
  uniqueKeys [starlight; hysteria; uprising]
  ∧ ∃ final,
      stored TRACKS_FILE (TrackStore.addTrack starlightUpper libraryWorld).2 = Some final
      ∧ uniqueKeys final.
Proof.
  assert (Hunique : uniqueKeys [starlight; hysteria; uprising]).
  { unfold uniqueKeys. apply (bool_decide_eq_true_1 _). by vm_compute. }
  destruct (addTrack_keeps_keys_unique libraryWorld [starlight; hysteria; uprising]
              starlightUpper eq_refl Hunique) as (final & Hfinal & Hkeys & _).
  split; [exact Hunique|]. exists final. split; [exact Hfinal | exact Hkeys].
Defined.

Lemma getAll_lists_matches_witness :
  stored TRACKS_FILE libraryWorld = Some [starlight; hysteria; uprising]
  ∧ ∃ r, (TrackStore.getAll 1 20 "RESIST" "" libraryWorld).1 = Ok r
      ∧ data r = [uprising]
      ∧ total (pagination r) = 1.
Proof.
  destruct (getAll_lists_matches libraryWorld [starlight; hysteria; uprising]
              1 20 "RESIST" "" eq_refl) as (r & Hrun & _ & Htotal & _).
  split; [reflexivity|]. exists r. split; [exact Hrun|]. split.
  - assert (E : (TrackStore.getAll 1 20 "RESIST" "" libraryWorld).1
                = Ok (mkPaginated [uprising] (mkPagination 1 20 1 1 false false)))
      by reflexivity.
    rewrite E in Hrun. by injection Hrun as <-.
  - rewrite Htotal. by vm_compute.
Defined.

Section NewestFirst.
Context `{Platform}.

Lemma dated_time t : dated t → Date_getTime (Track.createdAt t) = Js.Num (createdTime t).
Proof.
  unfold dated, createdTime. by destruct (Date_getTime (Track.createdAt t)).
Qed.

Lemma byNewest_positive y x :
  dated x → dated y →
  Js.cmpPositive (TrackStore.byNewest y x) = bool_decide (createdTime y < createdTime x).
Proof.
  intros Hx Hy. unfold TrackStore.byNewest.
  rewrite (dated_time x Hx), (dated_time y Hy). cbn.
  apply bool_decide_ext. lia.
Qed.

Lemma elem_of_sortInsert {A} (cmp : A → A → Js.number) x (sorted : list A) z :
  z ∈ Js.sortInsert cmp x sorted ↔ z = x ∨ z ∈ sorted.
Proof. by rewrite sortInsert_perm, elem_of_cons. Qed.

Lemma sortInsert_newest x sorted :
  dated x → Forall dated sorted →
  StronglySorted (λ a b, createdTime b ≤ createdTime a) sorted →
  StronglySorted (λ a b, createdTime b ≤ createdTime a)
    (Js.sortInsert TrackStore.byNewest x sorted).
Proof.
  intros Hx Hall Hsorted. induction Hsorted as [|y r Hr IH Hy]; cbn [Js.sortInsert].
  - repeat constructor.
  - apply Forall_cons in Hall as [Hdy Hdr].
    rewrite (byNewest_positive y x Hx Hdy). case_bool_decide as Hlt.
    + constructor; [by constructor|]. constructor; [lia|].
      eapply Forall_impl; [exact Hy|]. cbn. intros z Hz. lia.
    + constructor; [by apply IH|]. apply Forall_forall. intros z Hz.
      apply elem_of_sortInsert in Hz as [->|Hz]; [lia|].
      rewrite Forall_forall in Hy. by apply Hy.
Qed.

Lemma sort_newest tracks :
  Forall dated tracks →
  StronglySorted (λ a b, createdTime b ≤ createdTime a)
    (Js.sort TrackStore.byNewest tracks).
Proof.
  unfold Js.sort. intros Hall.
  assert (Hgen : ∀ acc, Forall dated acc →
            StronglySorted (λ a b, createdTime b ≤ createdTime a) acc →
            StronglySorted (λ a b, createdTime b ≤ createdTime a)
              (fold_left (λ acc x, Js.sortInsert TrackStore.byNewest x acc) tracks acc)).
  { induction Hall as [|x l Hx Hl IH]; intros acc Hacc Hsorted; cbn [fold_left]; [done|].
    apply IH.
    - apply Forall_forall. intros z Hz. apply elem_of_sortInsert in Hz as [->|Hz]; [done|].
      rewrite Forall_forall in Hacc. by apply Hacc.
    - by apply sortInsert_newest. }
  apply Hgen; constructor.
Qed.

Lemma StronglySorted_lookup {A} (R : relation A) l i j a b :
  StronglySorted R l → (i < j)%nat → l !! i = Some a → l !! j = Some b → R a b.
Proof.
  intros Hsorted. revert i j. induction Hsorted as [|x l Hl IH Hx]; intros i j Hij Hi Hj.
  - discriminate.
  - destruct j as [|j]; [lia|]. cbn in Hj. destruct i as [|i]; cbn in Hi.
    + injection Hi as ->. rewrite Forall_forall in Hx. apply Hx.
      apply list_elem_of_lookup. eauto.
    + apply (IH i j); [lia | done | done].
Qed.

(** X14. With [sort = 'newest'] and creation times that [Date] can read, a
    page of [getAll] is ordered newest first: of any two tracks on the page,
    the earlier one was created no earlier than the later one. *)
Theorem getAll_newest_first w tracks pageNo perPage search :
  stored TRACKS_FILE w = Some tracks →
  Forall dated tracks →
  ∃ r,
    (TrackStore.getAll pageNo perPage search "newest" w).1 = Ok r
    ∧ ∀ i j a b, (i < j)%nat → data r !! i = Some a → data r !! j = Some b →
        notOlder a b.
Proof.
  intros Hstored Hdated. eexists. split; [by apply getAll_run|].
  cbn [data]. rewrite chosen_selected. rewrite bool_decide_eq_true_2 by done.
  assert (Hsel : Forall dated (selected search tracks)).
  { apply Forall_forall. intros t Ht. apply list_elem_of_filter in Ht as [_ Ht].
    rewrite Forall_forall in Hdated. by apply Hdated. }
  pose proof (sort_newest _ Hsel) as Hsorted.
  assert (Hall : Forall dated (Js.sort TrackStore.byNewest (selected search tracks))).
  { apply Forall_forall. intros t Ht. rewrite sort_perm in Ht.
    rewrite Forall_forall in Hsel. by apply Hsel. }
  destruct (slice_as_window (Js.sort TrackStore.byNewest (selected search tracks))
              ((pageNo - 1) * perPage) ((pageNo - 1) * perPage + perPage))
    as (k & n & Hslice).
  rewrite Hslice. intros i j a b Hij Ha Hb.
  apply lookup_take_Some in Ha as [Ha _], Hb as [Hb _].
  rewrite lookup_drop in Ha, Hb.
  pose proof (StronglySorted_lookup _ _ (k + i)%nat (k + j)%nat a b Hsorted
                ltac:(lia) Ha Hb) as Horder.
  rewrite Forall_forall in Hall.
  assert (Hda : dated a) by (apply Hall, list_elem_of_lookup; eauto).
  assert (Hdb : dated b) by (apply Hall, list_elem_of_lookup; eauto).
  unfold notOlder. rewrite (dated_time a Hda), (dated_time b Hdb). cbn.
  by apply bool_decide_eq_true_2.
Qed.

End NewestFirst.

Lemma getAll_newest_first_witness :
  Forall dated [starlight; hysteria; uprising]
  ∧ createdTime starlight < createdTime hysteria < createdTime uprising
  ∧ ∃ r, (TrackStore.getAll 1 2 "" "newest" libraryWorld).1 = Ok r
      ∧ data r = [uprising; hysteria]
      ∧ notOlder uprising hysteria.
Proof.
  assert (Hdated : Forall dated [starlight; hysteria; uprising])
    by (repeat constructor; by vm_compute).
  destruct (getAll_newest_first libraryWorld [starlight; hysteria; uprising] 1 2 ""
              eq_refl Hdated) as (r & Hrun & Horder).
  assert (Hpage : ∃ pg, (TrackStore.getAll 1 2 "" "newest" libraryWorld).1
                        = Ok (mkPaginated [uprising; hysteria] pg))
    by (eexists; by vm_compute).
  destruct Hpage as [pg Hpage]. rewrite Hpage in Hrun. injection Hrun as <-.
  split; [exact Hdated|]. split; [by vm_compute|].
  eexists. split; [exact Hpage|]. split; [reflexivity|].
  apply (Horder 0%nat 1%nat); [lia | reflexivity | reflexivity].
Defined.

(** ** [models/playlistStore.js]: the operations on an owned playlist *)

Lemma create_run w playlists playlist :
  stored PLAYLISTS_FILE w = Some playlists →
  let created :=
    Playlist.mk (PlaylistStore.newId playlist) (PlaylistStore.newUserId playlist)
                (PlaylistStore.newName playlist) (PlaylistStore.newTrackIds playlist)
                (clock w) (clock w) in
  PlaylistStore.create playlist w =
    (Ok created,
     setPlaylistsJson (Present (JsonArray (playlists ++ [created])))
       (record (WriteFile PLAYLISTS) (record (ReadFile PLAYLISTS) w))).
Proof.
  intros Hstored created.
  unfold PlaylistStore.create, PlaylistStore.getAllPlaylists, bind.
  by rewrite loadAll_run, Hstored.
Qed.

Lemma update_run w playlists id userId i p updates :
  stored PLAYLISTS_FILE w = Some playlists →
  ownedAt playlists id userId i p →
  let updated :=
    Playlist.mk (Playlist.id p) (Playlist.userId p)
                (default (Playlist.name p) (PlaylistStore.updName updates))
                (default (Playlist.trackIds p) (PlaylistStore.updTrackIds updates))
                (Playlist.createdAt p) (clock w) in
  PlaylistStore.update id userId updates w =
    (Ok (Some updated),
     setPlaylistsJson (Present (JsonArray (<[i := updated]> playlists)))
       (record (WriteFile PLAYLISTS) (record (ReadFile PLAYLISTS) w))).
Proof.
  intros Hstored Howned. pose proof (ownedAt_findIndex _ _ _ _ _ Howned) as Hindex.
  destruct Howned as (Hi & _).
  unfold PlaylistStore.update, PlaylistStore.getAllPlaylists, bind at 1.
  rewrite loadAll_run, Hstored, Hindex.
  unfold bind, PlaylistStore.at_index. by rewrite Hi.
Qed.

Lemma remove_run w playlists id userId i p :
  stored PLAYLISTS_FILE w = Some playlists →
  ownedAt playlists id userId i p →
  PlaylistStore.remove id userId w =
    (Ok true,
     setPlaylistsJson (Present (JsonArray (delete i playlists)))
       (record (WriteFile PLAYLISTS) (record (ReadFile PLAYLISTS) w))).
Proof.
  intros Hstored Howned. pose proof (ownedAt_findIndex _ _ _ _ _ Howned) as Hindex.
  unfold PlaylistStore.remove, PlaylistStore.getAllPlaylists, bind at 1.
  by rewrite loadAll_run, Hstored, Hindex.
Qed.

Lemma removeTrack_run w playlists id userId i p trackId :
  stored PLAYLISTS_FILE w = Some playlists →
  ownedAt playlists id userId i p →
  let p' :=
    PlaylistStore.setUpdatedAt (clock w)
      (PlaylistStore.setTrackIds
         (filter (λ x, x ≠ trackId) (Playlist.trackIds p)) p) in
  PlaylistStore.removeTrack id userId trackId w =
    (Ok (Some p'),
     setPlaylistsJson (Present (JsonArray (<[i := p']> playlists)))
       (record (WriteFile PLAYLISTS) (record (ReadFile PLAYLISTS) w))).
Proof.
  intros Hstored Howned. pose proof (ownedAt_findIndex _ _ _ _ _ Howned) as Hindex.
  destruct Howned as (Hi & _).
  unfold PlaylistStore.removeTrack, PlaylistStore.getAllPlaylists, bind at 1.
  rewrite loadAll_run, Hstored, Hindex.
  unfold bind, PlaylistStore.at_index. by rewrite Hi.
Qed.

Lemma playlist_findById_run w playlists id :
  stored PLAYLISTS_FILE w = Some playlists →
  (PlaylistStore.findById id w).1
  = Ok (Js.find (λ p, bool_decide (Playlist.id p = id)) playlists).
Proof.
  intros Hstored.
  unfold PlaylistStore.findById, PlaylistStore.getAllPlaylists, bind.
  by rewrite loadAll_run, Hstored.
Qed.

(** X15. [create] appends the new playlist with both timestamps set to the
    current time and keeps every stored playlist in place; it checks
    neither the id nor the name.  When no stored playlist had the new id,
    [findById] returns the created playlist afterwards. *)
Theorem create_appends w playlists playlist :
  stored PLAYLISTS_FILE w = Some playlists →
  ∃ created,
    (PlaylistStore.create playlist w).1 = Ok created
    ∧ stored PLAYLISTS_FILE (PlaylistStore.create playlist w).2
      = Some (playlists ++ [created])
    ∧ Playlist.id created = PlaylistStore.newId playlist
    ∧ Playlist.userId created = PlaylistStore.newUserId playlist
    ∧ Playlist.name created = PlaylistStore.newName playlist
    ∧ Playlist.trackIds created = PlaylistStore.newTrackIds playlist
    ∧ Playlist.createdAt created = clock w
    ∧ Playlist.updatedAt created = clock w
    ∧ ((∀ p, p ∈ playlists → Playlist.id p ≠ PlaylistStore.newId playlist) →
       (PlaylistStore.findById (PlaylistStore.newId playlist)
          (PlaylistStore.create playlist w).2).1 = Ok (Some created)).
Proof.
  intros Hstored. rewrite (create_run w playlists playlist Hstored).
  set (created := Playlist.mk (PlaylistStore.newId playlist)
                    (PlaylistStore.newUserId playlist) (PlaylistStore.newName playlist)
                    (PlaylistStore.newTrackIds playlist) (clock w) (clock w)).
  exists created. split; [reflexivity|]. split; [reflexivity|].
  do 6 (split; [reflexivity|]).
  intros Hfresh. cbn [snd].
  rewrite (playlist_findById_run _ (playlists ++ [created])) by reflexivity.
  rewrite find_app_r.
  - cbn. by rewrite bool_decide_eq_true_2.
  - apply find_None. intros p Hp. apply bool_decide_eq_false_2. by apply Hfresh.
Qed.

Lemma create_appends_witness :
  stored PLAYLISTS_FILE playlistWorld = Some [samplePlaylist]
  ∧ ∃ created,
      (PlaylistStore.create (PlaylistStore.mkNewPlaylist "p2" "u1" "Rock" []) playlistWorld).1
      = Ok created
      ∧ (PlaylistStore.findById "p2"
           (PlaylistStore.create (PlaylistStore.mkNewPlaylist "p2" "u1" "Rock" [])
              playlistWorld).2).1 = Ok (Some created).
Proof.
  destruct (create_appends playlistWorld [samplePlaylist]
              (PlaylistStore.mkNewPlaylist "p2" "u1" "Rock" []) eq_refl)
    as (created & Hrun & _ & _ & _ & _ & _ & _ & _ & Hfind).
  split; [reflexivity|]. exists created. split; [exact Hrun|].
  apply Hfind. intros p Hp. apply list_elem_of_singleton in Hp. by subst p.
Defined.

(** X16. [update] on an owned playlist replaces the name and the track ids
    that the caller supplies, stores the track ids exactly as given, and
    stamps [updatedAt]; the id, the owner and [createdAt] never change, the
    playlist keeps its position, and every other stored playlist is
    untouched. *)
Theorem update_changes_only_allowed_fields w playlists id userId i p updates :
  stored PLAYLISTS_FILE w = Some playlists →
  ownedAt playlists id userId i p →
  ∃ updated after,
    (PlaylistStore.update id userId updates w).1 = Ok (Some updated)
    ∧ stored PLAYLISTS_FILE (PlaylistStore.update id userId updates w).2 = Some after
    ∧ after !! i = Some updated
    ∧ (∀ j, j ≠ i → after !! j = playlists !! j)
    ∧ length after = length playlists
    ∧ Playlist.id updated = Playlist.id p
    ∧ Playlist.userId updated = Playlist.userId p
    ∧ Playlist.createdAt updated = Playlist.createdAt p
    ∧ Playlist.updatedAt updated = clock w
    ∧ Playlist.name updated = default (Playlist.name p) (PlaylistStore.updName updates)
    ∧ Playlist.trackIds updated
      = default (Playlist.trackIds p) (PlaylistStore.updTrackIds updates).
Proof.
  intros Hstored Howned.
  rewrite (update_run w playlists id userId i p updates Hstored Howned).
  destruct Howned as (Hi & _).
  set (updated := Playlist.mk (Playlist.id p) (Playlist.userId p)
                    (default (Playlist.name p) (PlaylistStore.updName updates))
                    (default (Playlist.trackIds p) (PlaylistStore.updTrackIds updates))
                    (Playlist.createdAt p) (clock w)).
  exists updated, (<[i := updated]> playlists).
  split; [reflexivity|]. split; [reflexivity|]. split.
  { apply list_lookup_insert_eq. by apply lookup_lt_Some in Hi. }
  split; [intros j Hj; by apply list_lookup_insert_ne|].
  split; [apply length_insert|]. by repeat split.
Qed.

Lemma update_changes_only_allowed_fields_witness :
  ownedAt [samplePlaylist] "p1" "u1" 0 samplePlaylist
  ∧ ∃ updated,
      (PlaylistStore.update "p1" "u1"
         (PlaylistStore.mkUpdates None (Some ["B"; "B"; "A"])) playlistWorld).1
      = Ok (Some updated)
      ∧ Playlist.trackIds updated = ["B"; "B"; "A"]
      ∧ Playlist.name updated = "Mix"
      ∧ Playlist.createdAt updated = "2024-01-01T00:00:00.000Z".
Proof.
  assert (Howned : ownedAt [samplePlaylist] "p1" "u1" 0 samplePlaylist).
  { repeat split. intros j q Hj. lia. }
  destruct (update_changes_only_allowed_fields playlistWorld [samplePlaylist] "p1" "u1" 0
              samplePlaylist (PlaylistStore.mkUpdates None (Some ["B"; "B"; "A"]))
              eq_refl Howned)
    as (updated & after & Hrun & _ & _ & _ & _ & _ & _ & Hcreated & _ & Hname & Hids).
  split; [exact Howned|]. exists updated.
  split; [exact Hrun|]. split; [exact Hids|]. split; [exact Hname | exact Hcreated].
Defined.

Lemma not_owned_after_delete playlists id userId i p :
  ownedAt playlists id userId i p →
  NoDup (map Playlist.id playlists) →
  ∀ q, q ∈ delete i playlists → Playlist.id q ≠ id.
Proof.
  intros (Hi & Hid & _) Hnodup q Hq Hsame.
  rewrite <- (take_drop_middle playlists i p Hi) in Hnodup.
  rewrite delete_take_drop in Hq.
  rewrite map_app in Hnodup. cbn [map] in Hnodup.
  apply NoDup_app in Hnodup as (_ & Hleft & Hright).
  apply NoDup_cons in Hright as [Hnotin _].
  apply elem_of_app in Hq as [Hq|Hq].
  - apply (Hleft (Playlist.id q)).
    + apply list_elem_of_fmap. eauto.
    + rewrite Hsame, <- Hid. apply list_elem_of_here.
  - apply Hnotin. rewrite Hid, <- Hsame. apply list_elem_of_fmap. eauto.
Qed.

(** X17. [remove] on an owned playlist deletes that one entry and nothing
    else: the stored collection is the old one without the entry at its
    position, so it is one shorter and the remaining playlists keep their
    order.  When playlist ids are unique, no playlist with the id remains
    and a second [remove] answers [false]. *)
Theorem remove_deletes_one w playlists id userId i p :
  stored PLAYLISTS_FILE w = Some playlists →
  ownedAt playlists id userId i p →
  let after := (PlaylistStore.remove id userId w).2 in
  (PlaylistStore.remove id userId w).1 = Ok true
  ∧ stored PLAYLISTS_FILE after = Some (delete i playlists)
  ∧ S (length (delete i playlists)) = length playlists
  ∧ sublist (delete i playlists) playlists
  ∧ (NoDup (map Playlist.id playlists) →
       (∀ q, q ∈ delete i playlists → Playlist.id q ≠ id)
       ∧ (PlaylistStore.remove id userId after).1 = Ok false).
Proof.
  intros Hstored Howned after. subst after.
  rewrite (remove_run w playlists id userId i p Hstored Howned). cbn [fst snd].
  assert (Hafter : stored PLAYLISTS_FILE
            (setPlaylistsJson (Present (JsonArray (delete i playlists)))
               (record (WriteFile PLAYLISTS) (record (ReadFile PLAYLISTS) w)))
            = Some (delete i playlists)) by reflexivity.
  split; [done|]. split; [exact Hafter|]. split.
  { destruct Howned as (Hi & _). apply lookup_lt_Some in Hi.
    rewrite length_delete; [lia|]. by apply lookup_lt_is_Some. }
  split; [apply sublist_delete|].
  intros Hnodup. pose proof (not_owned_after_delete _ _ _ _ _ Howned Hnodup) as Hgone.
  split; [exact Hgone|].
  unfold PlaylistStore.remove, PlaylistStore.getAllPlaylists, bind.
  rewrite loadAll_run, Hafter, not_owned_anywhere; [done|].
  intros q Hq [Hid _]. by apply (Hgone q Hq).
Qed.

Lemma remove_deletes_one_witness :
  ownedAt [samplePlaylist] "p1" "u1" 0 samplePlaylist
  ∧ NoDup (map Playlist.id [samplePlaylist])
  ∧ stored PLAYLISTS_FILE (PlaylistStore.remove "p1" "u1" playlistWorld).2 = Some []
  ∧ (PlaylistStore.remove "p1" "u1" (PlaylistStore.remove "p1" "u1" playlistWorld).2).1
    = Ok false.
Proof.
  assert (Howned : ownedAt [samplePlaylist] "p1" "u1" 0 samplePlaylist).
  { repeat split. intros j q Hj. lia. }
  assert (Hnodup : NoDup (map Playlist.id [samplePlaylist])).
  { apply NoDup_singleton. }
  destruct (remove_deletes_one playlistWorld [samplePlaylist] "p1" "u1" 0 samplePlaylist
              eq_refl Howned) as (_ & Hafter & _ & _ & Hunique).
  destruct (Hunique Hnodup) as [_ Hagain].
  split; [exact Howned|]. split; [exact Hnodup|]. split; [exact Hafter | exact Hagain].
Defined.

Lemma ownedAt_insert playlists id userId i p p' :
  ownedAt playlists id userId i p →
  Playlist.id p' = id → Playlist.userId p' = userId →
  ownedAt (<[i := p']> playlists) id userId i p'.
Proof.
  intros (Hi & _ & _ & Hfirst) Hid Huser. split; [|split; [done|split; [done|]]].
  - apply list_lookup_insert_eq. by apply lookup_lt_Some in Hi.
  - intros j q Hj Hq. rewrite list_lookup_insert_ne in Hq by lia. by apply (Hfirst j).
Qed.

Lemma filter_remove_appended (ids : list string) trackId :
  trackId ∉ ids → filter (λ x, x ≠ trackId) (ids ++ [trackId]) = ids.
Proof.
  intros Hnot. rewrite filter_app, filter_cons_False, filter_nil, app_nil_r by tauto.
  apply filter_all, Forall_forall. intros x Hx ->. done.
Qed.

(** X18. [removeTrack] on an owned playlist drops every occurrence of the
    track id and keeps the other ids in their order.  It stamps [updatedAt]
    and writes the file on every call, also when the id was not in the
    playlist and the track ids stay as they were. *)
Theorem removeTrack_filters_and_stamps w playlists id userId i p trackId :
  stored PLAYLISTS_FILE w = Some playlists →
  ownedAt playlists id userId i p →
  ∃ p',
    (PlaylistStore.removeTrack id userId trackId w).1 = Ok (Some p')
    ∧ stored PLAYLISTS_FILE (PlaylistStore.removeTrack id userId trackId w).2
      = Some (<[i := p']> playlists)
    ∧ Playlist.trackIds p' = filter (λ x, x ≠ trackId) (Playlist.trackIds p)
    ∧ (trackId ∉ Playlist.trackIds p')
    ∧ sublist (Playlist.trackIds p') (Playlist.trackIds p)
    ∧ (trackId ∉ Playlist.trackIds p → Playlist.trackIds p' = Playlist.trackIds p)
    ∧ Playlist.updatedAt p' = clock w
    ∧ events (PlaylistStore.removeTrack id userId trackId) w
      = [ReadFile PLAYLISTS; WriteFile PLAYLISTS].
Proof.
  intros Hstored Howned.
  pose proof (removeTrack_run w playlists id userId i p trackId Hstored Howned) as Hrun.
  cbn zeta in Hrun. rewrite Hrun.
  set (p' := PlaylistStore.setUpdatedAt (clock w)
               (PlaylistStore.setTrackIds
                  (filter (λ x, x ≠ trackId) (Playlist.trackIds p)) p)).
  exists p'. split; [reflexivity|]. split; [reflexivity|]. split; [reflexivity|].
  split; [|split; [|split; [|split]]].
  - cbn. rewrite list_elem_of_filter. tauto.
  - apply sublist_filter.
  - intros Hnot. cbn. apply filter_all, Forall_forall. by intros x Hx ->.
  - reflexivity.
  - apply events_of_trace. rewrite Hrun. cbn. by rewrite <- app_assoc.
Qed.

Lemma removeTrack_filters_and_stamps_witness :
  ownedAt [samplePlaylist] "p1" "u1" 0 samplePlaylist
  ∧ ∃ p', (PlaylistStore.removeTrack "p1" "u1" "Z" playlistWorld).1 = Ok (Some p')
      ∧ Playlist.trackIds p' = ["A"; "B"]
      ∧ Playlist.updatedAt p' = "2025-01-01T00:00:00.000Z"
      ∧ events (PlaylistStore.removeTrack "p1" "u1" "Z") playlistWorld
        = [ReadFile PLAYLISTS; WriteFile PLAYLISTS].
Proof.
  assert (Howned : ownedAt [samplePlaylist] "p1" "u1" 0 samplePlaylist).
  { repeat split. intros j q Hj. lia. }
  destruct (removeTrack_filters_and_stamps playlistWorld [samplePlaylist] "p1" "u1" 0
              samplePlaylist "Z" eq_refl Howned)
    as (p' & Hrun & _ & _ & _ & _ & Hsame & Hstamp & Hevents).
  split; [exact Howned|]. exists p'. split; [exact Hrun|]. split.
  - apply Hsame. apply (bool_decide_eq_false_1 _). by vm_compute.
  - split; [exact Hstamp | exact Hevents].
Defined.

(** X19. Adding a track that is not in the playlist and then removing it
    gives back the track ids the playlist had: [removeTrack] undoes
    [addTrack]. *)
Theorem addTrack_then_removeTrack w playlists id userId i p trackId :
  stored PLAYLISTS_FILE w = Some playlists →
  ownedAt playlists id userId i p →
  trackId ∉ Playlist.trackIds p →
  let added := (PlaylistStore.addTrack id userId trackId w).2 in
  ∃ p',
    (PlaylistStore.removeTrack id userId trackId added).1 = Ok (Some p')
    ∧ Playlist.trackIds p' = Playlist.trackIds p
    ∧ Playlist.name p' = Playlist.name p
    ∧ stored PLAYLISTS_FILE (PlaylistStore.removeTrack id userId trackId added).2
      = Some (<[i := p']> playlists).
Proof.
  intros Hstored Howned Hnot added. subst added.
  pose proof (playlist_addTrack_run w playlists id userId i p trackId Hstored Howned) as Hadd.
  rewrite bool_decide_eq_false_2 in Hadd by done. cbn zeta in Hadd. rewrite Hadd.
  cbn [snd].
  set (p1 := PlaylistStore.setUpdatedAt (clock w)
               (PlaylistStore.setTrackIds (Playlist.trackIds p ++ [trackId]) p)).
  set (w1 := setPlaylistsJson (Present (JsonArray (<[i := p1]> playlists)))
               (record (WriteFile PLAYLISTS) (record (ReadFile PLAYLISTS) w))).
  assert (Hstored1 : stored PLAYLISTS_FILE w1 = Some (<[i := p1]> playlists))
    by reflexivity.
  assert (Howned1 : ownedAt (<[i := p1]> playlists) id userId i p1).
  { apply (ownedAt_insert _ _ _ _ p); [done| |]; cbn; by destruct Howned as (_ & ? & ? & _). }
  pose proof (removeTrack_run w1 _ id userId i p1 trackId Hstored1 Howned1) as Hremove.
  cbn zeta in Hremove. rewrite Hremove.
  eexists. split; [reflexivity|]. split; [|split; [reflexivity|]].
  - cbn. by apply filter_remove_appended.
  - cbn [snd]. unfold stored. cbn. by rewrite list_insert_insert_eq.
Qed.

Lemma addTrack_then_removeTrack_witness :
  ownedAt [samplePlaylist] "p1" "u1" 0 samplePlaylist
  ∧ ("C" ∉ Playlist.trackIds samplePlaylist)
  ∧ ∃ p',
      (PlaylistStore.removeTrack "p1" "u1" "C"
         (PlaylistStore.addTrack "p1" "u1" "C" playlistWorld).2).1 = Ok (Some p')
      ∧ Playlist.trackIds p' = ["A"; "B"].
Proof.
  assert (Howned : ownedAt [samplePlaylist] "p1" "u1" 0 samplePlaylist).
  { repeat split. intros j q Hj. lia. }
  assert (Hnot : "C" ∉ Playlist.trackIds samplePlaylist).
  { apply (bool_decide_eq_false_1 _). by vm_compute. }
  destruct (addTrack_then_removeTrack playlistWorld [samplePlaylist] "p1" "u1" 0
              samplePlaylist "C" eq_refl Howned Hnot) as (p' & Hrun & Hids & _).
  split; [exact Howned|]. split; [exact Hnot|]. exists p'. split; [exact Hrun | exact Hids].
Defined.

(** X20. [addTrack] on an owned playlist puts the track id at the end when
    it is absent and changes nothing when it is present, so the id occurs
    afterwards and a playlist without duplicates stays without duplicates;
    the track ids are those [addTracks] yields for the one-element list; and
    a second call with the same id returns the same playlist and leaves the
    file as it is. *)
Theorem addTrack_appends_once w playlists id userId i p trackId :
  stored PLAYLISTS_FILE w = Some playlists →
  ownedAt playlists id userId i p →
  let first := PlaylistStore.addTrack id userId trackId w in
  ∃ p',
    first.1 = Ok (Some p')
    ∧ (trackId ∈ Playlist.trackIds p → p' = p)
    ∧ (trackId ∉ Playlist.trackIds p →
         Playlist.trackIds p' = Playlist.trackIds p ++ [trackId]
         ∧ Playlist.updatedAt p' = clock w)
    ∧ trackId ∈ Playlist.trackIds p'
    ∧ (NoDup (Playlist.trackIds p) → NoDup (Playlist.trackIds p'))
    ∧ (∃ q, (PlaylistStore.addTracks id userId [trackId] w).1 = Ok (Some q)
            ∧ Playlist.trackIds q = Playlist.trackIds p')
    ∧ (PlaylistStore.addTrack id userId trackId first.2).1 = Ok (Some p')
    ∧ playlistsJson (PlaylistStore.addTrack id userId trackId first.2).2
      = playlistsJson first.2.
Proof.
  intros Hstored Howned first. subst first.
  pose proof (playlist_addTrack_run w playlists id userId i p trackId Hstored Howned) as Hadd.
  pose proof (playlist_addTracks_run w playlists id userId i p [trackId] Hstored Howned)
    as Hbulk.
  cbn zeta in Hbulk. cbn [fold_left] in Hbulk.
  unfold PlaylistStore.pushIfAbsent, Js.arrayIncludes in Hbulk.
  destruct (bool_decide_reflect (trackId ∈ Playlist.trackIds p)) as [Hin|Hnot].
  - rewrite Hadd. cbn [fst snd]. exists p.
    split; [done|]. split; [done|]. split; [done|]. split; [done|]. split; [done|].
    split; [rewrite Hbulk; cbn [negb]; eauto|].
    pose proof (playlist_addTrack_run (record (ReadFile PLAYLISTS) w) playlists id userId
                  i p trackId Hstored Howned) as Hagain.
    rewrite bool_decide_eq_true_2 in Hagain by done. by rewrite Hagain.
  - cbn zeta in Hadd. rewrite Hadd. cbn [fst snd].
    set (p' := PlaylistStore.setUpdatedAt (clock w)
                 (PlaylistStore.setTrackIds (Playlist.trackIds p ++ [trackId]) p)).
    set (w1 := setPlaylistsJson (Present (JsonArray (<[i := p']> playlists)))
                 (record (WriteFile PLAYLISTS) (record (ReadFile PLAYLISTS) w))).
    exists p'. split; [done|]. split; [done|]. split; [done|]. split.
    { cbn. apply elem_of_app. right. apply list_elem_of_here. }
    split.
    { intros Hnodup. cbn. apply NoDup_app. split; [done|]. split; [|apply NoDup_singleton].
      intros x Hx Hsingle. apply list_elem_of_singleton in Hsingle. by subst x. }
    split; [rewrite Hbulk; cbn [negb]; eauto|].
    assert (Howned1 : ownedAt (<[i := p']> playlists) id userId i p').
    { apply (ownedAt_insert _ _ _ _ p); [done| |]; cbn;
        by destruct Howned as (_ & ? & ? & _). }
    pose proof (playlist_addTrack_run w1 _ id userId i p' trackId eq_refl Howned1)
      as Hagain.
    rewrite bool_decide_eq_true_2 in Hagain
      by (cbn; apply elem_of_app; right; apply list_elem_of_here).
    by rewrite Hagain.
Qed.

Lemma addTrack_appends_once_witness :
  ownedAt [samplePlaylist] "p1" "u1" 0 samplePlaylist
  ∧ ∃ p', (PlaylistStore.addTrack "p1" "u1" "C" playlistWorld).1 = Ok (Some p')
      ∧ Playlist.trackIds p' = ["A"; "B"; "C"]
      ∧ (PlaylistStore.addTrack "p1" "u1" "C"
           (PlaylistStore.addTrack "p1" "u1" "C" playlistWorld).2).1 = Ok (Some p').
Proof.
  assert (Howned : ownedAt [samplePlaylist] "p1" "u1" 0 samplePlaylist).
  { repeat split. intros j q Hj. lia. }
  destruct (addTrack_appends_once playlistWorld [samplePlaylist] "p1" "u1" 0
              samplePlaylist "C" eq_refl Howned)
    as (p' & Hrun & _ & Hnew & _ & _ & _ & Hagain & _).
  split; [exact Howned|]. exists p'. split; [exact Hrun|]. split; [|exact Hagain].
  apply Hnew. apply (bool_decide_eq_false_1 _). by vm_compute.
Defined.

(** ** [models/playlistStore.js]: other owners *)

Lemma filter_insert_outside {A} (P : A → Prop) `{!∀ x, Decision (P x)} (l : list A) i x y :
  l !! i = Some x → ¬ P x → ¬ P y → filter P (<[i := y]> l) = filter P l.
Proof.
  revert i. induction l as [|z l IH]; intros i Hi Hx Hy; [done|].
  destruct i as [|i]; cbn in Hi.
  - injection Hi as ->. change (<[0%nat := y]> (x :: l)) with (y :: l).
    by rewrite !filter_cons_False.
  - change (<[S i := y]> (z :: l)) with (z :: <[i := y]> l).
    by rewrite !filter_cons, (IH i Hi Hx Hy).
Qed.

Lemma filter_delete_outside {A} (P : A → Prop) `{!∀ x, Decision (P x)} (l : list A) i x :
  l !! i = Some x → ¬ P x → filter P (delete i l) = filter P l.
Proof.
  revert i. induction l as [|z l IH]; intros i Hi Hx; [done|].
  destruct i as [|i]; cbn in Hi.
  - injection Hi as ->. change (delete 0%nat (x :: l)) with l.
    by rewrite filter_cons_False.
  - change (delete (S i) (z :: l)) with (z :: delete i l).
    by rewrite !filter_cons, (IH i Hi Hx).
Qed.

Lemma findIndex_ownedAt playlists id userId i :
  Js.findIndex (PlaylistStore.owned id userId) playlists = Some i →
  ∃ p, ownedAt playlists id userId i p.
Proof.
  intros Hindex. destruct (findIndex_Some _ _ _ Hindex) as (p & Hp & Howned & Hfirst).
  exists p. unfold PlaylistStore.owned in Howned.
  apply andb_true_iff in Howned as [Hid Huser].
  apply bool_decide_eq_true in Hid, Huser.
  split; [done|]. split; [done|]. split; [done|].
  intros j q Hj Hq [Hqid Hquser]. specialize (Hfirst j q Hj Hq).
  unfold PlaylistStore.owned in Hfirst. by rewrite !bool_decide_eq_true_2 in Hfirst.
Qed.

(** Either the operation finds nothing and only reads, or it acts on the
    playlist [ownedAt] describes. *)
Lemma owned_or_not w playlists id userId :
  stored PLAYLISTS_FILE w = Some playlists →
  Js.findIndex (PlaylistStore.owned id userId) playlists = None
  ∨ ∃ i p, ownedAt playlists id userId i p.
Proof.
  intros _. destruct (Js.findIndex _ playlists) as [i|] eqn:Hindex; [right | by left].
  destruct (findIndex_ownedAt _ _ _ _ Hindex) as (p & Hp). eauto.
Qed.

Lemma keeps_others_insert userId playlists i p p' (v : World) :
  playlists !! i = Some p → Playlist.userId p = userId → Playlist.userId p' = userId →
  stored PLAYLISTS_FILE v = Some (<[i := p']> playlists) →
  ∃ after, stored PLAYLISTS_FILE v = Some after
           ∧ othersOf userId after = othersOf userId playlists.
Proof.
  intros Hi Hp Hp' Hv. exists (<[i := p']> playlists). split; [done|].
  unfold othersOf. apply (filter_insert_outside _ _ i p p'); [done| |]; tauto.
Qed.

(** X21. No ownership-checked operation touches what belongs to someone
    else: after [update], [remove], [addTrack], [addTracks] or [removeTrack]
    issued for [userId], the playlists of every other owner are stored as
    before, in the same order, whether or not the operation found its
    target. *)
Theorem mutations_keep_other_owners w id userId :
  (∀ updates, KeepsOthers (PlaylistStore.update id userId updates) userId w)
  ∧ KeepsOthers (PlaylistStore.remove id userId) userId w
  ∧ (∀ trackId, KeepsOthers (PlaylistStore.addTrack id userId trackId) userId w)
  ∧ (∀ trackIds, KeepsOthers (PlaylistStore.addTracks id userId trackIds) userId w)
  ∧ (∀ trackId, KeepsOthers (PlaylistStore.removeTrack id userId trackId) userId w).
Proof.
  assert (Hmiss : ∀ playlists, stored PLAYLISTS_FILE w = Some playlists →
            ∃ after, stored PLAYLISTS_FILE (record (ReadFile PLAYLISTS) w) = Some after
                     ∧ othersOf userId after = othersOf userId playlists)
    by (intros playlists Hstored; by exists playlists).
  split; [|split; [|split; [|split]]].
  - intros updates playlists Hstored.
    destruct (owned_or_not w playlists id userId Hstored) as [Hnone|(i & p & Howned)].
    + unfold PlaylistStore.update, PlaylistStore.getAllPlaylists, bind.
      rewrite loadAll_run, Hstored, Hnone. by apply Hmiss.
    + rewrite (update_run w playlists id userId i p updates Hstored Howned).
      destruct Howned as (Hi & _ & Huser & _).
      eapply (keeps_others_insert userId playlists i p); last first;
        [reflexivity | cbn; exact Huser | exact Huser | exact Hi].
  - intros playlists Hstored.
    destruct (owned_or_not w playlists id userId Hstored) as [Hnone|(i & p & Howned)].
    + unfold PlaylistStore.remove, PlaylistStore.getAllPlaylists, bind.
      rewrite loadAll_run, Hstored, Hnone. by apply Hmiss.
    + rewrite (remove_run w playlists id userId i p Hstored Howned).
      destruct Howned as (Hi & _ & Huser & _).
      exists (delete i playlists). split; [done|].
      unfold othersOf. apply (filter_delete_outside _ _ i p); [done | tauto].
  - intros trackId playlists Hstored.
    destruct (owned_or_not w playlists id userId Hstored) as [Hnone|(i & p & Howned)].
    + unfold PlaylistStore.addTrack, PlaylistStore.getAllPlaylists, bind.
      rewrite loadAll_run, Hstored, Hnone. by apply Hmiss.
    + rewrite (playlist_addTrack_run w playlists id userId i p trackId Hstored Howned).
      destruct Howned as (Hi & _ & Huser & _).
      case_bool_decide; [by apply Hmiss|].
      eapply (keeps_others_insert userId playlists i p); last first;
        [reflexivity | cbn; exact Huser | exact Huser | exact Hi].
  - intros trackIds playlists Hstored.
    destruct (owned_or_not w playlists id userId Hstored) as [Hnone|(i & p & Howned)].
    + unfold PlaylistStore.addTracks, PlaylistStore.getAllPlaylists, bind.
      rewrite loadAll_run, Hstored, Hnone. by apply Hmiss.
    + rewrite (playlist_addTracks_run w playlists id userId i p trackIds Hstored Howned).
      destruct Howned as (Hi & _ & Huser & _).
      eapply (keeps_others_insert userId playlists i p); last first;
        [reflexivity | cbn; exact Huser | exact Huser | exact Hi].
  - intros trackId playlists Hstored.
    destruct (owned_or_not w playlists id userId Hstored) as [Hnone|(i & p & Howned)].
    + unfold PlaylistStore.removeTrack, PlaylistStore.getAllPlaylists, bind.
      rewrite loadAll_run, Hstored, Hnone. by apply Hmiss.
    + rewrite (removeTrack_run w playlists id userId i p trackId Hstored Howned).
      destruct Howned as (Hi & _ & Huser & _).
      eapply (keeps_others_insert userId playlists i p); last first;
        [reflexivity | cbn; exact Huser | exact Huser | exact Hi].
Qed.

Lemma mutations_keep_other_owners_witness :
  ∃ after,
    stored PLAYLISTS_FILE (PlaylistStore.remove "p1" "u1" twoOwners).2 = Some after
    ∧ othersOf "u1" after
      = [Playlist.mk "p9" "u2" "Jazz" ["X"]
                     "2023-05-05T00:00:00.000Z" "2023-05-05T00:00:00.000Z"].
Proof.
  destruct (mutations_keep_other_owners twoOwners "p1" "u1") as (_ & Hremove & _).
  destruct (Hremove _ eq_refl) as (after & Hafter & Hothers).
  exists after. split; [exact Hafter|]. rewrite Hothers. by vm_compute.
Defined.

(** X22. [getByUserId] lists one owner's playlists only: every playlist on
    the page is stored and belongs to [userId], the page keeps the order of
    the store, and [total] counts all playlists of that owner, whatever page
    is asked for. *)
Theorem getByUserId_lists_own w playlists userId pageNo perPage :
  stored PLAYLISTS_FILE w = Some playlists →
  ∃ r,
    (PlaylistStore.getByUserId userId pageNo perPage w).1 = Ok r
    ∧ (∀ p, p ∈ data r → p ∈ playlists ∧ Playlist.userId p = userId)
    ∧ sublist (data r) playlists
    ∧ total (pagination r)
      = Z.of_nat (length (filter (λ p, Playlist.userId p = userId) playlists)).
Proof.
  intros Hstored.
  unfold PlaylistStore.getByUserId, PlaylistStore.getAllPlaylists, bind.
  rewrite loadAll_run, Hstored. cbn [ret fst].
  eexists. split; [reflexivity|]. cbn [data pagination total].
  set (own := filter (λ p, Playlist.userId p = userId) playlists).
  destruct (slice_as_window own ((pageNo - 1) * perPage)
              ((pageNo - 1) * perPage + perPage)) as (k & n & Hslice).
  rewrite Hslice. split; [|split; [|done]].
  - intros p Hp. apply subseteq_take, subseteq_drop in Hp.
    apply list_elem_of_filter in Hp as [Hown Hin]. done.
  - etrans; [apply sublist_take|]. etrans; [apply sublist_drop|]. apply sublist_filter.
Qed.

Lemma getByUserId_lists_own_witness :
  ∃ r, (PlaylistStore.getByUserId "u1" 1 20 twoOwners).1 = Ok r
    ∧ data r = [samplePlaylist]
    ∧ total (pagination r) = 1.
Proof.
  destruct (getByUserId_lists_own twoOwners _ "u1" 1 20 eq_refl)
    as (r & Hrun & _ & _ & Htotal).
  exists r. split; [exact Hrun|]. split; [|by rewrite Htotal].
  assert (E : (PlaylistStore.getByUserId "u1" 1 20 twoOwners).1
              = Ok (mkPaginated [samplePlaylist] (mkPagination 1 20 1 1 false false)))
    by reflexivity.
  rewrite E in Hrun. by injection Hrun as <-.
Defined.

(** ** Route handlers: reading *)

Lemma sameState_trans u v w : sameState u v → sameState v w → sameState u w.
Proof.
  intros (A1 & A2 & A3 & A4 & A5 & A6) (B1 & B2 & B3 & B4 & B5 & B6).
  repeat split; congruence.
Qed.

Lemma readOnly_ret {A} (a : A) : ReadOnly (ret a).
Proof.
  intros w. split; [apply sameState_refl|].
  exists []. split; [by rewrite app_nil_r | constructor].
Qed.

Lemma readOnly_throw {A} e : ReadOnly (@throw A e).
Proof.
  intros w. split; [apply sameState_refl|].
  exists []. split; [by rewrite app_nil_r | constructor].
Qed.

Lemma readOnly_bind {A B} (m : M A) (k : A → M B) :
  ReadOnly m → (∀ a, ReadOnly (k a)) → ReadOnly (bind m k).
Proof.
  intros Hm Hk w. unfold bind. destruct (Hm w) as (Hs & es & Ht & Hq).
  destruct (m w) as [[a|e] v]; cbn [fst snd] in *.
  - destruct (Hk a v) as (Hs' & es' & Ht' & Hq'). split.
    + by eapply sameState_trans.
    + exists (es ++ es'). split; [by rewrite Ht', Ht, app_assoc | by apply Forall_app].
  - split; [done|]. by exists es.
Qed.

Lemma readOnly_tryCatch {A} (m : M A) (h : JsError → M A) :
  ReadOnly m → (∀ e, ReadOnly (h e)) → ReadOnly (tryCatch m h).
Proof.
  intros Hm Hh w. unfold tryCatch. destruct (Hm w) as (Hs & es & Ht & Hq).
  destruct (m w) as [[a|e] v]; cbn [fst snd] in *.
  - split; [done|]. by exists es.
  - destruct (Hh e v) as (Hs' & es' & Ht' & Hq'). split.
    + by eapply sameState_trans.
    + exists (es ++ es'). split; [by rewrite Ht', Ht, app_assoc | by apply Forall_app].
Qed.

Lemma readOnly_probe {A} (m : M A) (e : Event) :
  isQuery e → (∀ w, (m w).2 = record e w) → ReadOnly m.
Proof.
  intros He Hm w. rewrite Hm. split; [by apply sameState_record, sameState_refl|].
  exists [e]. split; [reflexivity | by constructor].
Qed.

Lemma readOnly_loadAll {A} (file : JsonFile A) : ReadOnly (loadAll file).
Proof.
  apply (readOnly_probe _ (ReadFile (fileId file))); [done|].
  intros w. by rewrite loadAll_run.
Qed.

Lemma readOnly_existsSync path : ReadOnly (existsSync path).
Proof. by apply (readOnly_probe _ (ExistsSync path)). Qed.

Lemma readOnly_statSync path : ReadOnly (TracksRoute.statSync path).
Proof.
  apply (readOnly_probe _ (StatSync path)); [done|].
  intros w. unfold TracksRoute.statSync. by destruct (disk w !! path) as [[]|].
Qed.

Lemma readOnly_openStream path range : ReadOnly (TracksRoute.openStream path range).
Proof.
  apply (readOnly_probe _ (CreateReadStream path)); [done|].
  intros w. unfold TracksRoute.openStream. by destruct (disk w !! path) as [[]|].
Qed.

Lemma readOnly_createReadStream path range : ReadOnly (TracksRoute.createReadStream path range).
Proof.
  unfold TracksRoute.createReadStream.
  destruct range as [[[|first] [|last]]|];
    try apply readOnly_throw; try apply readOnly_openStream.
  destruct (_ && _); [apply readOnly_openStream | apply readOnly_throw].
Qed.

Lemma readOnly_mapM {A B} (f : A → M B) (l : list A) :
  (∀ x, ReadOnly (f x)) → ReadOnly (mapM f l).
Proof.
  intros Hf. induction l as [|x l IH]; cbn; [apply readOnly_ret|].
  apply readOnly_bind; [apply Hf|]. intros y.
  apply readOnly_bind; [apply IH|]. intros ys. apply readOnly_ret.
Qed.

Ltac read_only :=
  repeat first
    [ apply readOnly_ret
    | apply readOnly_throw
    | apply readOnly_loadAll
    | apply readOnly_existsSync
    | apply readOnly_statSync
    | apply readOnly_createReadStream
    | apply readOnly_bind; [|intros ?]
    | apply readOnly_tryCatch; [|intros ?]
    | apply readOnly_mapM; intros ?
    | match goal with
      | |- ReadOnly (match ?x with _ => _ end) => destruct x
      end ].


(** ** [GET /tracks/:id/stream]: refusals *)

Section StreamRefusals.
Context `{Platform}.
Variable songs : string.

Lemma streamBody_run id range w tracks :
  stored TRACKS_FILE w = Some tracks →
  TracksRoute.streamBody songs id range w =
    match Js.find (λ t, bool_decide (Track.id t = id)) tracks with
    | None =>
        (Ok (TracksRoute.jsonError 404 "TRACK_NOT_FOUND" "Track not found"),
         record (ReadFile TRACKS) w)
    | Some track =>
        if negb (from_option Js.truthy false (Track.filePath track)) then
          (Ok (TracksRoute.jsonError 404 "FILE_NOT_FOUND" "Audio file not available"),
           record (ReadFile TRACKS) w)
        else
          match resolveTrackPath songs (Track.filePath track) (record (ReadFile TRACKS) w) with
          | (Ok None, v) =>
              (Ok (TracksRoute.jsonError 404 "FILE_NOT_FOUND"
                     "Audio file not found on server"), v)
          | (Ok (Some filePath), v) => TracksRoute.serveFile filePath range v
          | (Throw e, v) => (Throw e, v)
          end
    end.
Proof.
  intros Hstored.
  unfold TracksRoute.streamBody, TrackStore.findById, TrackStore.getAllTracks.
  unfold bind at 1 2. rewrite loadAll_run, Hstored. cbn [ret].
  destruct (Js.find _ tracks) as [track|]; [|reflexivity].
  destruct (negb _); [reflexivity|].
  unfold bind.
  by destruct (resolveTrackPath songs (Track.filePath track) _) as [[[filePath|]|e] v].
Qed.

(** X24. The refusals of [GET /tracks/:id/stream].  When [tracks.json]
    cannot be loaded the answer is 500.  Otherwise an id that no stored
    track has gives 404 [TRACK_NOT_FOUND]; a track without a file path
    gives 404 [FILE_NOT_FOUND] after the one read of [tracks.json]; and a
    track whose path is on disk in none of its three forms gives 404
    [FILE_NOT_FOUND] after exactly three existence probes.  In none of
    these cases is a file examined or opened. *)
Theorem getStream_refusals id range w :
  let reply := (TracksRoute.getStream songs id range w).1 in
  let asked := events (TracksRoute.getStream songs id range) w in
  let found tracks := Js.find (λ t, bool_decide (Track.id t = id)) tracks in
  (stored TRACKS_FILE w = None →
     reply = Ok (TracksRoute.jsonError 500 "INTERNAL_ERROR" "Failed to stream track")
     ∧ asked = [ReadFile TRACKS])
  ∧ (∀ tracks, stored TRACKS_FILE w = Some tracks → found tracks = None →
       reply = Ok (TracksRoute.jsonError 404 "TRACK_NOT_FOUND" "Track not found")
       ∧ asked = [ReadFile TRACKS])
  ∧ (∀ tracks track, stored TRACKS_FILE w = Some tracks → found tracks = Some track →
       Track.filePath track = None ∨ Track.filePath track = Some "" →
       reply = Ok (TracksRoute.jsonError 404 "FILE_NOT_FOUND" "Audio file not available")
       ∧ asked = [ReadFile TRACKS])
  ∧ (∀ tracks track relative,
       stored TRACKS_FILE w = Some tracks → found tracks = Some track →
       Track.filePath track = Some relative → relative ≠ "" →
       ¬ onDisk w (path_join songs relative) →
       ¬ onDisk w (path_join songs (normalize NFC relative)) →
       ¬ onDisk w (path_join songs (normalize NFD relative)) →
       reply = Ok (TracksRoute.jsonError 404 "FILE_NOT_FOUND"
                     "Audio file not found on server")
       ∧ asked = [ReadFile TRACKS;
                  ExistsSync (path_join songs relative);
                  ExistsSync (path_join songs (normalize NFC relative));
                  ExistsSync (path_join songs (normalize NFD relative))]).
Proof.
  intros reply asked found. subst reply asked found. cbn beta.
  split; [|split; [|split]].
  - intros Hstored.
    assert (TracksRoute.getStream songs id range w
            = (Ok (TracksRoute.jsonError 500 "INTERNAL_ERROR" "Failed to stream track"),
               record (ReadFile TRACKS) w)) as E.
    { unfold TracksRoute.getStream, tryCatch, TracksRoute.streamBody,
        TrackStore.findById, TrackStore.getAllTracks, bind.
      by rewrite loadAll_run, Hstored. }
    split; [by rewrite E|]. apply events_of_trace. by rewrite E.
  - intros tracks Hstored Hfind.
    assert (TracksRoute.getStream songs id range w
            = (Ok (TracksRoute.jsonError 404 "TRACK_NOT_FOUND" "Track not found"),
               record (ReadFile TRACKS) w)) as E.
    { unfold TracksRoute.getStream, bind, tryCatch.
      by rewrite (streamBody_run _ _ _ _ Hstored), Hfind. }
    split; [by rewrite E|]. apply events_of_trace. by rewrite E.
  - intros tracks track Hstored Hfind Hpath.
    assert (TracksRoute.getStream songs id range w
            = (Ok (TracksRoute.jsonError 404 "FILE_NOT_FOUND" "Audio file not available"),
               record (ReadFile TRACKS) w)) as E.
    { unfold TracksRoute.getStream, bind, tryCatch.
      rewrite (streamBody_run _ _ _ _ Hstored), Hfind.
      by destruct Hpath as [-> | ->]. }
    split; [by rewrite E|]. apply events_of_trace. by rewrite E.
  - intros tracks track relative Hstored Hfind Hpath Hne Horiginal Hnfc Hnfd.
    assert (TracksRoute.getStream songs id range w
            = (Ok (TracksRoute.jsonError 404 "FILE_NOT_FOUND"
                     "Audio file not found on server"),
               record (ExistsSync (path_join songs (normalize NFD relative)))
                 (record (ExistsSync (path_join songs (normalize NFC relative)))
                    (record (ExistsSync (path_join songs relative))
                       (record (ReadFile TRACKS) w))))) as E.
    { unfold TracksRoute.getStream, bind, tryCatch.
      rewrite (streamBody_run _ _ _ _ Hstored), Hfind, Hpath.
      cbn [from_option]. unfold Js.truthy at 1.
      rewrite (bool_decide_eq_false_2 (relative = "")) by done. cbn [negb].
      rewrite resolveTrackPath_run by done. cbn beta iota zeta delta [disk record].
      repeat case_decide; done. }
    split; [by rewrite E|]. apply events_of_trace. rewrite E. cbn [snd].
    by rewrite !trace_record, <- !app_assoc.
Qed.

End StreamRefusals.

Lemma getStream_refusals_witness :
  (TracksRoute.getStream "/songs" "t3" None libraryWorld).1
  = Ok (TracksRoute.jsonError 404 "FILE_NOT_FOUND" "Audio file not available")
  ∧ (TracksRoute.getStream "/songs" "t1" None libraryWorld).1
    = Ok (TracksRoute.jsonError 404 "FILE_NOT_FOUND" "Audio file not found on server")
  ∧ (TracksRoute.getStream "/songs" "t1" None emptyWorld).1
    = Ok (TracksRoute.jsonError 404 "TRACK_NOT_FOUND" "Track not found")
  ∧ (TracksRoute.getStream "/songs" "t1" None
       (setTracksJson (Present (Garbage "{")) emptyWorld)).1
    = Ok (TracksRoute.jsonError 500 "INTERNAL_ERROR" "Failed to stream track").
Proof.
  split; [|split; [|split]].
  - destruct (getStream_refusals "/songs" "t3" None libraryWorld) as (_ & _ & Hno & _).
    apply (Hno [starlight; hysteria; uprising] hysteria); [reflexivity | reflexivity | by left].
  - destruct (getStream_refusals "/songs" "t1" None libraryWorld) as (_ & _ & _ & Hgone).
    apply (Hgone [starlight; hysteria; uprising] starlight "Muse - Starlight.m4a");
      [reflexivity | reflexivity | reflexivity | discriminate | | | ];
      apply (bool_decide_eq_false_1 _); by vm_compute.
  - destruct (getStream_refusals "/songs" "t1" None emptyWorld) as (_ & Hunknown & _).
    apply (Hunknown []); reflexivity.
  - destruct (getStream_refusals "/songs" "t1" None
                (setTracksJson (Present (Garbage "{")) emptyWorld)) as (Hload & _).
    apply Hload. reflexivity.
Defined.

Section ReadingHandlers.
Context `{Platform}.
Variable songs : string.

Lemma readOnly_resolveTrackPath filePath : ReadOnly (resolveTrackPath songs filePath).
Proof. unfold resolveTrackPath. read_only. Qed.

Lemma readOnly_getTrackFileSize track : ReadOnly (TrackFiles.getTrackFileSize songs track).
Proof. unfold TrackFiles.getTrackFileSize. read_only. Qed.

Lemma readOnly_pipe response : ReadOnly (TracksRoute.pipe response).
Proof. unfold TracksRoute.pipe. read_only. Qed.

(** X23. The five [GET] handlers modelled here ([/tracks], [/tracks/:id],
    [/tracks/:id/stream], [/playlists], [/playlists/:id]) only read,
    whatever becomes of the request: the four JSON files, the songs
    directory and the clock are unchanged, and no write was asked of the
    file system.  That holds also when the stream handler does not answer
    at all: nothing listens for the ['error'] event of the stream it pipes,
    so for a track whose path resolves to a directory a request without
    [Range] header ends in an [EISDIR] error that escapes the handler,
    after the directory was examined and opened. *)
Theorem get_handlers_only_read :
  (∀ query search sort, ReadOnly (TrackFiles.listTracks songs query search sort))
  ∧ (∀ id, ReadOnly (TrackFiles.getTrack songs id))
  ∧ (∀ id range, ReadOnly (TracksRoute.getStream songs id range))
  ∧ (∀ userId query, ReadOnly (PlaylistsRoute.listPlaylists userId query))
  ∧ (∀ userId id trackPage trackLimit,
       ReadOnly (PlaylistsRoute.getPlaylist userId id trackPage trackLimit))
  ∧ (∀ id w tracks track relative size,
       stored TRACKS_FILE w = Some tracks →
       Js.find (λ t, bool_decide (Track.id t = id)) tracks = Some track →
       Track.filePath track = Some relative →
       relative ≠ "" →
       disk w !! path_join songs relative = Some (Directory size) →
       (TracksRoute.getStream songs id None w).1 = Throw (mkError "Error" (Some "EISDIR"))
       ∧ events (TracksRoute.getStream songs id None) w
         = [ReadFile TRACKS;
            ExistsSync (path_join songs relative);
            StatSync (path_join songs relative);
            CreateReadStream (path_join songs relative)]).
Proof.
  split; [|split; [|split; [|split; [|split]]]].
  - intros query search sort.
    unfold TrackFiles.listTracks, TrackFiles.withFileSizes, TrackStore.getAll,
      TrackStore.getAllTracks.
    read_only. apply readOnly_getTrackFileSize.
  - intros id.
    unfold TrackFiles.getTrack, TrackStore.findById, TrackStore.getAllTracks.
    read_only. apply readOnly_getTrackFileSize.
  - intros id range.
    unfold TracksRoute.getStream, TracksRoute.streamBody, TrackStore.findById,
      TrackStore.getAllTracks.
    read_only; try apply readOnly_resolveTrackPath; try apply readOnly_pipe;
      unfold TracksRoute.serveFile; read_only.
  - intros userId query.
    unfold PlaylistsRoute.listPlaylists, PlaylistStore.getByUserId,
      PlaylistStore.getAllPlaylists.
    read_only.
  - intros userId id trackPage trackLimit.
    unfold PlaylistsRoute.getPlaylist, PlaylistStore.findById,
      PlaylistStore.getAllPlaylists, TrackStore.findByIds, TrackStore.getAllTracks.
    read_only.
  - intros id w tracks track relative size Hstored Hfind Hpath Hne Hfolder.
    set (folder := path_join songs relative) in *.
    assert (TracksRoute.getStream songs id None w
            = (Throw (mkError "Error" (Some "EISDIR")),
               record (CreateReadStream folder)
                 (record (StatSync folder)
                    (record (ExistsSync folder) (record (ReadFile TRACKS) w))))) as E.
    { unfold TracksRoute.getStream, bind, tryCatch.
      rewrite (streamBody_run songs id None w tracks Hstored), Hfind, Hpath.
      cbn [from_option]. unfold Js.truthy at 1.
      rewrite (bool_decide_eq_false_2 (relative = "")) by done. cbn [negb].
      rewrite resolveTrackPath_run by done. cbn beta iota zeta delta [disk record].
      fold folder. rewrite decide_True by (by rewrite Hfolder).
      unfold TracksRoute.serveFile, bind, TracksRoute.statSync,
        TracksRoute.createReadStream, TracksRoute.openStream.
      cbn beta iota delta [disk record]. rewrite Hfolder.
      cbn beta iota delta [disk record]. rewrite Hfolder. reflexivity. }
    split; [by rewrite E|]. apply events_of_trace. rewrite E. cbn [snd].
    by rewrite !trace_record, <- !app_assoc.
Qed.

End ReadingHandlers.

Lemma get_handlers_only_read_witness :
  (TracksRoute.getStream "/songs" "t7" None folderWorld).1
  = Throw (mkError "Error" (Some "EISDIR"))
  ∧ sameState folderWorld (TracksRoute.getStream "/songs" "t7" None folderWorld).2.
Proof.
  destruct (get_handlers_only_read "/songs") as (_ & _ & Hstream & _ & _ & Hfolder).
  split.
  - apply (Hfolder "t7" folderWorld [folderTrack] folderTrack "live" 4096);
      [reflexivity | reflexivity | reflexivity | discriminate | by vm_compute].
  - apply (Hstream "t7" None folderWorld).
Defined.

(** ** [GET /tracks/:id]: the reported file size *)

Section FileSizes.
Context `{Platform}.
Variable songs : string.

Lemma getTrackFileSize_run track relative v :
  Track.filePath track = Some relative → relative ≠ "" →
  (TrackFiles.getTrackFileSize songs (Some track) v).1 =
    Ok match disk v !! path_join songs relative with
       | Some (RegularFile bytes) => Some (Z.of_nat (length bytes))
       | Some (Directory size) => Some size
       | None => None
       end.
Proof.
  intros Hpath Hne. unfold TrackFiles.getTrackFileSize. rewrite Hpath.
  unfold Js.truthy. rewrite (bool_decide_eq_false_2 (relative = "")) by done.
  cbn [negb]. unfold tryCatch, bind, TracksRoute.statSync.
  by destruct (disk v !! path_join songs relative) as [[bytes|size]|].
Qed.

Lemma getTrack_run id w tracks track size :
  stored TRACKS_FILE w = Some tracks →
  Js.find (λ t, bool_decide (Track.id t = id)) tracks = Some track →
  (TrackFiles.getTrackFileSize songs (Some track) (record (ReadFile TRACKS) w)).1 = Ok size →
  (TrackFiles.getTrack songs id w).1
  = Ok (TrackFiles.TrackDetail (Some (TrackFiles.mkSized track size))).
Proof.
  intros Hstored Hfind Hsize.
  unfold TrackFiles.getTrack, tryCatch, TrackStore.findById, TrackStore.getAllTracks.
  unfold bind at 1 2. rewrite loadAll_run, Hstored. cbn [ret]. rewrite Hfind.
  unfold TrackFiles.withFileSize, bind. change (fileId TRACKS_FILE) with TRACKS.
  destruct (TrackFiles.getTrackFileSize songs (Some track) (record (ReadFile TRACKS) w))
    as [[size'|e] v]; cbn [fst] in Hsize; [|discriminate].
  by injection Hsize as ->.
Qed.

(** X25. The file size that [GET /tracks/:id] reports is looked up at the
    stored path only, while the stream handler also tries the NFC and NFD
    forms of that path.  So for a track that the stream handler serves in
    full, with [Content-Length] the size of the file: the metadata reports
    that same size when the file is at the stored path, and reports no
    size ([null]) when the file was found under a normalised form. *)
Theorem fileSize_ignores_normal_forms id w tracks track relative filePath bytes :
  stored TRACKS_FILE w = Some tracks →
  Js.find (λ t, bool_decide (Track.id t = id)) tracks = Some track →
  Track.filePath track = Some relative →
  relative ≠ "" →
  (resolveTrackPath songs (Some relative) w).1 = Ok (Some filePath) →
  disk w !! filePath = Some (RegularFile bytes) →
  let fileSize := Z.of_nat (length bytes) in
  (TracksRoute.getStream songs id None w).1
  = Ok (TracksRoute.mkResponse 200
          (fullHeaders fileSize (TracksRoute.mimeTypeOf filePath))
          (TracksRoute.Stream bytes))
  ∧ (TrackFiles.getTrack songs id w).1
    = Ok (TrackFiles.TrackDetail
            (Some (TrackFiles.mkSized track
                     (if decide (filePath = path_join songs relative)
                      then Some fileSize else None)))).
Proof.
  intros Hstored Hfind Hpath Hne Hresolve Hfile fileSize.
  assert (servesFile songs id w filePath bytes) as Hserves.
  { by exists tracks, track, relative. }
  split.
  - rewrite getStream_of_body.
    destruct (streamBody_serves songs id None w filePath bytes Hserves) as (u & Hdisk & ->).
    rewrite <- Hdisk in Hfile. by rewrite (serveFile_full filePath bytes u Hfile).
  - apply (getTrack_run id w tracks track _ Hstored Hfind).
    rewrite (getTrackFileSize_run track relative _ Hpath Hne).
    cbn beta iota delta [disk record].
    case_decide as Hsame.
    + subst filePath. by rewrite Hfile.
    + rewrite resolveTrackPath_run in Hresolve by done.
      cbn zeta in Hresolve. case_decide as Hon.
      * cbn [fst] in Hresolve. congruence.
      * destruct (disk w !! path_join songs relative) as [node|] eqn:E; [|reflexivity].
        exfalso. apply Hon. by exists node.
Qed.

End FileSizes.

Lemma fileSize_ignores_normal_forms_witness :
  (TrackFiles.getTrack "/songs" "t9" decomposedLibrary).1
  = Ok (TrackFiles.TrackDetail (Some (TrackFiles.mkSized cafe None)))
  ∧ (TrackFiles.getTrack "/songs" "t1" streamWorld).1
    = Ok (TrackFiles.TrackDetail (Some (TrackFiles.mkSized starlight (Some 1000)))).
Proof.
  assert (length thousandBytes = 1000%nat) as Hlen by by vm_compute.
  split.
  - destruct (fileSize_ignores_normal_forms "/songs" "t9" decomposedLibrary
                [cafe] cafe cafeNFC ("/songs/" +:+ cafeNFD) thousandBytes)
      as [_ Hreply]; [reflexivity | reflexivity | reflexivity | discriminate
                     | by vm_compute | by vm_compute |].
    rewrite Hreply. rewrite decide_False; [reflexivity|]. by vm_compute.
  - destruct (fileSize_ignores_normal_forms "/songs" "t1" streamWorld
                [starlight] starlight "Muse - Starlight.m4a"
                "/songs/Muse - Starlight.m4a" thousandBytes)
      as [_ Hreply]; [reflexivity | reflexivity | reflexivity | discriminate
                     | by vm_compute | by vm_compute |].
    rewrite Hreply, Hlen. by rewrite decide_True by reflexivity.
Defined.

(** ** Playlist routes: strangers *)

Lemma unowned_run w playlists id userId :
  stored PLAYLISTS_FILE w = Some playlists →
  Js.findIndex (PlaylistStore.owned id userId) playlists = None →
  let v := record (ReadFile PLAYLISTS) w in
  (∀ updates, PlaylistStore.update id userId updates w = (Ok None, v))
  ∧ PlaylistStore.remove id userId w = (Ok false, v)
  ∧ (∀ trackId, PlaylistStore.addTrack id userId trackId w = (Ok None, v))
  ∧ (∀ trackIds, PlaylistStore.addTracks id userId trackIds w = (Ok None, v))
  ∧ (∀ trackId, PlaylistStore.removeTrack id userId trackId w = (Ok None, v)).
Proof.
  intros Hstored Hindex v.
  split; [|split; [|split; [|split]]]; intros;
    unfold PlaylistStore.update, PlaylistStore.remove, PlaylistStore.addTrack,
      PlaylistStore.addTracks, PlaylistStore.removeTrack,
      PlaylistStore.getAllPlaylists, bind;
    by rewrite loadAll_run, Hstored, Hindex.
Qed.


Lemma findByUserIdAndName_run `{Platform} userId name w playlists :
  stored PLAYLISTS_FILE w = Some playlists →
  PlaylistStore.findByUserIdAndName userId name w =
    (Ok (Js.find
           (λ p, bool_decide (Playlist.userId p = userId)
                 && bool_decide (toLowerCase (Playlist.name p) = toLowerCase name))
           playlists),
     record (ReadFile PLAYLISTS) w).
Proof.
  intros Hstored.
  unfold PlaylistStore.findByUserIdAndName, PlaylistStore.getAllPlaylists, bind.
  by rewrite loadAll_run, Hstored.
Qed.

Lemma track_findByIds_run `{Platform} ids w :
  TrackStore.findByIds ids w =
    (match stored TRACKS_FILE w with
     | Some tracks => Ok (tracksOf tracks ids)
     | None => Throw (loadError (tracksJson w))
     end,
     record (ReadFile TRACKS) w).
Proof.
  unfold TrackStore.findByIds, TrackStore.getAllTracks, bind. rewrite loadAll_run.
  by destruct (stored TRACKS_FILE w).
Qed.

Lemma track_findById_run `{Platform} id w :
  TrackStore.findById id w =
    (match stored TRACKS_FILE w with
     | Some tracks => Ok (Js.find (λ t, bool_decide (Track.id t = id)) tracks)
     | None => Throw (loadError (tracksJson w))
     end,
     record (ReadFile TRACKS) w).
Proof.
  unfold TrackStore.findById, TrackStore.getAllTracks, bind. rewrite loadAll_run.
  by destruct (stored TRACKS_FILE w).
Qed.



Section Strangers.
Context `{Platform}.


End Strangers.


(** ** [GET /playlists/:id]: the page of tracks *)

Lemma parseIntOr_nonzero value fallback :
  fallback ≠ 0 → PlaylistsRoute.parseIntOr value fallback ≠ 0.
Proof.
  intros Hfallback. unfold PlaylistsRoute.parseIntOr.
  destruct (parseIntParam value) as [|z]; [done|]. by case_bool_decide.
Qed.

Lemma slice_negative_end {A} (l : list A) k :
  0 < k → Js.slice l 0 (- k) = take (length l - Z.to_nat k) l.
Proof.
  intros Hk. unfold Js.slice, Js.relativeIndex.
  rewrite (bool_decide_eq_false_2 (0 < 0)) by lia.
  rewrite (bool_decide_eq_true_2 (- k < 0)) by lia.
  replace (Z.to_nat (Z.min 0 (Z.of_nat (length l)))) with 0%nat by lia.
  rewrite drop_0. f_equal. lia.
Qed.

Lemma paginate_negative_limit {A} (items : list A) pageNo perPage :
  perPage < 0 →
  page (pagination (paginate items pageNo perPage)) = 1
  ∧ data (paginate items pageNo perPage)
    = take (length items - Z.to_nat (- perPage)) items.
Proof.
  intros Hneg. unfold paginate. cbn [pagination page data].
  set (count := Z.of_nat (length items)).
  assert (orOne (Js.ceilDiv count perPage) ≤ 1) as Hpages.
  { unfold orOne, Js.ceilDiv. case_bool_decide; [lia|].
    pose proof (Z.div_opp_opp count (- perPage) ltac:(lia)) as Hopp.
    rewrite Z.opp_involutive in Hopp.
    pose proof (Z.div_pos count (- perPage) ltac:(unfold count; lia) ltac:(lia)).
    lia. }
  replace (Z.max 1 (Z.min pageNo (orOne (Js.ceilDiv count perPage)))) with 1 by lia.
  split; [reflexivity|].
  replace ((1 - 1) * perPage) with 0 by lia.
  replace (0 + perPage) with (- - perPage) by lia.
  apply slice_negative_end. lia.
Qed.

Lemma paginate_positive_limit {A} (items : list A) pageNo perPage :
  0 < perPage →
  let served := page (pagination (paginate items pageNo perPage)) in
  1 ≤ served
  ∧ data (paginate items pageNo perPage)
    = take (Z.to_nat perPage) (drop (Z.to_nat ((served - 1) * perPage)) items).
Proof.
  intros Hpos. unfold paginate. cbn [pagination page data].
  split; [lia|]. apply slice_window; nia.
Qed.

Lemma length_tracksOf tracks ids : (length (tracksOf tracks ids) ≤ length ids)%nat.
Proof.
  unfold tracksOf. induction ids as [|id ids IH]; cbn; [lia|].
  destruct (TrackStore.trackMap tracks !! id); cbn; lia.
Qed.

Section PlaylistPage.
Context `{Platform}.

Lemma getPlaylist_run userId id trackPage trackLimit w playlists tracks p :
  stored PLAYLISTS_FILE w = Some playlists →
  stored TRACKS_FILE w = Some tracks →
  Js.find (λ p, bool_decide (Playlist.id p = id)) playlists = Some p →
  Playlist.userId p = userId →
  let result :=
    paginate (tracksOf tracks (Playlist.trackIds p))
      (PlaylistsRoute.parseIntOr trackPage 1)
      (Z.min (PlaylistsRoute.parseIntOr trackLimit 50) 100) in
  (PlaylistsRoute.getPlaylist userId id trackPage trackLimit w).1
  = Ok (PlaylistsRoute.Detail (Playlist.id p) (Playlist.name p)
          (PlaylistsRoute.trackCountOf p) (Playlist.createdAt p) (Playlist.updatedAt p)
          (data result) (pagination result)).
Proof.
  intros Hplaylists Htracks Hfind Howner result.
  unfold PlaylistsRoute.getPlaylist, tryCatch, PlaylistStore.findById,
    PlaylistStore.getAllPlaylists.
  unfold bind at 1 2. rewrite loadAll_run, Hplaylists. cbn [ret]. rewrite Hfind.
  rewrite (bool_decide_eq_true_2 _ Howner). cbn [negb].
  unfold bind. rewrite track_findByIds_run.
  change (stored TRACKS_FILE (record _ w)) with (stored TRACKS_FILE w).
  by rewrite Htracks.
Qed.

(** X27. What [GET /playlists/:id] shows its owner.  The tracks are those
    of the playlist that the library still holds, in playlist order, so
    their total never exceeds the track count reported beside them.  The
    page size is never zero and never above 100: a missing, unreadable or
    zero [trackLimit] counts as 50.  With a positive page size the page is
    a run of at most 100 consecutive tracks.  A negative [trackLimit] is
    not rejected: the answer is then page 1 holding every track but the
    last [-trackLimit], however many that is. *)
Theorem getPlaylist_track_page userId id trackPage trackLimit w playlists tracks p :
  stored PLAYLISTS_FILE w = Some playlists →
  stored TRACKS_FILE w = Some tracks →
  Js.find (λ p, bool_decide (Playlist.id p = id)) playlists = Some p →
  Playlist.userId p = userId →
  let every := tracksOf tracks (Playlist.trackIds p) in
  ∃ shown pg,
    (PlaylistsRoute.getPlaylist userId id trackPage trackLimit w).1
    = Ok (PlaylistsRoute.Detail (Playlist.id p) (Playlist.name p)
            (PlaylistsRoute.trackCountOf p) (Playlist.createdAt p) (Playlist.updatedAt p)
            shown pg)
    ∧ total pg = Z.of_nat (length every)
    ∧ total pg ≤ PlaylistsRoute.trackCountOf p
    ∧ limit pg ≠ 0 ∧ limit pg ≤ 100
    ∧ (parseIntParam trackLimit = Js.NaN ∨ parseIntParam trackLimit = Js.Num 0 →
       limit pg = 50)
    ∧ (∀ l, parseIntParam trackLimit = Js.Num l → l ≠ 0 → limit pg = Z.min l 100)
    ∧ (0 < limit pg →
       1 ≤ page pg
       ∧ shown = take (Z.to_nat (limit pg))
                   (drop (Z.to_nat ((page pg - 1) * limit pg)) every)
       ∧ (length shown ≤ 100)%nat)
    ∧ (limit pg < 0 →
       page pg = 1
       ∧ shown = take (length every - Z.to_nat (- limit pg)) every).
Proof.
  intros Hplaylists Htracks Hfind Howner every.
  set (perPage := Z.min (PlaylistsRoute.parseIntOr trackLimit 50) 100).
  set (result := paginate every (PlaylistsRoute.parseIntOr trackPage 1) perPage).
  exists (data result), (pagination result).
  split.
  { apply (getPlaylist_run userId id trackPage trackLimit w playlists tracks p
             Hplaylists Htracks Hfind Howner). }
  split; [reflexivity|].
  split.
  { pose proof (length_tracksOf tracks (Playlist.trackIds p)) as Hlength.
    unfold PlaylistsRoute.trackCountOf. cbn [total pagination result paginate].
    fold every in Hlength. lia. }
  change (limit (pagination result)) with perPage.
  pose proof (parseIntOr_nonzero trackLimit 50 ltac:(lia)) as Hnonzero.
  split; [unfold perPage; lia|]. split; [unfold perPage; lia|].
  split.
  { unfold perPage, PlaylistsRoute.parseIntOr. intros [-> | ->]; [done|].
    by rewrite bool_decide_eq_true_2. }
  split.
  { intros l Hl Hne. unfold perPage, PlaylistsRoute.parseIntOr. rewrite Hl.
    by rewrite bool_decide_eq_false_2. }
  split.
  - intros Hpos.
    destruct (paginate_positive_limit every (PlaylistsRoute.parseIntOr trackPage 1)
                perPage Hpos) as [Hpage Hdata].
    split; [exact Hpage|]. split; [exact Hdata|].
    fold result in Hdata. rewrite Hdata, length_take. unfold perPage. lia.
  - intros Hneg.
    apply (paginate_negative_limit every (PlaylistsRoute.parseIntOr trackPage 1)
             perPage Hneg).
Qed.

End PlaylistPage.

Lemma getPlaylist_track_page_witness :
  ∃ shown pg,
    (PlaylistsRoute.getPlaylist "u1" "p1" None (Some "-1") jukebox).1
    = Ok (PlaylistsRoute.Detail "p1" "Mix" 3
            "2024-01-01T00:00:00.000Z" "2024-01-01T00:00:00.000Z" shown pg)
    ∧ limit pg = -1 ∧ page pg = 1 ∧ shown = [starlight; hysteria].
Proof.
  destruct (getPlaylist_track_page "u1" "p1" None (Some "-1") jukebox
              jukeboxPlaylists
              [starlight; hysteria; uprising]
              mix
              eq_refl eq_refl eq_refl eq_refl)
    as (shown & pg & Hreply & _ & _ & _ & _ & _ & Hlimit & _ & Hnegative).
  assert (limit pg = -1) as Hl by (apply (Hlimit (-1)); [reflexivity | lia]).
  destruct Hnegative as [Hpage Hshown]; [lia|].
  exists shown, pg. split; [exact Hreply|]. split; [exact Hl|]. split; [exact Hpage|].
  rewrite Hshown, Hl. reflexivity.
Defined.

(** ** [POST /playlists/:id/tracks]: only stored tracks are added *)

Lemma tracksOf_complete tracks ids :
  length (tracksOf tracks ids) = length ids →
  ∀ x, x ∈ ids → x ∈ storedIds tracks.
Proof.
  unfold tracksOf. induction ids as [|id ids IH]; intros Hlen x Hx.
  - by apply elem_of_nil in Hx.
  - cbn [omap list_omap] in Hlen.
    destruct (TrackStore.trackMap tracks !! id) as [t|] eqn:Ht.
    + cbn in Hlen. apply elem_of_cons in Hx as [-> | Hx].
      * apply trackMap_lookup_is_Some. by exists t.
      * apply IH; [lia | done].
    + pose proof (length_tracksOf tracks ids) as Hle. unfold tracksOf in Hle.
      cbn in Hlen. lia.
Qed.

Lemma refers_insert tracks (playlists : list Playlist.t) i p p' :
  Forall (refersToStored tracks) playlists →
  playlists !! i = Some p →
  (∀ x, x ∈ Playlist.trackIds p' → x ∈ Playlist.trackIds p ∨ x ∈ storedIds tracks) →
  Forall (refersToStored tracks) (<[i := p']> playlists).
Proof.
  intros Hall Hi Hnew. apply Forall_insert; [done|].
  intros x Hx. destruct (Hnew x Hx) as [Hold|Hstored]; [|done].
  by apply (proj1 (Forall_lookup _ _) Hall i p Hi).
Qed.

Lemma elem_of_fold_pushIfAbsent ids old x :
  x ∈ fold_left PlaylistStore.pushIfAbsent ids old → x ∈ old ∨ x ∈ ids.
Proof.
  rewrite fold_pushIfAbsent, elem_of_app, elem_of_firstOccurrences, list_elem_of_filter.
  tauto.
Qed.

Section PostTracks.
Context `{Platform}.

(** What [POST /playlists/:id/tracks] leaves behind, whatever it answers:
    the library as it was, and playlists that still refer to stored tracks
    only. *)
Lemma postTracks_invariant userId id trackId trackIds w tracks playlists :
  stored TRACKS_FILE w = Some tracks →
  stored PLAYLISTS_FILE w = Some playlists →
  Forall (refersToStored tracks) playlists →
  let run := PlaylistsRoute.postTracks userId id trackId trackIds w in
  tracksJson run.2 = tracksJson w
  ∧ ∃ after, stored PLAYLISTS_FILE run.2 = Some after
             ∧ Forall (refersToStored tracks) after.
Proof.
  intros Htracks Hplaylists Hrefers run. subst run.
  destruct (PlaylistsRoute.postTracks _ _ _ _ w) as [out v] eqn:E. cbn [snd].
  unfold PlaylistsRoute.postTracks, tryCatch in E.
  set (u := record (ReadFile TRACKS) w) in *.
  assert (stored PLAYLISTS_FILE u = Some playlists) as Hu by exact Hplaylists.
  destruct (from_option (λ ids, negb (bool_decide (ids = []))) false trackIds).
  - rewrite andb_false_r in E. unfold bind at 1 in E.
    rewrite track_findByIds_run, Htracks in E. fold u in E.
    set (ids := default [] trackIds) in *.
    destruct (bool_decide_reflect (length (tracksOf tracks ids) = length ids))
      as [Hall|Hmissing]; cbn [negb] in E.
    + unfold bind in E.
      destruct (owned_or_not u playlists id userId Hu) as [Hnone | (i & p & Howned)].
      * destruct (unowned_run u playlists id userId Hu Hnone) as (_ & _ & _ & Hrun & _).
        rewrite Hrun in E. injection E as <- <-. split; [done|]. by exists playlists.
      * rewrite (playlist_addTracks_run u playlists id userId i p ids Hu Howned) in E.
        injection E as <- <-. split; [done|]. eexists. split; [reflexivity|].
        destruct Howned as (Hi & _). apply (refers_insert tracks playlists i p); [done..|].
        cbn. intros x Hx. apply elem_of_fold_pushIfAbsent in Hx as [Hx|Hx]; [by left|].
        right. by apply (tracksOf_complete tracks ids Hall).
    + injection E as <- <-. split; [done|]. by exists playlists.
  - destruct (from_option Js.truthy false trackId); cbn [negb andb] in E.
    + unfold bind at 1 in E. rewrite track_findById_run, Htracks in E. fold u in E.
      set (t := default "" trackId) in *.
      destruct (Js.find _ tracks) as [track|] eqn:Hfind.
      * apply find_Some in Hfind as [Hin Hid]. apply bool_decide_eq_true_1 in Hid.
        assert (t ∈ storedIds tracks) as Hstored.
        { rewrite <- Hid. unfold storedIds. by apply list_elem_of_fmap_2. }
        unfold bind in E.
        destruct (owned_or_not u playlists id userId Hu) as [Hnone | (i & p & Howned)].
        -- destruct (unowned_run u playlists id userId Hu Hnone) as (_ & _ & Hrun & _).
           rewrite Hrun in E. injection E as <- <-. split; [done|]. by exists playlists.
        -- rewrite (playlist_addTrack_run u playlists id userId i p t Hu Howned) in E.
           destruct (bool_decide (t ∈ Playlist.trackIds p)).
           ++ injection E as <- <-. split; [done|]. by exists playlists.
           ++ injection E as <- <-. split; [done|]. eexists. split; [reflexivity|].
              destruct Howned as (Hi & _).
              apply (refers_insert tracks playlists i p); [done..|].
              cbn. intros x Hx. apply elem_of_app in Hx as [Hx|Hx]; [by left|].
              apply list_elem_of_singleton in Hx as ->. by right.
      * injection E as <- <-. split; [done|]. by exists playlists.
    + injection E as <- <-. split; [done|]. by exists playlists.
Qed.

(** X28. [POST /playlists/:id/tracks] never puts the id of an unknown track
    into a playlist.  If every stored playlist refers to stored tracks only,
    that is still so afterwards, whatever the request and the answer, and
    the library itself is untouched.  A list of ids of which one is unknown
    is refused as a whole with 400 [INVALID_TRACKS], and a single unknown
    id with 404 [TRACK_NOT_FOUND]; neither changes [playlists.json]. *)
Theorem postTracks_adds_stored_tracks_only userId id trackId trackIds w tracks playlists :
  stored TRACKS_FILE w = Some tracks →
  stored PLAYLISTS_FILE w = Some playlists →
  Forall (refersToStored tracks) playlists →
  let run := PlaylistsRoute.postTracks userId id trackId trackIds w in
  tracksJson run.2 = tracksJson w
  ∧ (∃ after, stored PLAYLISTS_FILE run.2 = Some after
              ∧ Forall (refersToStored tracks) after)
  ∧ (∀ ids missing, trackIds = Some ids → missing ∈ ids → missing ∉ storedIds tracks →
       run.1 = Ok (PlaylistsRoute.Failure 400 "INVALID_TRACKS" "One or more tracks not found")
       ∧ playlistsJson run.2 = playlistsJson w)
  ∧ (∀ unknown, (trackIds = None ∨ trackIds = Some []) → trackId = Some unknown →
       unknown ≠ "" → unknown ∉ storedIds tracks →
       run.1 = Ok (PlaylistsRoute.Failure 404 "TRACK_NOT_FOUND" "Track not found")
       ∧ playlistsJson run.2 = playlistsJson w).
Proof.
  intros Htracks Hplaylists Hrefers run.
  destruct (postTracks_invariant userId id trackId trackIds w tracks playlists
              Htracks Hplaylists Hrefers) as [Hlibrary Hafter].
  split; [exact Hlibrary|]. split; [exact Hafter|]. subst run. split.
  - intros ids missing -> Hin Hmissing.
    destruct (PlaylistsRoute.postTracks _ _ _ _ w) as [out v] eqn:E. cbn [fst snd].
    unfold PlaylistsRoute.postTracks, tryCatch in E. cbn [from_option Datatypes.id] in E.
    rewrite (bool_decide_eq_false_2 (ids = [])) in E
      by (intros ->; by apply elem_of_nil in Hin).
    cbn [negb] in E. rewrite andb_false_r in E. unfold bind at 1 in E.
    rewrite track_findByIds_run, Htracks in E.
    rewrite (bool_decide_eq_false_2 (length (tracksOf tracks ids) = length ids)) in E.
    + by injection E as <- <-.
    + intros Hall. apply Hmissing. by apply (tracksOf_complete tracks ids Hall).
  - intros unknown Hnone -> Hne Hunknown.
    destruct (PlaylistsRoute.postTracks _ _ _ _ w) as [out v] eqn:E. cbn [fst snd].
    unfold PlaylistsRoute.postTracks, tryCatch in E.
    assert (from_option (λ ids, negb (bool_decide (ids = []))) false trackIds = false)
      as Hlist by (by destruct Hnone as [-> | ->]).
    rewrite Hlist in E. cbn [from_option Datatypes.id] in E. unfold Js.truthy at 1 in E.
    rewrite (bool_decide_eq_false_2 (unknown = "")) in E by done.
    cbn [negb andb] in E. unfold bind at 1 in E.
    rewrite track_findById_run, Htracks in E.
    assert (Js.find (λ t, bool_decide (Track.id t = unknown)) tracks = None) as Hfind.
    { apply find_None. intros t Ht. apply bool_decide_eq_false_2. intros Hid.
      apply Hunknown. rewrite <- Hid. unfold storedIds. by apply list_elem_of_fmap_2. }
    rewrite Hfind in E. by injection E as <- <-.
Qed.

End PostTracks.

Lemma postTracks_adds_stored_tracks_only_witness :
  (PlaylistsRoute.postTracks "u1" "p2" None (Some ["t1"; "ghost"]) jukebox).1
  = Ok (PlaylistsRoute.Failure 400 "INVALID_TRACKS" "One or more tracks not found")
  ∧ (PlaylistsRoute.postTracks "u1" "p2" (Some "ghost") None jukebox).1
    = Ok (PlaylistsRoute.Failure 404 "TRACK_NOT_FOUND" "Track not found").
Proof.
  assert (Forall (refersToStored [starlight; hysteria; uprising])
            jukeboxPlaylists) as Hrefers.
  { apply Forall_forall. intros p Hp x Hx.
    repeat (apply elem_of_cons in Hp as [-> | Hp];
            [cbn in Hx;
             repeat (apply elem_of_cons in Hx as [-> | Hx];
                     [apply (bool_decide_eq_true_1 _); by vm_compute|]);
             by apply elem_of_nil in Hx|]).
    by apply elem_of_nil in Hp. }
  assert ("ghost" ∉ storedIds [starlight; hysteria; uprising]) as Hghost
    by (apply (bool_decide_eq_false_1 _); by vm_compute).
  split.
  - destruct (postTracks_adds_stored_tracks_only "u1" "p2" None (Some ["t1"; "ghost"])
                jukebox _ _ eq_refl eq_refl Hrefers) as (_ & _ & Hlist & _).
    apply (Hlist ["t1"; "ghost"] "ghost" eq_refl); [|exact Hghost].
    apply (bool_decide_eq_true_1 _). by vm_compute.
  - destruct (postTracks_adds_stored_tracks_only "u1" "p2" (Some "ghost") None
                jukebox _ _ eq_refl eq_refl Hrefers) as (_ & _ & _ & Hsingle).
    apply (Hsingle "ghost"); [by left | reflexivity | discriminate | exact Hghost].
Defined.

(** ** [POST /playlists] and [PUT /playlists/:id]: names stay unique *)

Lemma NoDup_fmap_same {A B} (f : A → B) (l : list A) x y :
  NoDup (f <$> l) → x ∈ l → y ∈ l → f x = f y → x = y.
Proof.
  induction l as [|z l IH]; intros Hnd Hx Hy Hf; [by apply elem_of_nil in Hx|].
  rewrite fmap_cons in Hnd. apply NoDup_cons in Hnd as [Hz Hnd].
  apply elem_of_cons in Hx as [-> | Hx], Hy as [-> | Hy].
  - done.
  - exfalso. apply Hz. rewrite Hf. by apply list_elem_of_fmap_2.
  - exfalso. apply Hz. rewrite <- Hf. by apply list_elem_of_fmap_2.
  - by apply IH.
Qed.

Lemma NoDup_insert_fresh {A} (l : list A) i x :
  NoDup l → x ∉ l → NoDup (<[i := x]> l).
Proof.
  revert i. induction l as [|y l IH]; intros i Hnd Hx; [done|].
  apply NoDup_cons in Hnd as [Hy Hnd].
  apply not_elem_of_cons in Hx as [Hxy Hx].
  destruct i as [|i].
  - change (<[0%nat := x]> (y :: l)) with (x :: l). apply NoDup_cons. by split.
  - change (<[S i := x]> (y :: l)) with (y :: <[i := x]> l).
    apply NoDup_cons. split; [|by apply IH].
    intros Hin. apply list_elem_of_lookup in Hin as [j Hj].
    apply list_lookup_insert_Some in Hj as [(_ & Heq & _) | (_ & Hj)]; [congruence|].
    apply Hy. by eapply list_elem_of_lookup_2.
Qed.

Section PlaylistNames.
Context `{Platform}.

Lemma name_taken userId name (playlists : list Playlist.t) :
  let test := λ p, bool_decide (Playlist.userId p = userId)
                   && bool_decide (toLowerCase (Playlist.name p) = toLowerCase name) in
  match Js.find test playlists with
  | Some existing =>
      existing ∈ playlists ∧ nameKey existing = (userId, toLowerCase name)
  | None => (userId, toLowerCase name) ∉ map nameKey playlists
  end.
Proof.
  intros test. destruct (Js.find test playlists) as [existing|] eqn:Hfind.
  - apply find_Some in Hfind as [Hin Htest]. split; [done|].
    unfold test in Htest. apply andb_true_iff in Htest as [Huser Hname].
    apply bool_decide_eq_true_1 in Huser, Hname. unfold nameKey. by rewrite Huser, Hname.
  - intros Hin. apply list_elem_of_fmap in Hin as (p & Hkey & Hp).
    pose proof (proj1 (find_None test playlists) Hfind p Hp) as Htest.
    unfold nameKey in Hkey. injection Hkey as Huser Hname.
    unfold test in Htest. by rewrite !bool_decide_eq_true_2 in Htest.
Qed.

(** X29. [POST /playlists] keeps playlist names unique per owner, case
    ignored.  When the owner already has a playlist whose name differs from
    the new one at most in case, the answer is 409 and nothing is written;
    otherwise an empty playlist with the new id, the owner and the name as
    given is appended and returned with status 201.  Either way no owner
    has two playlists of the same name afterwards if none had before. *)
Theorem createPlaylist_keeps_names_unique userId freshId name w playlists :
  stored PLAYLISTS_FILE w = Some playlists →
  uniqueNames playlists →
  let run := PlaylistsRoute.createPlaylist userId freshId name w in
  let created := Playlist.mk freshId userId name [] (clock w) (clock w) in
  (∃ after, stored PLAYLISTS_FILE run.2 = Some after ∧ uniqueNames after)
  ∧ ((userId, toLowerCase name) ∈ map nameKey playlists →
       run.1 = Ok (PlaylistsRoute.Failure 409 "DUPLICATE_PLAYLIST"
                     "A playlist with this name already exists")
       ∧ playlistsJson run.2 = playlistsJson w)
  ∧ ((userId, toLowerCase name) ∉ map nameKey playlists →
       run.1 = Ok (PlaylistsRoute.Created created)
       ∧ PlaylistsRoute.statusOf (PlaylistsRoute.Created created) = 201
       ∧ stored PLAYLISTS_FILE run.2 = Some (playlists ++ [created])).
Proof.
  intros Hstored Hunique run created. subst run.
  destruct (PlaylistsRoute.createPlaylist _ _ _ w) as [out v] eqn:E. cbn [fst snd].
  unfold PlaylistsRoute.createPlaylist, tryCatch in E. unfold bind at 1 in E.
  rewrite (findByUserIdAndName_run _ _ _ _ Hstored) in E.
  pose proof (name_taken userId name playlists) as Htaken. cbn zeta in Htaken.
  destruct (Js.find _ playlists) as [existing|].
  - injection E as <- <-. destruct Htaken as [Hin Hkey].
    split; [by exists playlists|]. split; [done|].
    intros Hfree. exfalso. apply Hfree. rewrite <- Hkey. by apply list_elem_of_fmap_2.
  - unfold bind in E.
    rewrite (create_run (record (ReadFile PLAYLISTS) w) playlists _ Hstored) in E.
    injection E as <- <-. cbn [PlaylistStore.newId PlaylistStore.newUserId
      PlaylistStore.newName PlaylistStore.newTrackIds clock record].
    fold created. split; [|split; [done | by intros _]].
    exists (playlists ++ [created]). split; [reflexivity|].
    unfold uniqueNames. rewrite map_app. apply NoDup_app. split; [done|].
    split; [|apply NoDup_singleton].
    intros key Hkey Hnew. apply list_elem_of_singleton in Hnew. subst key.
    by apply Htaken.
Qed.

(** X30. [PUT /playlists/:id] keeps playlist names unique per owner, case
    ignored, in a collection whose ids are distinct.  A new name that
    another playlist of the caller already carries, up to case, is
    answered with 409 and nothing is written.  Whatever the request (the
    validators let no empty name through), no owner has two playlists of
    the same name afterwards if none had before, and the ids are the same,
    in the same order. *)
Theorem updatePlaylist_keeps_names_unique userId id name trackIds w playlists :
  stored PLAYLISTS_FILE w = Some playlists →
  uniqueNames playlists →
  NoDup (map Playlist.id playlists) →
  name ≠ Some "" →
  let run := PlaylistsRoute.updatePlaylist userId id name trackIds w in
  (∃ after, stored PLAYLISTS_FILE run.2 = Some after
            ∧ uniqueNames after
            ∧ map Playlist.id after = map Playlist.id playlists)
  ∧ (∀ newName other,
       name = Some newName → other ∈ playlists →
       nameKey other = (userId, toLowerCase newName) → Playlist.id other ≠ id →
       run.1 = Ok (PlaylistsRoute.Failure 409 "DUPLICATE_PLAYLIST"
                     "A playlist with this name already exists")
       ∧ playlistsJson run.2 = playlistsJson w).
Proof.
  intros Hstored Hunique Hids Hname run. subst run.
  destruct (PlaylistsRoute.updatePlaylist _ _ _ _ w) as [out v] eqn:E. cbn [fst snd].
  unfold PlaylistsRoute.updatePlaylist, tryCatch in E.
  set (u := record (ReadFile PLAYLISTS) w) in *.
  assert (stored PLAYLISTS_FILE u = Some playlists) as Hu by exact Hstored.
  (* what [update] leaves when the name key of the target does not change
     or is free *)
  assert (∀ w' i p,
            stored PLAYLISTS_FILE w' = Some playlists →
            ownedAt playlists id userId i p →
            (∀ n, name = Some n →
                  nameKey p = (userId, toLowerCase n)
                  ∨ (userId, toLowerCase n) ∉ map nameKey playlists) →
            ∃ updated,
              PlaylistStore.update id userId (PlaylistStore.mkUpdates name trackIds) w'
              = (Ok (Some updated),
                 setPlaylistsJson (Present (JsonArray (<[i := updated]> playlists)))
                   (record (WriteFile PLAYLISTS) (record (ReadFile PLAYLISTS) w')))
              ∧ uniqueNames (<[i := updated]> playlists)
              ∧ map Playlist.id (<[i := updated]> playlists) = map Playlist.id playlists)
    as Hupdate.
  { intros w' i p Hw' Howned Hkey.
    eexists. split; [apply (update_run w' playlists id userId i p _ Hw' Howned)|].
    destruct Howned as (Hi & Hid & Huser & _).
    cbn [PlaylistStore.updName PlaylistStore.updTrackIds].
    split.
    - unfold uniqueNames. rewrite list_fmap_insert.
      destruct name as [n|]; cbn [default from_option Datatypes.id].
      + destruct (Hkey n eq_refl) as [Hsame|Hfree].
        * rewrite list_insert_id; [done|].
          rewrite list_lookup_fmap, Hi. change (nameKey <$> Some p) with (Some (nameKey p)).
          rewrite Hsame. unfold nameKey. cbn. by rewrite Huser.
        * apply NoDup_insert_fresh; [done|]. unfold nameKey at 1. cbn. by rewrite Huser.
      + rewrite list_insert_id; [done|]. by rewrite list_lookup_fmap, Hi.
    - rewrite list_fmap_insert. cbn. apply list_insert_id.
      by rewrite list_lookup_fmap, Hi. }
  split.
  - destruct name as [n|].
    + assert (Js.truthy n = true) as Htruthy.
      { unfold Js.truthy. rewrite bool_decide_eq_false_2; [done|]. congruence. }
      rewrite Htruthy in E. unfold bind at 1 2 in E.
      rewrite (findByUserIdAndName_run _ _ _ _ Hstored) in E. cbn [ret] in E. fold u in E.
      pose proof (name_taken userId n playlists) as Htaken. cbn zeta in Htaken.
      destruct (Js.find _ playlists) as [existing|].
      * destruct (bool_decide_reflect (Playlist.id existing = id)) as [Hsame|Hother];
          cbn [negb] in E.
        -- unfold bind in E.
           destruct (owned_or_not u playlists id userId Hu) as [Hnone | (i & p & Howned)].
           ++ destruct (unowned_run u playlists id userId Hu Hnone) as (Hrun & _).
              rewrite Hrun in E. injection E as <- <-. by exists playlists.
           ++ destruct (Hupdate u i p Hu Howned) as (updated & Hrun & Hnames & Hsameids).
              { intros n' [= <-]. left. destruct Htaken as [Hin Hkey].
                destruct Howned as (Hi & Hid & _).
                rewrite <- Hkey. f_equal.
                apply (NoDup_fmap_same Playlist.id playlists); [done| |done|congruence].
                by eapply list_elem_of_lookup_2. }
              rewrite Hrun in E. injection E as <- <-. eexists. by split; [reflexivity|].
        -- injection E as <- <-. by exists playlists.
      * unfold bind in E.
        destruct (owned_or_not u playlists id userId Hu) as [Hnone | (i & p & Howned)].
        -- destruct (unowned_run u playlists id userId Hu Hnone) as (Hrun & _).
           rewrite Hrun in E. injection E as <- <-. by exists playlists.
        -- destruct (Hupdate u i p Hu Howned) as (updated & Hrun & Hnames & Hsameids).
           { intros n' [= <-]. by right. }
           rewrite Hrun in E. injection E as <- <-. eexists. by split; [reflexivity|].
    + unfold bind, ret in E.
      destruct (owned_or_not w playlists id userId Hstored) as [Hnone | (i & p & Howned)].
      * destruct (unowned_run w playlists id userId Hstored Hnone) as (Hrun & _).
        rewrite Hrun in E. injection E as <- <-. by exists playlists.
      * destruct (Hupdate w i p Hstored Howned) as (updated & Hrun & Hnames & Hsameids);
          [done|].
        rewrite Hrun in E. injection E as <- <-. eexists. by split; [reflexivity|].
  - intros newName other -> Hin Hkey Hother.
    assert (Js.truthy newName = true) as Htruthy.
    { unfold Js.truthy. rewrite bool_decide_eq_false_2; [done|]. congruence. }
    rewrite Htruthy in E. unfold bind at 1 2 in E.
    rewrite (findByUserIdAndName_run _ _ _ _ Hstored) in E. cbn [ret] in E.
    pose proof (name_taken userId newName playlists) as Htaken. cbn zeta in Htaken.
    destruct (Js.find _ playlists) as [existing|].
    + destruct Htaken as [Hexisting Hexkey].
      assert (existing = other) as ->.
      { apply (NoDup_fmap_same nameKey playlists); [done..|congruence]. }
      rewrite (bool_decide_eq_false_2 _ Hother) in E. cbn [negb] in E.
      by injection E as <- <-.
    + exfalso. apply Htaken. rewrite <- Hkey. by apply list_elem_of_fmap_2.
Qed.

End PlaylistNames.

Lemma jukebox_names_unique : uniqueNames jukeboxPlaylists.
Proof. apply (bool_decide_eq_true_1 _). by vm_compute. Qed.

Lemma createPlaylist_keeps_names_unique_witness :
  (PlaylistsRoute.createPlaylist "u1" "p3" "MIX" jukebox).1
  = Ok (PlaylistsRoute.Failure 409 "DUPLICATE_PLAYLIST"
          "A playlist with this name already exists")
  ∧ (PlaylistsRoute.createPlaylist "u2" "p3" "MIX" jukebox).1
    = Ok (PlaylistsRoute.Created
            (Playlist.mk "p3" "u2" "MIX" []
               "2025-01-01T00:00:00.000Z" "2025-01-01T00:00:00.000Z")).
Proof.
  split.
  - destruct (createPlaylist_keeps_names_unique "u1" "p3" "MIX" jukebox jukeboxPlaylists
                eq_refl jukebox_names_unique) as (_ & Htaken & _).
    apply Htaken. apply (bool_decide_eq_true_1 _). by vm_compute.
  - destruct (createPlaylist_keeps_names_unique "u2" "p3" "MIX" jukebox jukeboxPlaylists
                eq_refl jukebox_names_unique) as (_ & _ & Hfree).
    apply Hfree. apply (bool_decide_eq_false_1 _). by vm_compute.
Defined.

Lemma updatePlaylist_keeps_names_unique_witness :
  (PlaylistsRoute.updatePlaylist "u1" "p2" (Some "mix") None jukebox).1
  = Ok (PlaylistsRoute.Failure 409 "DUPLICATE_PLAYLIST"
          "A playlist with this name already exists")
  ∧ ∃ after,
      stored PLAYLISTS_FILE
        (PlaylistsRoute.updatePlaylist "u1" "p2" (Some "Drive") None jukebox).2 = Some after
      ∧ uniqueNames after.
Proof.
  assert (NoDup (map Playlist.id jukeboxPlaylists)) as Hids
    by (apply (bool_decide_eq_true_1 _); by vm_compute).
  split.
  - destruct (updatePlaylist_keeps_names_unique "u1" "p2" (Some "mix") None jukebox
                jukeboxPlaylists eq_refl jukebox_names_unique Hids ltac:(discriminate))
      as (_ & Htaken).
    apply (Htaken "mix" mix eq_refl); [|reflexivity|discriminate].
    apply (bool_decide_eq_true_1 _). by vm_compute.
  - destruct (updatePlaylist_keeps_names_unique "u1" "p2" (Some "Drive") None jukebox
                jukeboxPlaylists eq_refl jukebox_names_unique Hids ltac:(discriminate))
      as ((after & Hafter & Hnames & _) & _).
    by exists after.
Defined.
